(** * cppcoro: task, generator, recursive_generator and fmap

    A shallow embedding of

    - [include/cppcoro/detail/exception_promise.hpp] (the exception-capture
      mix-in),
    - [include/cppcoro/generator.hpp] (generator, its iterator and fmap),
    - [include/cppcoro/recursive_generator.hpp] (the flattening generator),
    - [include/cppcoro/task.hpp] (task and its continuation hand-off).

    A coroutine body is user code: it is a parameter of the model.  The body
    of a generator or of a task is given as the function that runs it from
    one suspension point to the next; the body of a recursive generator,
    which creates further coroutines as it runs, is given as the sequence of
    its [co_yield]s.  Everything the library itself does (promises,
    awaitables, iterators, wrappers) is translated function by function. *)

From stdpp Require Import base option list relations.
From Stdlib Require Import Lia.

Set Default Proof Using "Type".

(** ** Failures, faults and results *)

(** The exceptions the model distinguishes: [cppcoro::broken_promise] and the
    exceptions of user code, told apart by a code. *)
Inductive exn : Type :=
| broken_promise
| user_error (code : nat).

(** [std::exception_ptr]; [None] is the null pointer. *)
Definition exception_ptr : Type := option exn.

(** What ends a program instead of returning or throwing. *)
Inductive fault : Type :=
| terminated          (* std::terminate() *)
| undefined           (* undefined behaviour, or a failed assert *)
| exhausted.          (* the bound the model puts on a loop was reached *)

(** A computation that cannot throw to its caller. *)
Inductive res (A : Type) : Type :=
| Ok (a : A)
| Fault (f : fault).
Arguments Ok {A} a.
Arguments Fault {A} f.

#[global] Instance res_ret : MRet res := fun A a => Ok a.
#[global] Instance res_bind : MBind res := fun A B f m =>
  match m with
  | Ok a => f a
  | Fault x => Fault x
  end.

(** How a call that may throw comes back. *)
Inductive except (A : Type) : Type :=
| Return (a : A)
| Throw (e : exn).
Arguments Return {A} a.
Arguments Throw {A} e.

(** An observable side effect of a coroutine body, told apart by a tag. *)
Definition effect : Type := nat.

(** [std::experimental::suspend_always] and [suspend_never]. *)
Inductive trivial_awaitable : Type :=
| suspend_always
| suspend_never.

Definition await_ready (a : trivial_awaitable) : bool :=
  match a with
  | suspend_always => false
  | suspend_never => true
  end.

(** ** exception_promise.hpp *)

Module ExceptionPromise.

Section exception_promise.

(** [rethrow_if_exception] passes [std::move(m_exception)] to
    [std::rethrow_exception], whose parameter is taken by value: the parameter
    is move-constructed from the member.  What the member holds afterwards is
    the standard library's choice ([<exception>] is not part of this
    repository): [moved_from p] is the state of an [exception_ptr] that held
    [p] and has been moved from. *)
Variable moved_from : exception_ptr -> exception_ptr.

(** The template parameter. *)
Variable NoExcept : bool.

(** [exception_promise<NoExcept, Base>]; the [false] specialization has the
    member [m_exception], initially null.  The [true] specialization has no
    member: its [m_exception] here is never written. *)
Record exception_promise : Type := {
  m_exception : exception_ptr
}.

Definition init : exception_promise := {| m_exception := None |}.

(** [unhandled_exception()]: [current] is [std::current_exception()]. *)
Definition unhandled_exception (current : exn) (p : exception_promise)
  : res exception_promise :=
  if NoExcept then Fault terminated
  else Ok {| m_exception := Some current |}.

(** [rethrow_if_exception()]. *)
Definition rethrow_if_exception (p : exception_promise)
  : exception_promise * except unit :=
  if NoExcept then (p, Return tt)
  else
    match m_exception p with
    | Some e => ({| m_exception := moved_from (Some e) |}, Throw e)
    | None => (p, Return tt)
    end.

End exception_promise.

(** The two behaviours of a moved-from [exception_ptr] found in standard
    libraries: a move constructor that takes the pointer and nulls the source
    (libstdc++, libc++), and no move constructor at all, so that the move is a
    copy. *)
Definition moved_from_null : exception_ptr -> exception_ptr := fun _ => None.
Definition moved_from_copy : exception_ptr -> exception_ptr := fun p => p.

End ExceptionPromise.

(** [noexcept(b)] on a function: an exception leaving it ends the program. *)
Definition noexcept {S A : Type} (b : bool) (r : res (S * except A))
  : res (S * except A) :=
  match r with
  | Ok (_, Throw _) => if b then Fault terminated else r
  | _ => r
  end.

(** ** The iteration protocol of a range-based [for]

    [for (auto&& value : source)] calls [source.begin()], compares the
    iterator with [source.end()], dereferences it and increments it.  A call
    returns the effects of the coroutine bodies it ran, and either faults or
    comes back with the state it left behind. *)
Class Range (Src It T : Type) : Type := {
  range_begin : Src -> list effect * res (Src * except It);
  range_at_end : It -> bool;
  range_deref : It -> res T;
  range_incr : It -> list effect * res (It * except unit)
}.

(** How a loop over a range ends. *)
Inductive ending : Type :=
| finished
| raised (e : exn)
| crashed (f : fault)
| out_of_fuel.

(** What a consumer observes: the values in order, the effects of the bodies
    in order, and how the loop ended. *)
Record observation (T : Type) : Type := {
  values : list T;
  effects : list effect;
  outcome : ending
}.
Arguments values {T} o.
Arguments effects {T} o.
Arguments outcome {T} o.

Definition observe {T : Type} (effs : list effect) (e : ending) : observation T :=
  {| values := []; effects := effs; outcome := e |}.

Definition and_then {T : Type} (vs : list T) (effs : list effect)
  (o : observation T) : observation T :=
  {| values := vs ++ values o; effects := effs ++ effects o; outcome := outcome o |}.

Definition map_observation {T U : Type} (f : T -> U) (o : observation T)
  : observation U :=
  {| values := f <$> values o; effects := effects o; outcome := outcome o |}.

Section for_each.

Context {Src It T : Type} `{!Range Src It T}.

(** [for (; it != end; ++it) out.push_back(v);] where [v] is the value the
    iterator points to; [fuel] bounds the number of increments. *)
Fixpoint for_loop (fuel : nat) (it : It) : observation T :=
  if range_at_end it then observe [] finished
  else
    match range_deref it with
    | Fault x => observe [] (crashed x)
    | Ok v =>
        match fuel with
        | 0 => and_then [v] [] (observe [] out_of_fuel)
        | S fuel' =>
            let '(effs, r) := range_incr it in
            match r with
            | Fault x => and_then [v] effs (observe [] (crashed x))
            | Ok (_, Throw e) => and_then [v] effs (observe [] (raised e))
            | Ok (it', Return _) => and_then [v] effs (for_loop fuel' it')
            end
        end
    end.

(** [for (auto&& value : source) out.push_back(value);] *)
Definition for_each (fuel : nat) (source : Src) : observation T :=
  let '(effs, r) := range_begin source in
  match r with
  | Fault x => observe effs (crashed x)
  | Ok (_, Throw e) => observe effs (raised e)
  | Ok (_, Return it) => and_then [] effs (for_loop fuel it)
  end.

End for_each.

(** ** generator.hpp *)

Module Generator.

Section generator.

Variable moved_from : exception_ptr -> exception_ptr.

(** [T] is the element type; [St] is what the body keeps across a
    suspension (its locals and its resumption point). *)
Context {T St : Type}.

Variable NoExcept : bool.

(** How the body comes back when it is run from a suspension point: at a
    [co_yield], at its end, with an exception leaving it, or not at all. *)
Inductive body_step : Type :=
| co_yield (v : T) (s : St)
| co_return
| throws (e : exn)
| crashes (f : fault).

(** The body of the coroutine: its effects up to the next suspension. *)
Variable body : St -> list effect * body_step.

(** [generator_promise<T, NoExcept>].  The default constructor leaves
    [m_value] uninitialised: [None]. *)
Record generator_promise : Type := {
  base : ExceptionPromise.exception_promise;
  m_value : option T
}.

Definition initial_suspend : trivial_awaitable := suspend_always.
Definition final_suspend : trivial_awaitable := suspend_always.

Definition yield_value (value : T) (p : generator_promise)
  : generator_promise * trivial_awaitable :=
  ({| base := base p; m_value := Some value |}, suspend_always).

(** [value()]: dereferences [m_value]. *)
Definition value (p : generator_promise) : res T :=
  match m_value p with
  | Some v => Ok v
  | None => Fault undefined
  end.

(** The coroutine frame: the promise and where the body stands.  The frame
    is kept at the final suspend point until its owner destroys it, since
    [final_suspend()] always suspends. *)
Inductive coroutine_state : Type :=
| suspended (s : St)
| at_final_suspend.

Record coroutine_frame : Type := {
  promise : generator_promise;
  state : coroutine_state
}.

(** A handle is modelled by the frame it points to; [None] is the null
    handle.  A generator and the iterator obtained from it point to the same
    frame: the frame an operation returns is the one both see. *)
Definition coroutine_handle : Type := option coroutine_frame.

Definition done (f : coroutine_frame) : bool :=
  match state f with
  | at_final_suspend => true
  | suspended _ => false
  end.

(** [coroutine_handle::resume()]. *)
Definition resume (f : coroutine_frame) : list effect * res coroutine_frame :=
  match state f with
  | at_final_suspend => ([], Fault undefined)
  | suspended s =>
      let '(effs, r) := body s in
      (effs,
       match r with
       | co_yield v s' =>
           let '(p, a) := yield_value v (promise f) in
           if await_ready a then Fault undefined
           else Ok {| promise := p; state := suspended s' |}
       | co_return =>
           if await_ready final_suspend then Fault undefined
           else Ok {| promise := promise f; state := at_final_suspend |}
       | throws e =>
           b ← ExceptionPromise.unhandled_exception NoExcept e (base (promise f));
           if await_ready final_suspend then Fault undefined
           else Ok {| promise := {| base := b; m_value := m_value (promise f) |};
                      state := at_final_suspend |}
       | crashes x => Fault x
       end)
  end.

(** [promise().rethrow_if_exception()] through a handle. *)
Definition rethrow_if_exception (f : coroutine_frame)
  : coroutine_frame * except unit :=
  let '(b, r) := ExceptionPromise.rethrow_if_exception moved_from NoExcept
                   (base (promise f)) in
  ({| promise := {| base := b; m_value := m_value (promise f) |};
      state := state f |}, r).

(** [generator<T, NoExcept>]. *)
Record generator : Type := {
  m_coroutine : coroutine_handle
}.

(** [generator() noexcept]. *)
Definition generator_default : generator := {| m_coroutine := None |}.

(** [generator(generator&& other) noexcept]: the new generator and what is
    left of [other]. *)
Definition generator_move (other : generator) : generator * generator :=
  ({| m_coroutine := m_coroutine other |}, {| m_coroutine := None |}).

(** A call of a coroutine function whose return type is the generator: the
    frame is allocated with the body at its start [s0], the promise is
    constructed, [get_return_object()] makes the generator and
    [co_await initial_suspend()] decides whether the body starts now. *)
Definition coroutine_call (s0 : St) : list effect * res generator :=
  let f := {| promise := {| base := ExceptionPromise.init; m_value := None |};
              state := suspended s0 |} in
  if await_ready initial_suspend then
    let '(effs, r) := resume f in
    (effs, f' ← r; Ok {| m_coroutine := Some f' |})
  else ([], Ok {| m_coroutine := Some f |}).

(** [generator_iterator<T, NoExcept>]. *)
Record generator_iterator : Type := {
  it_coroutine : coroutine_handle
}.

(** [operator==(const generator_iterator&, generator_sentinel)]. *)
Definition iterator_eq_sentinel (it : generator_iterator) : bool :=
  match it_coroutine it with
  | None => true
  | Some f => done f
  end.

(** [operator!=(const generator_iterator&, generator_sentinel)]. *)
Definition iterator_neq_sentinel (it : generator_iterator) : bool :=
  negb (iterator_eq_sentinel it).

(** [generator_iterator::operator++() noexcept(NoExcept)]. *)
Definition iterator_increment (it : generator_iterator)
  : list effect * res (generator_iterator * except unit) :=
  match it_coroutine it with
  | None => ([], Fault undefined)
  | Some f =>
      let '(effs, r) := resume f in
      (effs,
       noexcept NoExcept
         (f' ← r;
          if done f' then
            let '(f'', x) := rethrow_if_exception f' in
            Ok ({| it_coroutine := Some f'' |}, x)
          else Ok ({| it_coroutine := Some f' |}, Return tt)))
  end.

(** [generator_iterator::operator*()]. *)
Definition iterator_deref (it : generator_iterator) : res T :=
  match it_coroutine it with
  | None => Fault undefined
  | Some f => value (promise f)
  end.

(** [generator::begin() noexcept(NoExcept)]. *)
Definition begin (g : generator)
  : list effect * res (generator * except generator_iterator) :=
  match m_coroutine g with
  | Some f =>
      let '(effs, r) := resume f in
      (effs,
       noexcept NoExcept
         (f' ← r;
          if done f' then
            let '(f'', x) := rethrow_if_exception f' in
            match x with
            | Throw e => Ok ({| m_coroutine := Some f'' |}, Throw e)
            | Return _ =>
                Ok ({| m_coroutine := Some f'' |},
                    Return {| it_coroutine := Some f'' |})
            end
          else
            Ok ({| m_coroutine := Some f' |},
                Return {| it_coroutine := Some f' |})))
  | None => ([], Ok (g, Return {| it_coroutine := None |}))
  end.

#[global] Instance generator_range : Range generator generator_iterator T := {
  range_begin := begin;
  range_at_end := iterator_eq_sentinel;
  range_deref := iterator_deref;
  range_incr := iterator_increment
}.

End generator.

Arguments body_step : clear implicits.
Arguments generator_promise : clear implicits.
Arguments coroutine_frame : clear implicits.
Arguments generator : clear implicits.
Arguments generator_iterator : clear implicits.

(** *** The frames a resumption leaves behind *)

Section frames.

Context {T St : Type}.

(** At a [co_yield] of [v], the body standing at [s']. *)
Definition yielded (f : coroutine_frame T St) (v : T) (s' : St)
  : coroutine_frame T St :=
  {| promise := {| base := base (promise f); m_value := Some v |};
     state := suspended s' |}.

(** At the end of the body. *)
Definition returned (f : coroutine_frame T St) : coroutine_frame T St :=
  {| promise := promise f; state := at_final_suspend |}.

(** After an exception left the body: [p] is what [m_exception] holds. *)
Definition failed (f : coroutine_frame T St) (p : exception_ptr)
  : coroutine_frame T St :=
  {| promise := {| base := {| ExceptionPromise.m_exception := p |};
                   m_value := m_value (promise f) |};
     state := at_final_suspend |}.

End frames.

(** *** fmap *)

Section fmap.

Context {Src It T U : Type} `{!Range Src It T}.

(** [FUNC func]. *)
Variable func : T -> U.

(** What the body of [fmap] keeps across its suspensions: before the first
    resumption the parameter [source]; at the [co_yield] also the iterator
    of the range-based [for]. *)
Inductive fmap_state : Type :=
| fmap_start (source : Src)
| fmap_in_loop (source : Src) (it : It).

(** The loop test and the loop body up to the [co_yield]. *)
Definition fmap_iteration (source : Src) (it : It) : body_step U fmap_state :=
  if range_at_end it then co_return
  else
    match range_deref it with
    | Fault x => crashes x
    | Ok v => co_yield (func v) (fmap_in_loop source it)
    end.

(** [for (auto&& value : source) co_yield std::invoke(func, value);] *)
Definition fmap_body (s : fmap_state) : list effect * body_step U fmap_state :=
  match s with
  | fmap_start source =>
      let '(effs, r) := range_begin source in
      (effs,
       match r with
       | Fault x => crashes x
       | Ok (_, Throw e) => throws e
       | Ok (source', Return it) => fmap_iteration source' it
       end)
  | fmap_in_loop source it =>
      let '(effs, r) := range_incr it in
      (effs,
       match r with
       | Fault x => crashes x
       | Ok (_, Throw e) => throws e
       | Ok (it', Return _) => fmap_iteration source it'
       end)
  end.

End fmap.

Arguments fmap_state : clear implicits.

(** The frame of [fmap] suspended at its [co_yield], no failure captured,
    while the iterator [it] of its loop stands at the element [v]. *)
Definition fmap_suspended_at {Src It T U : Type} `{!Range Src It T}
  (func : T -> U) (f : coroutine_frame U (fmap_state Src It)) (it : It) (v : T)
  : Prop :=
  (exists source, state f = suspended (fmap_in_loop source it))
  /\ m_value (promise f) = Some (func v)
  /\ ExceptionPromise.m_exception (base (promise f)) = None
  /\ range_at_end it = false
  /\ range_deref it = Ok v.

(** [fmap(FUNC func, generator<T, NoExcept> source)]: a coroutine function
    returning [generator<U>], whose [NoExcept] is the default, [false]. *)
Definition fmap {T U St : Type} (moved_from : exception_ptr -> exception_ptr)
  (NoExcept : bool) (body : St -> list effect * body_step T St)
  (func : T -> U) (source : generator T St)
  : list effect * res (generator U (fmap_state (generator T St) (generator_iterator T St))) :=
  coroutine_call false
    (fmap_body (Range0 := generator_range moved_from NoExcept body) func)
    (fmap_start source).

End Generator.

(** ** recursive_generator.hpp *)

Module RecursiveGenerator.

(** Promises refer to each other by address: an index into the heap. *)
Abbreviation addr := nat.

Section recursive_generator.

Variable moved_from : exception_ptr -> exception_ptr.

Context {T : Type}.

Variable NoExcept : bool.

(** The body of a coroutine returning [recursive_generator<T, NoExcept>], as
    the sequence of what it does to its promise: [co_yield] of a value,
    [co_yield] of a default-constructed (empty) generator, [co_yield] of the
    generator returned by a call of a coroutine function with body [child],
    the end of the body, an exception leaving the body. *)
Inductive body : Type :=
| co_return
| co_yield (v : T) (k : body)
| co_yield_empty (k : body)
| co_yield_generator (child : body) (k : body)
| throws (e : exn).


(** Where the coroutine of a promise stands.  [awaiting_child c k]: suspended
    in the awaitable that [yield_value(recursive_generator&)] returned with
    [m_childPromise = c]; the temporary generator that owns [c] is alive in
    the frame. *)
Inductive coroutine_state : Type :=
| suspended (k : body)
| awaiting_child (c : addr) (k : body)
| at_final_suspend
| destroyed.

(** [recursive_generator::promise_type], with the state of its frame. *)
Record promise_type : Type := {
  base : ExceptionPromise.exception_promise;
  m_value : option T;
  m_root : addr;
  m_parentOrLeaf : addr;
  state : coroutine_state
}.

Definition set_base (b : ExceptionPromise.exception_promise) (p : promise_type) :=
  {| base := b; m_value := m_value p; m_root := m_root p;
     m_parentOrLeaf := m_parentOrLeaf p; state := state p |}.
Definition set_value (v : option T) (p : promise_type) :=
  {| base := base p; m_value := v; m_root := m_root p;
     m_parentOrLeaf := m_parentOrLeaf p; state := state p |}.
Definition set_root (r : addr) (p : promise_type) :=
  {| base := base p; m_value := m_value p; m_root := r;
     m_parentOrLeaf := m_parentOrLeaf p; state := state p |}.
Definition set_parentOrLeaf (a : addr) (p : promise_type) :=
  {| base := base p; m_value := m_value p; m_root := m_root p;
     m_parentOrLeaf := a; state := state p |}.
Definition set_state (s : coroutine_state) (p : promise_type) :=
  {| base := base p; m_value := m_value p; m_root := m_root p;
     m_parentOrLeaf := m_parentOrLeaf p; state := s |}.

(** The heap the promises live in. *)
#[local] Abbreviation heap := (list promise_type).

(** Reading through a pointer: null, dangling and destroyed are undefined. *)
Definition load (a : addr) (h : heap) : res promise_type :=
  match h !! a with
  | Some p =>
      match state p with
      | destroyed => Fault undefined
      | _ => Ok p
      end
  | None => Fault undefined
  end.

(** Writing through a pointer. *)
Definition store (a : addr) (f : promise_type -> promise_type) (h : heap)
  : res heap :=
  p ← load a h; Ok (<[a := f p]> h).

(** [promise_type() noexcept] at address [this], in the frame of a coroutine
    that stands at the start of [b]. *)
Definition promise_type_new (this : addr) (b : body) : promise_type :=
  {| base := ExceptionPromise.init; m_value := None; m_root := this;
     m_parentOrLeaf := this; state := suspended b |}.

Definition initial_suspend : trivial_awaitable := suspend_always.
Definition final_suspend : trivial_awaitable := suspend_always.

(** A call of a coroutine function with body [b]: the frame is allocated at
    a fresh address and the coroutine is left suspended at its start, since
    [initial_suspend()] always suspends. *)
Definition allocate (b : body) (h : heap) : heap * addr :=
  (h ++ [promise_type_new (length h) b], length h).

(** [destroy()]. *)
Definition destroy (a : addr) (h : heap) : res heap :=
  store a (set_state destroyed) h.

(** [is_complete()]. *)
Definition complete (p : promise_type) : bool :=
  match state p with
  | at_final_suspend => true
  | _ => false
  end.

Definition is_complete (a : addr) (h : heap) : res bool :=
  p ← load a h; Ok (complete p).

(** An exception leaves the body of [this]: [unhandled_exception()], then the
    final suspend point. *)
Definition unhandled (this : addr) (e : exn) (h : heap) : res heap :=
  p ← load this h;
  b ← ExceptionPromise.unhandled_exception NoExcept e (base p);
  Ok (<[this := set_state at_final_suspend (set_base b p)]> h).

(** The body [b] of the coroutine at [this] runs until it suspends.

    [co_yield_generator child k] is [yield_value(recursive_generator&)] on a
    generator whose [m_promise] is the freshly allocated [c]: the links are
    written, the child is resumed from its start, and the parent suspends
    with [awaitable{c}] unless the child is complete already; then the
    awaitable is [awaitable{nullptr}], which is ready and whose
    [await_resume()] does nothing, the temporary generator is destroyed at
    the end of the full expression and the body goes on. *)
Fixpoint run (this : addr) (b : body) (h : heap) : res heap :=
  match b with
  | co_return => store this (set_state at_final_suspend) h
  | co_yield v k =>
      store this (fun p => set_state (suspended k) (set_value (Some v) p)) h
  | co_yield_empty k => run this k h
  | co_yield_generator child k =>
      let '(h, c) := allocate child h in
      p ← load this h;
      h ← store (m_root p) (set_parentOrLeaf c) h;
      h ← store c (set_root (m_root p)) h;
      h ← store c (set_parentOrLeaf this) h;
      h ← run c child h;
      child_complete ← is_complete c h;
      if negb child_complete then store this (set_state (awaiting_child c k)) h
      else
        p ← load this h;
        h ← store (m_root p) (set_parentOrLeaf this) h;
        h ← destroy c h;
        run this k h
  | throws e => unhandled this e h
  end.

(** [resume()].  From [awaiting_child c k] the coroutine continues in
    [awaitable::await_resume()], which calls [c->rethrow_if_exception()];
    the temporary generator that owns [c] is destroyed when the full
    expression ends or while the exception unwinds. *)
Definition resume (a : addr) (h : heap) : res heap :=
  p ← load a h;
  match state p with
  | suspended k => run a k h
  | awaiting_child c k =>
      pc ← load c h;
      let '(b, x) := ExceptionPromise.rethrow_if_exception moved_from NoExcept
                       (base pc) in
      h ← destroy c (<[c := set_base b pc]> h);
      match x with
      | Throw e => if NoExcept then Fault terminated else unhandled a e h
      | Return _ => run a k h
      end
  | at_final_suspend => Fault undefined
  | destroyed => Fault undefined
  end.

(** [value()], called on the root. *)
Definition value (this : addr) (h : heap) : res T :=
  p ← load this h;
  if negb (Nat.eqb this (m_root p)) then Fault undefined
  else if complete p then Fault undefined
  else
    leaf ← load (m_parentOrLeaf p) h;
    match m_value leaf with
    | Some v => Ok v
    | None => Fault undefined
    end.

(** The [while] loop of [pull()], at most [fuel] times round. *)
Fixpoint pull_loop (fuel : nat) (this : addr) (h : heap) : res heap :=
  p ← load this h;
  leaf_complete ← is_complete (m_parentOrLeaf p) h;
  if negb (Nat.eqb (m_parentOrLeaf p) this) && leaf_complete then
    match fuel with
    | 0 => Fault exhausted
    | S fuel' =>
        leaf ← load (m_parentOrLeaf p) h;
        h ← store this (set_parentOrLeaf (m_parentOrLeaf leaf)) h;
        h ← resume (m_parentOrLeaf leaf) h;
        pull_loop fuel' this h
    end
  else Ok h.

(** [pull()], called on the root.  Every turn of the loop leaves one
    promise of the chain for good, so the length of the heap bounds the
    turns. *)
Definition pull (this : addr) (h : heap) : res heap :=
  p ← load this h;
  if negb (Nat.eqb this (m_root p)) then Fault undefined
  else
    leaf_complete ← is_complete (m_parentOrLeaf p) h;
    if (leaf_complete : bool) then Fault undefined
    else
      h ← resume (m_parentOrLeaf p) h;
      pull_loop (length h) this h.

(** [recursive_generator<T, NoExcept>]; [None] is a null [m_promise]. *)
Record recursive_generator : Type := {
  m_promise : option addr
}.

(** [recursive_generator() noexcept]. *)
Definition recursive_generator_default : recursive_generator :=
  {| m_promise := None |}.

(** [recursive_generator(recursive_generator&& other) noexcept]. *)
Definition recursive_generator_move (other : recursive_generator)
  : recursive_generator * recursive_generator :=
  ({| m_promise := m_promise other |}, {| m_promise := None |}).

(** A call of a coroutine function with body [b] whose return type is the
    recursive generator. *)
Definition coroutine_call (b : body) (h : heap) : heap * recursive_generator :=
  let '(h, a) := allocate b h in (h, {| m_promise := Some a |}).

(** [recursive_generator::iterator]. *)
Record iterator : Type := {
  it_promise : option addr
}.

(** [end()]. *)
Definition iterator_end : iterator := {| it_promise := None |}.

(** [iterator::operator==]. *)
Definition iterator_eq (a b : iterator) : bool :=
  match it_promise a, it_promise b with
  | None, None => true
  | Some x, Some y => Nat.eqb x y
  | _, _ => false
  end.

(** [temp->rethrow_if_exception()] through a pointer. *)
Definition rethrow_if_exception (a : addr) (h : heap)
  : res (heap * except unit) :=
  p ← load a h;
  let '(b, x) := ExceptionPromise.rethrow_if_exception moved_from NoExcept
                   (base p) in
  Ok (<[a := set_base b p]> h, x).

(** [iterator::operator++() noexcept(NoExcept)]. *)
Definition iterator_increment (s : heap * iterator)
  : res ((heap * iterator) * except unit) :=
  let '(h, it) := s in
  match it_promise it with
  | None => Fault undefined
  | Some a =>
      noexcept NoExcept
        (c ← is_complete a h;
         if (c : bool) then Fault undefined
         else
           h ← pull a h;
           c ← is_complete a h;
           if (c : bool) then
             '(h, x) ← rethrow_if_exception a h;
             Ok ((h, {| it_promise := None |}), x)
           else Ok ((h, it), Return tt))
  end.

(** [iterator::operator*()]. *)
Definition iterator_deref (s : heap * iterator) : res T :=
  let '(h, it) := s in
  match it_promise it with
  | None => Fault undefined
  | Some a => value a h
  end.

(** [recursive_generator::begin() noexcept(NoExcept)]. *)
Definition begin (s : heap * recursive_generator)
  : res ((heap * recursive_generator) * except (heap * iterator)) :=
  let '(h, g) := s in
  match m_promise g with
  | Some a =>
      noexcept NoExcept
        (h ← pull a h;
         c ← is_complete a h;
         if negb c then Ok ((h, g), Return (h, {| it_promise := Some a |}))
         else
           '(h, x) ← rethrow_if_exception a h;
           match x with
           | Throw e => Ok ((h, g), Throw e)
           | Return _ => Ok ((h, g), Return (h, iterator_end))
           end)
  | None => Ok ((h, g), Return (h, iterator_end))
  end.

(** [promise_type::destroy()] on a coroutine that may be suspended at the
    [co_yield] of a nested generator: destroying the frame destroys what is
    alive in it, the temporary generator of the [co_yield] first, whose
    destructor destroys the frame of the nested coroutine in the same way;
    [fuel] bounds the depth. *)
Fixpoint destroy_frame (fuel : nat) (a : addr) (h : heap) : res heap :=
  p ← load a h;
  h ← match state p with
      | awaiting_child c _ =>
          match fuel with
          | 0 => Fault exhausted
          | S fuel' => destroy_frame fuel' c h
          end
      | _ => Ok h
      end;
  destroy a h.

(** [~recursive_generator()]. *)
Definition recursive_generator_destructor (s : heap * recursive_generator)
  : res heap :=
  let '(h, g) := s in
  match m_promise g with
  | Some a => destroy_frame (length h) a h
  | None => Ok h
  end.

(** [for (n times) { if (it == end()) break; ++it; }]: the loop stops at
    the end of the sequence and at a failure. *)
Fixpoint increments (n : nat) (s : heap * iterator)
  : res ((heap * iterator) * except unit) :=
  match n with
  | 0 => Ok (s, Return tt)
  | S n' =>
      if iterator_eq (snd s) iterator_end then Ok (s, Return tt)
      else
        r ← iterator_increment s;
        match r with
        | (s', Throw e) => Ok (s', Throw e)
        | (s', Return _) => increments n' s'
        end
  end.

(** A consumer that calls the coroutine function with body [b], takes
    [begin()], increments the iterator at most [n] times and lets the
    generator go out of scope, be it at the end of the sequence, before it,
    or while an exception of the sequence unwinds: the heap it leaves. *)
Definition consume_and_drop (n : nat) (b : body) (h : heap) : res heap :=
  r ← begin (coroutine_call b h);
  match r with
  | (s, Throw _) => recursive_generator_destructor s
  | ((_, g), Return it) =>
      '((h, _), _) ← increments n it;
      recursive_generator_destructor (h, g)
  end.

(** The range a recursive generator is: the generator, or its iterator,
    together with the heap its promises live in.  The bodies of this model
    have no effects of their own. *)
#[global] Instance recursive_generator_range
  : Range (heap * recursive_generator) (heap * iterator) T := {
  range_begin s := ([], begin s);
  range_at_end s := iterator_eq (snd s) iterator_end;
  range_deref := iterator_deref;
  range_incr s := ([], iterator_increment s)
}.

End recursive_generator.

Arguments body : clear implicits.
Arguments promise_type : clear implicits.

Abbreviation heap T := (list (promise_type T)).

(** *** What a body produces, and the shape of the heap between pulls *)

Section flattening.

Context {T : Type}.

Variable NoExcept : bool.

(** The elements of a body with those of its nested generators spliced in
    at the point of the [co_yield]. *)
Fixpoint flatten (b : body T) : list T :=
  match b with
  | co_return => []
  | co_yield v k => v :: flatten k
  | co_yield_empty k => flatten k
  | co_yield_generator child k => flatten child ++ flatten k
  | throws _ => []
  end.

(** No [throw] anywhere in the body or in the bodies nested in it. *)
Fixpoint nothrow (b : body T) : bool :=
  match b with
  | co_return => true
  | co_yield _ k => nothrow k
  | co_yield_empty k => nothrow k
  | co_yield_generator child k => nothrow child && nothrow k
  | throws _ => false
  end.

(** A body that a no-fail generator can run without terminating the
    program: one that does not throw. *)
Definition admissible (b : body T) : Prop :=
  NoExcept = true -> nothrow b = true.

(** What a consumer gets: elements, then the end or a failure. *)
Definition production : Type := list T * option exn.

(** One production after the other: a failure ends the sequence. *)
Definition and_next (first next : production) : production :=
  match first with
  | (vs, None) => (vs ++ fst next, snd next)
  | (vs, Some e) => (vs, Some e)
  end.

(** What the code gives the consumer of a body.  A nested generator that
    ends before it produced anything is complete when [yield_value] has
    resumed it: the body goes on, whether the nested body returned or
    threw.  One that produced something suspended the yielding body: when
    it ends, a failure captured in it is thrown in the yielding body. *)
Fixpoint produce (b : body T) : production :=
  match b with
  | co_return => ([], None)
  | co_yield v k => and_next ([v], None) (produce k)
  | co_yield_empty k => produce k
  | co_yield_generator child k =>
      match produce child with
      | ([], _) => produce k
      | some => and_next some (produce k)
      end
  | throws e => ([], Some e)
  end.

(** What a chain of suspended bodies has left to produce, leaf first. *)
Definition produce_stack (ks : list (body T)) : production :=
  foldr (fun k rest => and_next (produce k) rest) ([], None) ks.

Definition ending_of (x : option exn) : ending :=
  match x with
  | None => finished
  | Some e => raised e
  end.

(** No failure is captured in the promise. *)
Definition quiet (p : promise_type T) : Prop :=
  ExceptionPromise.m_exception (base p) = None.

Definition live (p : promise_type T) : Prop := state p <> destroyed.

(** [h'] keeps of the promises below [n] in [h] everything but the state
    and the captured failure of [a], and the [m_parentOrLeaf] of [r]. *)
Definition keeps (n : nat) (a r : addr) (h h' : heap T) : Prop :=
  forall x p, x < n -> h !! x = Some p ->
    exists p', h' !! x = Some p' /\ m_root p' = m_root p
      /\ (x <> a -> state p' = state p /\ base p' = base p)
      /\ (x <> r -> m_parentOrLeaf p' = m_parentOrLeaf p).

(** [chain h r top c ks]: following [m_parentOrLeaf] from [c] leads to [top]
    through the promises of [ks], each suspended in the awaitable of a
    [co_yield] of the generator below it, with the rest of its body. *)
Inductive chain (h : heap T) (r top : addr) : addr -> list (addr * body T) -> Prop :=
| chain_top : chain h r top top []
| chain_link c p k ks pc pp :
    c <> r ->
    h !! c = Some pc -> m_parentOrLeaf pc = p ->
    h !! p = Some pp -> state pp = awaiting_child c k -> m_root pp = r -> quiet pp ->
    chain h r top p ks ->
    chain h r top c ((p, k) :: ks).

(** The body of [a] came to its end with [x] captured, the root pointing
    to [a]. *)
Definition completes (h' : heap T) (r a : addr) (x : option exn) : Prop :=
  exists pa' pr',
    h' !! a = Some pa' /\ state pa' = at_final_suspend
    /\ ExceptionPromise.m_exception (base pa') = x
    /\ h' !! r = Some pr' /\ m_parentOrLeaf pr' = a.

(** The body of [a] ran to a [co_yield] of [v], in [a] or in a generator
    nested below it and allocated at [n0] or above; [rest] is what the
    promises from the new leaf up to [a] have left to produce. *)
Definition yields_next (h' : heap T) (n0 : nat) (r a : addr) (v : T)
  (rest : production) : Prop :=
  exists L kL seg pL pr',
    h' !! L = Some pL /\ state pL = suspended kL /\ m_value pL = Some v
    /\ m_root pL = r /\ quiet pL
    /\ h' !! r = Some pr' /\ m_parentOrLeaf pr' = L
    /\ chain h' r a L seg
    /\ Forall (fun x => x = a \/ n0 <= x) (L :: seg.*1)
    /\ NoDup (L :: seg.*1)
    /\ admissible kL /\ Forall admissible seg.*2
    /\ produce_stack (kL :: seg.*2) = rest.

(** What [run a b h] leaves behind. *)
Definition run_post (h h' : heap T) (r a : addr) (b : body T) : Prop :=
  length h <= length h' /\ keeps (length h) a r h h'
  /\ match produce b with
     | ([], x) => completes h' r a x
     | (v :: vs, x) => yields_next h' (length h) r a v (vs, x)
     end.

(** Between two pulls: the leaf [L] is suspended at [kL] with [ov] in its
    [m_value], the root points to it, and its ancestors are [ks]. *)
Definition at_rest (h : heap T) (r L : addr) (kL : body T)
  (ks : list (addr * body T)) (ov : option T) : Prop :=
  exists pL pr,
    h !! L = Some pL /\ state pL = suspended kL /\ m_value pL = ov
    /\ m_root pL = r /\ quiet pL
    /\ h !! r = Some pr /\ m_root pr = r /\ m_parentOrLeaf pr = L
    /\ chain h r r L ks /\ NoDup (L :: ks.*1)
    /\ admissible kL /\ Forall admissible ks.*2.

(** The root came to its end with [x] captured. *)
Definition root_complete (h : heap T) (r : addr) (x : option exn) : Prop :=
  exists pr, h !! r = Some pr /\ state pr = at_final_suspend
             /\ ExceptionPromise.m_exception (base pr) = x
             /\ (NoExcept = true -> x = None).

(** After a pull with [l] left to produce: the next element is the value
    of the leaf, or the root is complete. *)
Definition pulled (h' : heap T) (r : addr) (l : production) : Prop :=
  match l with
  | ([], x) => root_complete h' r x
  | (v :: vs, x) =>
      exists L kL ks, at_rest h' r L kL ks (Some v)
        /\ produce_stack (kL :: ks.*2) = (vs, x)
  end.

End flattening.

(** *** Who owns a frame *)

Section ownership.

Context {T : Type}.

(** The coroutine at [y] is suspended at the [co_yield] of the nested
    generator whose promise is [c]. *)
Definition awaits (h : heap T) (y c : addr) : Prop :=
  exists py k, h !! y = Some py /\ state py = awaiting_child c k.

Definition alive (h : heap T) (x : addr) : Prop :=
  exists p, h !! x = Some p /\ live p.

(** The promise at [c] is alive and its [m_parentOrLeaf] is [y]. *)
Definition child_of (h : heap T) (c y : addr) : Prop :=
  exists pc, h !! c = Some pc /\ live pc /\ m_parentOrLeaf pc = y.

(** Between two operations of the consumer of the generator rooted at [r]:
    every promise from [r] on that is not destroyed has [r] as its root; a
    promise other than the root has as [m_parentOrLeaf] an older promise,
    which is suspended at the [co_yield] of this very generator; a promise
    suspended at the [co_yield] of a generator finds it alive, with itself
    as the [m_parentOrLeaf]; and the root is alive, its [m_parentOrLeaf] in
    the family. *)
Definition owned (h : heap T) (r : addr) : Prop :=
  (forall x p, r <= x -> h !! x = Some p -> live p -> m_root p = r)
  /\ (forall x p, r < x -> h !! x = Some p -> live p ->
        r <= m_parentOrLeaf p < x /\ awaits h (m_parentOrLeaf p) x)
  /\ (forall y c, r <= y -> awaits h y c -> y < c /\ child_of h c y)
  /\ (exists pr, h !! r = Some pr /\ live pr /\ r <= m_parentOrLeaf pr).

(** What a run of the body of [a], in the family of the root [r], does to
    the heap [h]: the promises of [h] are kept but for the state of [a] and
    the [m_parentOrLeaf] of [r]; [a] is alive; the [m_parentOrLeaf] of the
    root stays in the family; every new promise that is alive belongs to
    the family and has as [m_parentOrLeaf] the promise that is suspended
    at its [co_yield], [a] or a new one; and what [a] and the new promises
    are suspended at is new, alive and theirs. *)
Definition run_effect (a r : addr) (h h' : heap T) : Prop :=
  length h <= length h'
  /\ keeps (length h) a r h h'
  /\ alive h' a
  /\ (forall pr, h !! r = Some pr -> r <= m_parentOrLeaf pr ->
        exists pr', h' !! r = Some pr' /\ r <= m_parentOrLeaf pr')
  /\ (forall x p, length h <= x -> h' !! x = Some p -> live p ->
        m_root p = r
        /\ (m_parentOrLeaf p = a \/ length h <= m_parentOrLeaf p)
        /\ m_parentOrLeaf p < x /\ awaits h' (m_parentOrLeaf p) x)
  /\ (forall y c, y = a \/ length h <= y -> awaits h' y c ->
        y < c /\ length h <= c /\ child_of h' c y).

(** Where an operation of the consumer leaves the generator rooted at [r]:
    the family in shape, and either the iterator at an element, the chain
    at rest, or the iterator at the end. *)
Definition parked (NoExcept : bool) (h : heap T) (r : addr) (it : iterator)
  : Prop :=
  owned h r
  /\ ((it = {| it_promise := Some r |}
       /\ exists L kL ks v, at_rest NoExcept h r L kL ks (Some v))
      \/ it = iterator_end).

(** Every frame from [n] on is destroyed. *)
Definition all_destroyed_from (n : nat) (h : heap T) : Prop :=
  forall x p, n <= x -> h !! x = Some p -> state p = destroyed.

End ownership.

(** [fmap(FUNC func, recursive_generator<T, NoExcept> source)]: a coroutine
    function returning the plain [generator<U>]. *)
Definition fmap {T U : Type} (moved_from : exception_ptr -> exception_ptr)
  (NoExcept : bool) (func : T -> U) (source : heap T * recursive_generator)
  : list effect *
    res (Generator.generator U
              (Generator.fmap_state (heap T * recursive_generator) (heap T * iterator))) :=
  Generator.coroutine_call false
    (Generator.fmap_body (Range0 := recursive_generator_range moved_from NoExcept) func)
    (Generator.fmap_start source).

End RecursiveGenerator.

(** ** task.hpp *)

Module Task.

(** A [std::experimental::coroutine_handle<>] of an awaiting coroutine is
    modelled by the identity of that coroutine; resuming it is recorded. *)
Definition continuation : Type := nat.

(** *** task_promise_base

    The members of the build without symmetric transfer; with symmetric
    transfer [m_state] does not exist and is never read. *)
Record task_promise_base : Type := {
  m_continuation : option continuation;
  m_state : bool
}.

(** [task_promise_base() noexcept : m_state(false)]. *)
Definition task_promise_base_new : task_promise_base :=
  {| m_continuation := None; m_state := false |}.

(** [m_state.exchange(desired, std::memory_order_acq_rel)]: the promise
    afterwards and the value read. *)
Definition exchange (desired : bool) (p : task_promise_base)
  : task_promise_base * bool :=
  ({| m_continuation := m_continuation p; m_state := desired |}, m_state p).

(** [m_continuation = continuation;] *)
Definition store_continuation (c : continuation) (p : task_promise_base)
  : task_promise_base :=
  {| m_continuation := Some c; m_state := m_state p |}.

(** [m_continuation.resume()]: the handles resumed. *)
Definition resume_continuation (p : task_promise_base) : res (list continuation) :=
  match m_continuation p with
  | Some c => Ok [c]
  | None => Fault undefined
  end.

(** [final_awaitable::await_suspend], without symmetric transfer: the promise
    afterwards and the handles it resumed. *)
Definition final_await_suspend (p : task_promise_base)
  : res (task_promise_base * list continuation) :=
  let '(p, previous) := exchange true p in
  if previous then resumed ← resume_continuation p; Ok (p, resumed)
  else Ok (p, []).

(** [final_awaitable::await_suspend], with symmetric transfer: the handle it
    returns is resumed by the caller. *)
Definition final_await_suspend_symmetric (p : task_promise_base)
  : res (task_promise_base * list continuation) :=
  resumed ← resume_continuation p; Ok (p, resumed).

(** [set_continuation]. *)
Definition set_continuation (c : continuation) (p : task_promise_base)
  : task_promise_base :=
  store_continuation c p.

(** [try_set_continuation]. *)
Definition try_set_continuation (c : continuation) (p : task_promise_base)
  : task_promise_base * bool :=
  let p := store_continuation c p in
  let '(p, previous) := exchange true p in
  (p, negb previous).

(** *** The specializations of task_promise

    What [task] uses of its promise type, besides the base: the constructor,
    [return_value] or [return_void], [unhandled_exception] and [result].
    [result] returns the promise too: one specialization changes it. *)
Class TaskPromise (P V : Type) : Type := {
  NoExcept : bool;
  promise_new : P;
  promise_return : V -> P -> P;
  promise_unhandled_exception : exn -> P -> res P;
  promise_result : P -> res (P * except V)
}.


(** [task_promise<T, false>]. *)
Module Fallible.

Section task_promise.

Context {T : Type}.

Inductive result_type : Type :=
| rt_empty
| rt_value
| rt_exception.

(** The anonymous union: which member is alive. *)
Inductive storage : Type :=
| no_member
| member_value (m_value : T)
| member_exception (m_exception : exception_ptr).

Record task_promise : Type := {
  m_resultType : result_type;
  m_union : storage
}.

Definition task_promise_new : task_promise :=
  {| m_resultType := rt_empty; m_union := no_member |}.

Definition unhandled_exception (current : exn) (p : task_promise) : res task_promise :=
  Ok {| m_resultType := rt_exception; m_union := member_exception (Some current) |}.

Definition return_value (value : T) (p : task_promise) : task_promise :=
  {| m_resultType := rt_value; m_union := member_value value |}.

(** [result() &] and [result() &&]: [std::rethrow_exception(m_exception)]
    copies the pointer; [assert(m_resultType == result_type::value)]. *)
Definition result (p : task_promise) : res (task_promise * except T) :=
  match m_resultType p with
  | rt_exception =>
      match m_union p with
      | member_exception (Some e) => Ok (p, Throw e)
      | _ => Fault undefined
      end
  | rt_value =>
      match m_union p with
      | member_value v => Ok (p, Return v)
      | _ => Fault undefined
      end
  | rt_empty => Fault undefined
  end.

#[global] Instance task_promise_ops : TaskPromise task_promise T := {
  NoExcept := false;
  promise_new := task_promise_new;
  promise_return := return_value;
  promise_unhandled_exception := unhandled_exception;
  promise_result := result
}.

End task_promise.

Arguments task_promise : clear implicits.

End Fallible.

(** [task_promise<T, true>]. *)
Module NoFail.

Section task_promise.

Context {T : Type}.

(** The union holds [m_value] once [m_hasValue] is set. *)
Record task_promise : Type := {
  m_value : option T;
  m_hasValue : bool
}.

Definition task_promise_new : task_promise :=
  {| m_value := None; m_hasValue := false |}.

Definition unhandled_exception (current : exn) (p : task_promise) : res task_promise :=
  Fault terminated.

Definition return_value (value : T) (p : task_promise) : task_promise :=
  {| m_value := Some value; m_hasValue := true |}.

(** [assert(m_hasValue); return m_value;] *)
Definition result (p : task_promise) : res (task_promise * except T) :=
  if m_hasValue p then
    match m_value p with
    | Some v => Ok (p, Return v)
    | None => Fault undefined
    end
  else Fault undefined.

#[global] Instance task_promise_ops : TaskPromise task_promise T := {
  NoExcept := true;
  promise_new := task_promise_new;
  promise_return := return_value;
  promise_unhandled_exception := unhandled_exception;
  promise_result := result
}.

End task_promise.

Arguments task_promise : clear implicits.

End NoFail.

(** [task_promise<void, NoExcept>]: an [exception_promise<NoExcept,
    task_promise_base>] and nothing more. *)
Module Void.

Section task_promise.

Variable moved_from : exception_ptr -> exception_ptr.
Variable NoExcept : bool.

Definition task_promise : Type := ExceptionPromise.exception_promise.

Definition return_void (p : task_promise) : task_promise := p.

(** [result()]: [this->rethrow_if_exception()]. *)
Definition result (p : task_promise) : res (task_promise * except unit) :=
  Ok (ExceptionPromise.rethrow_if_exception moved_from NoExcept p).

Definition task_promise_ops : TaskPromise task_promise unit := {|
  Task.NoExcept := NoExcept;
  promise_new := ExceptionPromise.init;
  promise_return := fun _ => return_void;
  promise_unhandled_exception := ExceptionPromise.unhandled_exception NoExcept;
  promise_result := result
|}.

End task_promise.

End Void.

(** [task_promise<T&, NoExcept>]: an [exception_promise] and a pointer to
    the referent, [None] while null. *)
Module Ref.

Section task_promise.

Variable moved_from : exception_ptr -> exception_ptr.
Variable NoExcept : bool.
Context {T : Type}.

Record task_promise : Type := {
  base : ExceptionPromise.exception_promise;
  m_value : option T
}.

Definition task_promise_new : task_promise :=
  {| base := ExceptionPromise.init; m_value := None |}.

Definition unhandled_exception (current : exn) (p : task_promise) : res task_promise :=
  b ← ExceptionPromise.unhandled_exception NoExcept current (base p);
  Ok {| base := b; m_value := m_value p |}.

Definition return_value (value : T) (p : task_promise) : task_promise :=
  {| base := base p; m_value := Some value |}.

(** [result()]: [this->rethrow_if_exception(); return *m_value;] *)
Definition result (p : task_promise) : res (task_promise * except T) :=
  let '(b, x) := ExceptionPromise.rethrow_if_exception moved_from NoExcept (base p) in
  let p' := {| base := b; m_value := m_value p |} in
  match x with
  | Throw e => Ok (p', Throw e)
  | Return _ =>
      match m_value p with
      | Some v => Ok (p', Return v)
      | None => Fault undefined
      end
  end.

Definition task_promise_ops : TaskPromise task_promise T := {|
  Task.NoExcept := NoExcept;
  promise_new := task_promise_new;
  promise_return := return_value;
  promise_unhandled_exception := unhandled_exception;
  promise_result := result
|}.

End task_promise.

Arguments task_promise : clear implicits.

End Ref.

(** *** The specialization a task gets *)


(** The partial specializations of [task_promise]; the primary template is
    declared and has no definition. *)
Inductive partial_specialization : Type :=
| promise_T_false      (* task_promise<T, false> *)
| promise_T_true       (* task_promise<T, true> *)
| promise_void         (* task_promise<void, NoExcept> *)
| promise_reference.   (* task_promise<T&, NoExcept> *)

#[global] Instance partial_specialization_eq_dec : EqDecision partial_specialization.
Proof. solve_decision. Defined.







(** *** task *)

Section task.

(** [CPPCORO_COMPILER_SUPPORTS_SYMMETRIC_TRANSFER], from [config.hpp]. *)
Variable SYMMETRIC_TRANSFER : bool.

(** [P] is [task<V, NoExcept>::promise_type] without its base; [St] is what
    the body keeps across a suspension. *)
Context {P V St : Type} `{!TaskPromise P V}.

(** How the body comes back when it is run from a suspension point:
    suspended in a [co_await] of its own, at [co_return], with an exception
    leaving it, or not at all. *)
Inductive body_step : Type :=
| co_await_suspended (s : St)
| co_return (v : V)
| throws (e : exn)
| crashes (f : fault).

Variable body : St -> list effect * body_step.

Inductive coroutine_state : Type :=
| suspended (s : St)
| at_final_suspend.

(** The coroutine frame: the promise, base and rest, and where the body
    stands. *)
Record coroutine_frame : Type := {
  promise_base : task_promise_base;
  promise : P;
  state : coroutine_state
}.

Definition done (f : coroutine_frame) : bool :=
  match state f with
  | at_final_suspend => true
  | suspended _ => false
  end.

Definition initial_suspend : trivial_awaitable := suspend_always.

(** [co_await final_suspend()]: [final_awaitable::await_ready()] is false,
    so [await_suspend] runs, with the coroutine at its final suspend point. *)
Definition final_suspend (b : task_promise_base) (p : P)
  : res (coroutine_frame * list continuation) :=
  '(b, resumed) ← (if SYMMETRIC_TRANSFER then final_await_suspend_symmetric b
                    else final_await_suspend b);
  Ok ({| promise_base := b; promise := p; state := at_final_suspend |}, resumed).

(** [coroutine_handle::resume()]: the frame afterwards and the
    continuations resumed on the way. *)
Definition resume (f : coroutine_frame)
  : list effect * res (coroutine_frame * list continuation) :=
  match state f with
  | at_final_suspend => ([], Fault undefined)
  | suspended s =>
      let '(effs, r) := body s in
      (effs,
       match r with
       | co_await_suspended s' =>
           Ok ({| promise_base := promise_base f; promise := promise f;
                  state := suspended s' |}, [])
       | co_return v => final_suspend (promise_base f) (promise_return v (promise f))
       | throws e =>
           p ← promise_unhandled_exception e (promise f);
           final_suspend (promise_base f) p
       | crashes x => Fault x
       end)
  end.

(** [task<V, NoExcept>]; [None] is the null handle. *)
Record task : Type := {
  m_coroutine : option coroutine_frame
}.

(** [task() noexcept]. *)
Definition task_default : task := {| m_coroutine := None |}.

(** [task(task&& t) noexcept]: the new task and what is left of [t]. *)
Definition task_move (t : task) : task * task :=
  ({| m_coroutine := m_coroutine t |}, {| m_coroutine := None |}).

(** A call of a coroutine function whose return type is the task. *)
Definition coroutine_call (s0 : St) : list effect * res task :=
  let f := {| promise_base := task_promise_base_new; promise := promise_new;
              state := suspended s0 |} in
  if await_ready initial_suspend then
    let '(effs, r) := resume f in
    (effs, '(f', _) ← r; Ok {| m_coroutine := Some f' |})
  else ([], Ok {| m_coroutine := Some f |}).

(** [is_ready()]. *)
Definition is_ready (t : task) : bool :=
  match m_coroutine t with
  | None => true
  | Some f => done f
  end.

(** [awaitable_base] and the three awaitables derived from it. *)
Record awaitable_base : Type := {
  aw_coroutine : option coroutine_frame
}.

(** [operator co_await() const &], [operator co_await() const &&] and
    [when_ready()] all return [awaitable{ m_coroutine }]. *)
Definition operator_co_await (t : task) : awaitable_base :=
  {| aw_coroutine := m_coroutine t |}.
Definition when_ready (t : task) : awaitable_base :=
  {| aw_coroutine := m_coroutine t |}.

(** [awaitable_base::await_ready()]. *)
Definition awaitable_await_ready (a : awaitable_base) : bool :=
  match aw_coroutine a with
  | None => true
  | Some f => done f
  end.

(** [awaitable_base::await_suspend(awaitingCoroutine)]: the frame afterwards,
    the continuations resumed on the way, and whether the awaiting coroutine
    stays suspended.  With symmetric transfer the handle returned is
    [m_coroutine], which the caller resumes. *)
Definition awaitable_await_suspend (awaitingCoroutine : continuation)
  (f : coroutine_frame)
  : list effect * res (coroutine_frame * list continuation * bool) :=
  if SYMMETRIC_TRANSFER then
    let f := {| promise_base := set_continuation awaitingCoroutine (promise_base f);
                promise := promise f; state := state f |} in
    let '(effs, r) := resume f in
    (effs, '(f, resumed) ← r; Ok (f, resumed, true))
  else
    let '(effs, r) := resume f in
    (effs,
     '(f, resumed) ← r;
     let '(b, registered) := try_set_continuation awaitingCoroutine (promise_base f) in
     Ok ({| promise_base := b; promise := promise f; state := state f |},
         resumed, registered)).

(** [awaitable::await_resume() noexcept(NoExcept)] of [operator co_await]. *)
Definition awaitable_await_resume (a : awaitable_base)
  : res (awaitable_base * except V) :=
  noexcept NoExcept
    match aw_coroutine a with
    | None => Ok (a, Throw broken_promise)
    | Some f =>
        '(p, x) ← promise_result (promise f);
        Ok ({| aw_coroutine := Some {| promise_base := promise_base f;
                                       promise := p; state := state f |} |}, x)
    end.

(** [awaitable::await_resume() const noexcept] of [when_ready()]. *)
Definition when_ready_await_resume (a : awaitable_base)
  : res (awaitable_base * except unit) :=
  Ok (a, Return tt).

(** How a [co_await] expression stands when control comes back to the
    caller of the awaiting coroutine. *)
Inductive awaited : Type :=
| still_suspended
| completed (r : except V).

(** [co_await a] in the coroutine [awaitingCoroutine]: [await_ready], then
    [await_suspend] unless ready, then [await_resume] once the awaiting
    coroutine runs again: at once when [await_suspend] returned false or the
    task resumed it on completing. *)
Definition co_await (awaitingCoroutine : continuation) (a : awaitable_base)
  : list effect * res (awaitable_base * list continuation * awaited) :=
  if awaitable_await_ready a then
    ([], '(a, x) ← awaitable_await_resume a; Ok (a, [], completed x))
  else
    match aw_coroutine a with
    | None => ([], Fault undefined)
    | Some f =>
        let '(effs, r) := awaitable_await_suspend awaitingCoroutine f in
        (effs,
         '(f, resumed, stays) ← r;
         let a := {| aw_coroutine := Some f |} in
         if negb stays || bool_decide (awaitingCoroutine ∈ resumed) then
           '(a, x) ← awaitable_await_resume a; Ok (a, resumed, completed x)
         else Ok (a, resumed, still_suspended))
    end.

(** [co_await t.when_ready()] in the coroutine [awaitingCoroutine]: the
    same [await_ready] and [await_suspend], then the [await_resume] of
    [when_ready()], which does not look at the result; [None] while the
    awaiting coroutine stays suspended. *)
Definition co_await_when_ready (awaitingCoroutine : continuation)
  (a : awaitable_base)
  : list effect * res (awaitable_base * list continuation * option (except unit)) :=
  if awaitable_await_ready a then
    ([], '(a, x) ← when_ready_await_resume a; Ok (a, [], Some x))
  else
    match aw_coroutine a with
    | None => ([], Fault undefined)
    | Some f =>
        let '(effs, r) := awaitable_await_suspend awaitingCoroutine f in
        (effs,
         '(f, resumed, stays) ← r;
         let a := {| aw_coroutine := Some f |} in
         if negb stays || bool_decide (awaitingCoroutine ∈ resumed) then
           '(a, x) ← when_ready_await_resume a; Ok (a, resumed, Some x)
         else Ok (a, resumed, None))
    end.

(** The continuation [awaitingCoroutine] is registered in the promise of
    [f]: [m_continuation] holds it and, without symmetric transfer,
    [m_state] has been set by [try_set_continuation]. *)
Definition registered (awaitingCoroutine : continuation) (f : coroutine_frame)
  : Prop :=
  m_continuation (promise_base f) = Some awaitingCoroutine
  /\ (SYMMETRIC_TRANSFER = false -> m_state (promise_base f) = true).

End task.

Arguments body_step : clear implicits.
Arguments coroutine_frame : clear implicits.
Arguments task : clear implicits.
Arguments awaitable_base : clear implicits.

(** *** The race between completion and registration

    Without symmetric transfer the awaiting thread runs
    [awaitable_base::await_suspend]: it resumes the task, then stores the
    continuation and exchanges [m_state].  The task may complete on another
    thread at any time after it was resumed: its
    [final_awaitable::await_suspend] exchanges [m_state] and, if it read
    true, resumes the continuation.  The steps of the two threads on the
    shared promise interleave in any order. *)
Section race.

Variable awaitingCoroutine : continuation.

(** Where the awaiting thread stands in [await_suspend]. *)
Inductive consumer_pc : Type :=
| before_resume
| before_store
| before_exchange
| returned (suspend : bool).

(** Where the task stands: not started, running its body, after the
    exchange of [final_awaitable::await_suspend] with the value read,
    suspended at its final suspend point. *)
Inductive producer_pc : Type :=
| not_started
| running
| exchanged (previous : bool)
| completed_pc.

Record configuration : Type := {
  shared : task_promise_base;
  consumer : consumer_pc;
  producer : producer_pc;
  resumed : list continuation
}.

Definition initial : configuration :=
  {| shared := task_promise_base_new; consumer := before_resume;
     producer := not_started; resumed := [] |}.

Inductive step : configuration -> configuration -> Prop :=
| consumer_resumes_task b rs :
    (* m_coroutine.resume(); *)
    step {| shared := b; consumer := before_resume; producer := not_started; resumed := rs |}
         {| shared := b; consumer := before_store; producer := running; resumed := rs |}
| consumer_stores b p rs :
    (* m_continuation = continuation; *)
    step {| shared := b; consumer := before_store; producer := p; resumed := rs |}
         {| shared := store_continuation awaitingCoroutine b;
            consumer := before_exchange; producer := p; resumed := rs |}
| consumer_exchanges b p rs :
    (* return !m_state.exchange(true); false resumes the awaiting coroutine *)
    step {| shared := b; consumer := before_exchange; producer := p; resumed := rs |}
         {| shared := fst (exchange true b);
            consumer := returned (negb (snd (exchange true b)));
            producer := p;
            resumed := if snd (exchange true b) then rs ++ [awaitingCoroutine] else rs |}
| producer_exchanges b c rs :
    (* if (promise.m_state.exchange(true)) *)
    step {| shared := b; consumer := c; producer := running; resumed := rs |}
         {| shared := fst (exchange true b); consumer := c;
            producer := exchanged (snd (exchange true b)); resumed := rs |}
| producer_resumes_continuation b c rs cont :
    (* promise.m_continuation.resume(); *)
    m_continuation b = Some cont ->
    step {| shared := b; consumer := c; producer := exchanged true; resumed := rs |}
         {| shared := b; consumer := c; producer := completed_pc; resumed := rs ++ [cont] |}
| producer_suspends b c rs :
    step {| shared := b; consumer := c; producer := exchanged false; resumed := rs |}
         {| shared := b; consumer := c; producer := completed_pc; resumed := rs |}.

(** Both threads are through. *)
Definition final (s : configuration) : Prop :=
  (exists suspend, consumer s = returned suspend) /\ producer s = completed_pc.

(** The configurations an execution passes through. *)
Definition reachable (s : configuration) : Prop := rtc step initial s.

(** What holds of the shared promise and of the resumptions so far, by
    where the two threads stand. *)
Definition race_invariant (s : configuration) : Prop :=
  let b := shared s in
  match consumer s, producer s with
  | before_resume, not_started =>
      b = task_promise_base_new /\ resumed s = []
  | before_store, running =>
      m_state b = false /\ resumed s = []
  | before_store, (exchanged false | completed_pc) =>
      m_state b = true /\ resumed s = []
  | before_exchange, running =>
      m_state b = false /\ m_continuation b = Some awaitingCoroutine /\ resumed s = []
  | before_exchange, (exchanged false | completed_pc) =>
      m_state b = true /\ m_continuation b = Some awaitingCoroutine /\ resumed s = []
  | returned true, (running | exchanged true) =>
      m_state b = true /\ m_continuation b = Some awaitingCoroutine /\ resumed s = []
  | returned true, completed_pc => resumed s = [awaitingCoroutine]
  | returned false, (exchanged false | completed_pc) =>
      m_state b = true /\ resumed s = [awaitingCoroutine]
  | _, _ => False
  end.

(** The end of an execution in which the continuation was registered
    before the task completed. *)
Definition consumer_first : configuration :=
  {| shared := {| m_continuation := Some awaitingCoroutine; m_state := true |};
     consumer := returned true; producer := completed_pc;
     resumed := [awaitingCoroutine] |}.

(** The end of an execution in which the task completed before the
    continuation was registered. *)
Definition producer_first : configuration :=
  {| shared := {| m_continuation := Some awaitingCoroutine; m_state := true |};
     consumer := returned false; producer := completed_pc;
     resumed := [awaitingCoroutine] |}.

End race.

End Task.

(** ** Bodies for the examples *)

Module Examples.

(** A generator body given as a list of statements: [co_yield v], an effect,
    [throw e]; the body returns at the end of the list. *)
Inductive statement (T : Type) : Type :=
| yields (v : T)
| does (x : effect)
| fails (e : exn).
Arguments yields {T} v.
Arguments does {T} x.
Arguments fails {T} e.

Fixpoint script {T : Type} (s : list (statement T))
  : list effect * Generator.body_step T (list (statement T)) :=
  match s with
  | [] => ([], Generator.co_return)
  | yields v :: k => ([], Generator.co_yield v k)
  | does x :: k => let '(effs, r) := script k in (x :: effs, r)
  | fails e :: _ => ([], Generator.throws e)
  end.

(** A task body: effects, [co_await]s that suspend it, [throw e]; at the end
    of the list [co_return v]. *)
Inductive task_statement : Type :=
| task_does (x : effect)
| task_awaits
| task_fails (e : exn).

Fixpoint task_script {V : Type} (v : V) (s : list task_statement)
  : list effect * Task.body_step V (list task_statement) :=
  match s with
  | [] => ([], Task.co_return v)
  | task_does x :: k => let '(effs, r) := task_script v k in (x :: effs, r)
  | task_awaits :: k => ([], Task.co_await_suspended k)
  | task_fails e :: _ => ([], Task.throws e)
  end.

(** A recursive generator body that yields the elements of a list. *)
Definition elements {T : Type} (l : list T) : RecursiveGenerator.body T :=
  foldr RecursiveGenerator.co_yield RecursiveGenerator.co_return l.

(** [co_yield 1; co_yield elements({2, 3}); co_yield 4;] *)
Definition one_nested_four : RecursiveGenerator.body nat :=
  RecursiveGenerator.co_yield 1
    (RecursiveGenerator.co_yield_generator (elements [2; 3])
       (RecursiveGenerator.co_yield 4 RecursiveGenerator.co_return)).

(** [co_yield 1; co_yield failing(); co_yield 2;] where the body of
    [failing] throws before its first [co_yield]. *)
Definition nested_fails_at_once : RecursiveGenerator.body nat :=
  RecursiveGenerator.co_yield 1
    (RecursiveGenerator.co_yield_generator
       (RecursiveGenerator.throws (user_error 7))
       (RecursiveGenerator.co_yield 2 RecursiveGenerator.co_return)).

(** Three levels: the innermost body yields 3 and throws. *)
Definition fails_at_depth_three : RecursiveGenerator.body nat :=
  RecursiveGenerator.co_yield 1
    (RecursiveGenerator.co_yield_generator
       (RecursiveGenerator.co_yield 2
          (RecursiveGenerator.co_yield_generator
             (RecursiveGenerator.co_yield 3
                (RecursiveGenerator.throws (user_error 7)))
             (RecursiveGenerator.co_yield 5 RecursiveGenerator.co_return)))
       (RecursiveGenerator.co_yield 6 RecursiveGenerator.co_return)).

(** What a loop over the generator with body [script s] is to observe:
    the values of the [co_yield]s and the effects, in order, up to the end
    of the body or to its first [throw], which a fallible generator hands to
    the consumer and on which a no-fail generator ends the program. *)
Fixpoint script_observation {T : Type} (NoExcept : bool) (s : list (statement T))
  : observation T :=
  match s with
  | [] => observe [] finished
  | yields v :: k => and_then [v] [] (script_observation NoExcept k)
  | does x :: k => and_then [] [x] (script_observation NoExcept k)
  | fails e :: _ =>
      observe [] (if NoExcept then crashed terminated else raised e)
  end.

End Examples.

(** * Theorems *)

(** ** The exception-capture mix-in *)

(** C4 (as amended).  [rethrow_if_exception()] of a fallible promise does
    nothing when no failure was captured.  When a failure was captured it
    re-raises it and moves it out of the promise: the member is left in the
    moved-from state, so a repeated call re-raises exactly what the
    moved-from pointer still holds, and does nothing where the move nulls
    its source.  In a no-fail promise the call does nothing. *)
Theorem rethrow_if_exception_moves_the_failure_out
  (moved_from : exception_ptr -> exception_ptr) (e : exn) :
  let captured := {| ExceptionPromise.m_exception := Some e |} in
  let after := {| ExceptionPromise.m_exception := moved_from (Some e) |} in
  ExceptionPromise.rethrow_if_exception moved_from false ExceptionPromise.init
    = (ExceptionPromise.init, Return tt)
  /\ ExceptionPromise.rethrow_if_exception moved_from false captured
    = (after, Throw e)
  /\ snd (ExceptionPromise.rethrow_if_exception moved_from false after)
    = match moved_from (Some e) with
      | Some e' => Throw e'
      | None => Return tt
      end
  /\ ExceptionPromise.rethrow_if_exception moved_from true captured
    = (captured, Return tt).
Proof.
  cbn. repeat split.
  unfold ExceptionPromise.rethrow_if_exception. cbn.
  by destruct (moved_from (Some e)).
Qed.

(** C4, the claim as stated fails: with a move constructor that nulls its
    source, the first call after a captured failure re-raises it and the
    second call returns normally. *)
Lemma rethrow_if_exception_second_call_is_silent :
  let captured := {| ExceptionPromise.m_exception := Some (user_error 1) |} in
  let first := ExceptionPromise.rethrow_if_exception
                 ExceptionPromise.moved_from_null false captured in
  let second := ExceptionPromise.rethrow_if_exception
                  ExceptionPromise.moved_from_null false (fst first) in
  snd first = Throw (user_error 1) /\ snd second = Return tt.
Proof. by cbn. Qed.

(** ** Task: the result *)





(** ** Task: awaiting an empty task *)

(** C3 (as amended).  A default-constructed task and a task that has been
    moved from hold no coroutine; constructing and moving return normally.
    [co_await] of such a task runs no body and resumes nothing; for a
    fallible task it throws [broken_promise] out of [await_resume], at the
    await point, and for a no-fail task, whose [await_resume] is
    [noexcept], the program is terminated instead. *)
Theorem await_of_an_empty_task
  (SYMMETRIC_TRANSFER : bool) {P V St : Type} `{!Task.TaskPromise P V}
  (body : St -> list effect * Task.body_step V St)
  (awaitingCoroutine : Task.continuation) (t : Task.task P St) :
  let empty : Task.task P St := Task.task_default in
  let moved_into := fst (Task.task_move t) in
  let moved_out_of := snd (Task.task_move t) in
  let broken (a : Task.awaitable_base P St) :=
    ([], if Task.NoExcept then Fault terminated
         else Ok (a, [], Task.completed (Throw broken_promise))) in
  Task.m_coroutine empty = None
  /\ Task.m_coroutine moved_into = Task.m_coroutine t
  /\ Task.m_coroutine moved_out_of = None
  /\ Task.co_await SYMMETRIC_TRANSFER body awaitingCoroutine
       (Task.operator_co_await empty) = broken (Task.operator_co_await empty)
  /\ Task.co_await SYMMETRIC_TRANSFER body awaitingCoroutine
       (Task.operator_co_await moved_out_of)
     = broken (Task.operator_co_await moved_out_of).
Proof.
  cbn. repeat split; unfold Task.co_await, Task.awaitable_await_resume; cbn;
    by destruct Task.NoExcept.
Qed.

(** C3, the claim as stated fails for a no-fail task: awaiting a
    default-constructed [task<int, true>] raises nothing, the program is
    terminated. *)
Lemma await_of_an_empty_no_fail_task_terminates :
  Task.co_await false (Examples.task_script 0) 1
    (Task.operator_co_await
       (Task.task_default
          : Task.task (Task.NoFail.task_promise nat) (list Examples.task_statement)))
  = ([], Fault terminated).
Proof. reflexivity. Qed.

(** ** Laziness *)

(** C8.  A call of a coroutine function returning a generator or a task
    leaves the coroutine suspended at the start of its body and has none of
    the effects of the body.  The body starts in the first [begin()] of the
    generator, or in the first [co_await] of the task, whose effects are
    those of the body up to its first suspension; [is_ready()] is false and
    starts nothing. *)
Theorem construction_runs_nothing :
  (forall (T St : Type) (NoExcept : bool)
          (body : St -> list effect * Generator.body_step T St)
          (moved_from : exception_ptr -> exception_ptr) (s0 : St),
     let g := {| Generator.m_coroutine :=
                   Some {| Generator.promise :=
                             {| Generator.base := ExceptionPromise.init;
                                Generator.m_value := None |};
                           Generator.state := Generator.suspended s0 |} |} in
     Generator.coroutine_call NoExcept body s0 = ([], Ok g)
     /\ fst (Generator.begin moved_from NoExcept body g) = fst (body s0))
  /\ (forall (P V St : Type) (H : Task.TaskPromise P V) (SYMMETRIC_TRANSFER : bool)
          (body : St -> list effect * Task.body_step V St)
          (awaitingCoroutine : Task.continuation) (s0 : St),
     let t := {| Task.m_coroutine :=
                   Some {| Task.promise_base := Task.task_promise_base_new;
                           Task.promise := Task.promise_new;
                           Task.state := Task.suspended s0 |} |} in
     Task.coroutine_call SYMMETRIC_TRANSFER body s0 = ([], Ok t)
     /\ Task.is_ready t = false
     /\ fst (Task.co_await SYMMETRIC_TRANSFER body awaitingCoroutine
               (Task.operator_co_await t)) = fst (body s0))
  /\ (let body := Examples.script (T := nat) in
      let s0 := [Examples.does 7; Examples.yields 1; Examples.does 8] in
      exists g, Generator.coroutine_call false body s0 = ([], Ok g)
        /\ effects (for_each (Range0 := Generator.generator_range
                                ExceptionPromise.moved_from_null false body) 1 g)
           = [7; 8]).
Proof.
  split; [|split].
  - intros. split; [reflexivity|].
    unfold Generator.begin, Generator.resume. cbn.
    by destruct (body s0).
  - intros. split; [reflexivity|]. split; [reflexivity|].
    unfold Task.co_await, Task.awaitable_await_suspend, Task.resume. cbn.
    destruct SYMMETRIC_TRANSFER; cbn; by destruct (body s0).
  - eexists. split; reflexivity.
Qed.

(** ** The empty generator *)

(** C10.  A default-constructed generator and one that has been moved from
    hold no coroutine.  [begin()] on it returns normally, with no effect
    and the generator unchanged, an iterator that compares equal to the end
    of the sequence; a loop over it has no element.  The same holds of a
    recursive generator, whose heap is left as it was. *)
Theorem begin_of_an_empty_generator :
  (forall (T St : Type) (moved_from : exception_ptr -> exception_ptr)
          (NoExcept : bool) (body : St -> list effect * Generator.body_step T St)
          (other : Generator.generator T St) (fuel : nat),
     let R := Generator.generator_range moved_from NoExcept body in
     let empty : Generator.generator T St := Generator.generator_default in
     let null := {| Generator.it_coroutine := None |} in
     snd (Generator.generator_move other) = empty
     /\ Generator.begin moved_from NoExcept body empty = ([], Ok (empty, Return null))
     /\ Generator.iterator_eq_sentinel null = true
     /\ for_each fuel empty = observe [] finished)
  /\ (forall (T : Type) (moved_from : exception_ptr -> exception_ptr)
          (NoExcept : bool) (h : RecursiveGenerator.heap T)
          (other : RecursiveGenerator.recursive_generator) (fuel : nat),
     let R := RecursiveGenerator.recursive_generator_range moved_from NoExcept in
     let empty := RecursiveGenerator.recursive_generator_default in
     snd (RecursiveGenerator.recursive_generator_move other) = empty
     /\ RecursiveGenerator.begin moved_from NoExcept (h, empty)
        = Ok ((h, empty), Return (h, RecursiveGenerator.iterator_end))
     /\ RecursiveGenerator.iterator_eq RecursiveGenerator.iterator_end
          RecursiveGenerator.iterator_end = true
     /\ for_each fuel (h, empty) = observe [] finished).
Proof.
  split; intros; repeat split; by destruct fuel.
Qed.

(** ** Task: the race between completion and registration *)

Section race_facts.

Variable c : Task.continuation.

Lemma race_invariant_initial : Task.race_invariant c Task.initial.
Proof. by cbn. Qed.

Lemma race_invariant_step s s' :
  Task.race_invariant c s -> Task.step c s s' -> Task.race_invariant c s'.
Proof.
  intros Hinv Hstep.
  destruct Hstep as [b rs|b p rs|b p rs|b k rs|b k rs cont Hc|b k rs];
    unfold Task.race_invariant in *; cbn in *.
  - destruct Hinv as [-> ->]. done.
  - destruct p as [| |[]|]; cbn in *; naive_solver.
  - destruct b as [mc ms]; cbn in *.
    destruct p as [| |[]|]; destruct ms; cbn in *; naive_solver.
  - destruct b as [mc ms]; cbn in *.
    destruct k as [| | |[]]; destruct ms; cbn in *; naive_solver.
  - destruct k as [| | |[]]; cbn in *; naive_solver.
  - destruct k as [| | |[]]; cbn in *; naive_solver.
Qed.

Lemma race_invariant_reachable s :
  Task.reachable c s -> Task.race_invariant c s.
Proof.
  unfold Task.reachable. intros H.
  apply rtc_ind_r with (x := Task.initial) (P := Task.race_invariant c) in H;
    eauto using race_invariant_initial, race_invariant_step.
Qed.

Lemma consumer_first_reachable : Task.reachable c (Task.consumer_first c).
Proof.
  unfold Task.reachable, Task.initial, Task.consumer_first.
  eapply rtc_l; [apply Task.consumer_resumes_task|].
  eapply rtc_l; [apply Task.consumer_stores|].
  eapply rtc_l; [apply Task.consumer_exchanges|]. cbn.
  eapply rtc_l; [apply Task.producer_exchanges|]. cbn.
  eapply rtc_l; [by eapply Task.producer_resumes_continuation|]. cbn.
  apply rtc_refl.
Defined.

Lemma producer_first_reachable : Task.reachable c (Task.producer_first c).
Proof.
  unfold Task.reachable, Task.initial, Task.producer_first.
  eapply rtc_l; [apply Task.consumer_resumes_task|].
  eapply rtc_l; [apply Task.producer_exchanges|]. cbn.
  eapply rtc_l; [apply Task.producer_suspends|].
  eapply rtc_l; [apply Task.consumer_stores|].
  eapply rtc_l; [apply Task.consumer_exchanges|]. cbn.
  apply rtc_refl.
Defined.

(** The awaiting thread's two steps after it resumed the task, taken with
    no step of the task in between, are [try_set_continuation]: they leave
    the promise it leaves and return what it returns, and the awaiting
    coroutine is resumed where it returns false. *)
Lemma consumer_steps_are_try_set_continuation b p rs b' registered :
  Task.try_set_continuation c b = (b', registered)
  <-> exists s,
        Task.step c {| Task.shared := b; Task.consumer := Task.before_store;
                       Task.producer := p; Task.resumed := rs |} s
        /\ Task.consumer s = Task.before_exchange
        /\ Task.step c s
             {| Task.shared := b'; Task.consumer := Task.returned registered;
                Task.producer := p;
                Task.resumed := if registered then rs else rs ++ [c] |}.
Proof.
  split.
  - intros Ht. unfold Task.try_set_continuation in Ht.
    destruct (Task.exchange true (Task.store_continuation c b))
      as [b1 previous] eqn:He.
    injection Ht as <- <-.
    eexists. split; [apply Task.consumer_stores|]. split; [reflexivity|].
    pose proof (Task.consumer_exchanges c (Task.store_continuation c b) p rs) as Hs.
    rewrite He in Hs. cbn in Hs. by destruct previous.
  - intros (s & Hs1 & Hk & Hs2).
    inversion Hs1; subst; cbn in Hk; try done.
    inversion Hs2; subst.
    unfold Task.try_set_continuation.
    by destruct b.
Qed.

(** The task's two steps at its final suspend point, taken with no step of
    the awaiting thread in between, are [final_awaitable::await_suspend]:
    they leave the promise it leaves and resume what it resumes, and they
    do not get through where it resumes a continuation that was never
    stored. *)
Lemma producer_steps_are_final_await_suspend b k rs b' now :
  Task.final_await_suspend b = Ok (b', now)
  <-> exists s,
        Task.step c {| Task.shared := b; Task.consumer := k;
                       Task.producer := Task.running; Task.resumed := rs |} s
        /\ Task.producer s = Task.exchanged (Task.m_state b)
        /\ Task.step c s
             {| Task.shared := b'; Task.consumer := k;
                Task.producer := Task.completed_pc; Task.resumed := rs ++ now |}.
Proof.
  destruct b as [mc ms]. split.
  - intros Hf. unfold Task.final_await_suspend, Task.resume_continuation in Hf.
    cbn in Hf. destruct ms.
    + destruct mc as [cont|]; cbn in Hf; [|done]. injection Hf as <- <-.
      eexists. split; [apply Task.producer_exchanges|]. split; [reflexivity|].
      cbn. by apply Task.producer_resumes_continuation.
    + injection Hf as <- <-.
      eexists. split; [apply Task.producer_exchanges|]. split; [reflexivity|].
      cbn. rewrite app_nil_r. apply Task.producer_suspends.
  - intros (s & Hs1 & Hp & Hs2).
    inversion Hs1; subst; cbn in Hp; try done.
    unfold Task.final_await_suspend, Task.resume_continuation. cbn in *.
    inversion Hs2; subst; cbn in *.
    + match goal with
      | H : _ = _ ++ now |- _ => apply app_inv_head in H; subst now
      end.
      match goal with H : mc = Some _ |- _ => rewrite H end. done.
    + match goal with
      | H : _ = _ ++ now |- _ =>
          rewrite <- (app_nil_r rs) in H at 1; apply app_inv_head in H; subst now
      end.
      done.
Qed.

(** In every execution the continuation is never resumed twice and nothing
    else is resumed; when both threads are through it has been resumed;
    and an execution that is not through can go on. *)
Lemma reachable_resumes_once (s : Task.configuration) :
  Task.reachable c s ->
  (Task.resumed s = [] \/ Task.resumed s = [c])
  /\ (Task.final s -> Task.resumed s = [c])
  /\ (Task.final s \/ exists s', Task.step c s s').
Proof.
  intros Hr. apply race_invariant_reachable in Hr.
  destruct s as [b k p rs]. unfold Task.race_invariant, Task.final in *. cbn in *.
  destruct k as [| | |[]]; destruct p as [| |[]|]; cbn in *;
    try done; (split; [naive_solver|]); (split; [naive_solver|]).
  all: first
    [ by (left; split; [eexists|])
    | right; eexists; by econstructor
    | right; destruct Hr as (? & Hc & ?); eexists; by econstructor ].
Qed.

(** Called one after the other on the promise of a task that has not
    completed, [try_set_continuation] and [final_awaitable::await_suspend]
    resume the continuation once in either order: registered first, the
    task resumes it on completing; completed first, the registration
    returns false, on which the awaiting coroutine goes on by itself. *)
Lemma either_order_resumes_once b :
  Task.m_state b = false ->
  (exists b1 b2,
      Task.try_set_continuation c b = (b1, true)
      /\ Task.final_await_suspend b1 = Ok (b2, [c]))
  /\ (exists b1 b2,
        Task.final_await_suspend b = Ok (b1, [])
        /\ Task.try_set_continuation c b1 = (b2, false)).
Proof.
  destruct b as [mc ms]. cbn. intros ->.
  split; eexists _, _; split; reflexivity.
Qed.

(** C1.  Without symmetric transfer the awaiting thread's [await_suspend]
    resumes the task and calls [try_set_continuation] (store the
    continuation, exchange [m_state]), while the task's
    [final_awaitable::await_suspend] exchanges [m_state] and resumes the
    continuation if it read true.  The steps of the two threads are these
    two functions: run without interruption, the awaiting thread's steps
    compute [try_set_continuation] and the task's steps compute
    [final_awaitable::await_suspend].  In every interleaving of the steps
    the continuation is never resumed twice and nothing else is resumed;
    when both threads are through it has been resumed exactly once; and an
    execution that is not through can always go on, so the resumption is
    not lost.  Called one after the other, in either order, the two
    functions resume it once. *)
Theorem continuation_is_resumed_exactly_once :
  (forall b p rs b' registered,
      Task.try_set_continuation c b = (b', registered)
      <-> exists s,
            Task.step c {| Task.shared := b; Task.consumer := Task.before_store;
                           Task.producer := p; Task.resumed := rs |} s
            /\ Task.consumer s = Task.before_exchange
            /\ Task.step c s
                 {| Task.shared := b'; Task.consumer := Task.returned registered;
                    Task.producer := p;
                    Task.resumed := if registered then rs else rs ++ [c] |})
  /\ (forall b k rs b' now,
        Task.final_await_suspend b = Ok (b', now)
        <-> exists s,
              Task.step c {| Task.shared := b; Task.consumer := k;
                             Task.producer := Task.running; Task.resumed := rs |} s
              /\ Task.producer s = Task.exchanged (Task.m_state b)
              /\ Task.step c s
                   {| Task.shared := b'; Task.consumer := k;
                      Task.producer := Task.completed_pc;
                      Task.resumed := rs ++ now |})
  /\ (forall s,
        Task.reachable c s ->
        (Task.resumed s = [] \/ Task.resumed s = [c])
        /\ (Task.final s -> Task.resumed s = [c])
        /\ (Task.final s \/ exists s', Task.step c s s'))
  /\ (forall b,
        Task.m_state b = false ->
        (exists b1 b2,
            Task.try_set_continuation c b = (b1, true)
            /\ Task.final_await_suspend b1 = Ok (b2, [c]))
        /\ (exists b1 b2,
              Task.final_await_suspend b = Ok (b1, [])
              /\ Task.try_set_continuation c b1 = (b2, false))).
Proof.
  split; [exact consumer_steps_are_try_set_continuation|].
  split; [exact producer_steps_are_final_await_suspend|].
  split; [exact reachable_resumes_once|].
  exact either_order_resumes_once.
Qed.

End race_facts.

(** C1: both orders of the race are executions, and in each the
    continuation has been resumed once when both threads are through. *)
Lemma continuation_is_resumed_exactly_once_witness :
  (Task.resumed (Task.consumer_first 1) = [1]
   /\ Task.consumer (Task.consumer_first 1) = Task.returned true)
  /\ (Task.resumed (Task.producer_first 1) = [1]
      /\ Task.consumer (Task.producer_first 1) = Task.returned false).
Proof.
  destruct (continuation_is_resumed_exactly_once 1) as (_ & _ & Hrace & _).
  split; (split; [|reflexivity]).
  - apply (Hrace (Task.consumer_first 1) (consumer_first_reachable 1)).
    split; [by exists true|reflexivity].
  - apply (Hrace (Task.producer_first 1) (producer_first_reachable 1)).
    split; [by exists false|reflexivity].
Defined.

(** ** Generator: begin, the sentinel, increment *)

Section generator_facts.

Variable moved_from : exception_ptr -> exception_ptr.
Context {T St : Type}.
Variable NoExcept : bool.
Variable body : St -> list effect * Generator.body_step T St.

#[local] Abbreviation frame := (Generator.coroutine_frame T St).
#[local] Abbreviation resume := (Generator.resume NoExcept body).
#[local] Abbreviation begin := (Generator.begin moved_from NoExcept body).
#[local] Abbreviation increment :=
  (Generator.iterator_increment moved_from NoExcept body).
#[local] Abbreviation generator_at f := {| Generator.m_coroutine := Some f |}.
#[local] Abbreviation iterator_at f := {| Generator.it_coroutine := Some f |}.

Lemma resume_to_yield (f : frame) s effs v s' :
  Generator.state f = Generator.suspended s ->
  body s = (effs, Generator.co_yield v s') ->
  resume f = (effs, Ok (Generator.yielded f v s')).
Proof. intros Hs Hb. unfold Generator.resume. by rewrite Hs, Hb. Qed.

Lemma resume_to_return (f : frame) s effs :
  Generator.state f = Generator.suspended s ->
  body s = (effs, Generator.co_return) ->
  resume f = (effs, Ok (Generator.returned f)).
Proof. intros Hs Hb. unfold Generator.resume. by rewrite Hs, Hb. Qed.

Lemma resume_to_throw (f : frame) s effs e :
  NoExcept = false ->
  Generator.state f = Generator.suspended s ->
  body s = (effs, Generator.throws e) ->
  resume f = (effs, Ok (Generator.failed f (Some e))).
Proof.
  intros Hn Hs Hb. unfold Generator.resume. rewrite Hs, Hb.
  unfold ExceptionPromise.unhandled_exception. by rewrite Hn.
Qed.

Lemma sentinel_iff (it : Generator.generator_iterator T St) :
  Generator.iterator_eq_sentinel it = true <->
  Generator.it_coroutine it = None \/
  exists f, Generator.it_coroutine it = Some f
            /\ Generator.state f = Generator.at_final_suspend.
Proof.
  unfold Generator.iterator_eq_sentinel, Generator.done.
  destruct (Generator.it_coroutine it) as [f|]; split.
  - intros H. right. exists f. by destruct (Generator.state f).
  - intros [|(f' & [= <-] & ->)]; done.
  - by left.
  - done.
Qed.

Lemma begin_and_increment_to_yield (f : frame) s effs v s' :
  Generator.state f = Generator.suspended s ->
  body s = (effs, Generator.co_yield v s') ->
  let f' := Generator.yielded f v s' in
  begin (generator_at f) = (effs, Ok (generator_at f', Return (iterator_at f')))
  /\ increment (iterator_at f) = (effs, Ok (iterator_at f', Return tt))
  /\ Generator.iterator_deref (iterator_at f') = Ok v
  /\ Generator.iterator_eq_sentinel (iterator_at f') = false.
Proof.
  intros Hs Hb f'.
  unfold Generator.begin, Generator.iterator_increment. cbn.
  rewrite (resume_to_yield _ _ _ _ _ Hs Hb). cbn.
  by destruct NoExcept.
Qed.

Lemma begin_and_increment_to_return (f : frame) s effs :
  Generator.state f = Generator.suspended s ->
  body s = (effs, Generator.co_return) ->
  ExceptionPromise.m_exception (Generator.base (Generator.promise f)) = None ->
  let f' := Generator.returned f in
  begin (generator_at f) = (effs, Ok (generator_at f', Return (iterator_at f')))
  /\ increment (iterator_at f) = (effs, Ok (iterator_at f', Return tt))
  /\ Generator.iterator_eq_sentinel (iterator_at f') = true.
Proof.
  intros Hs Hb Hx f'.
  unfold Generator.begin, Generator.iterator_increment. cbn.
  rewrite (resume_to_return _ _ _ Hs Hb). cbn.
  unfold Generator.rethrow_if_exception, ExceptionPromise.rethrow_if_exception.
  cbn. rewrite Hx. subst f'. unfold Generator.returned.
  destruct f as [[[x] mv] st]; cbn in *; subst x.
  by destruct NoExcept.
Qed.

Lemma begin_and_increment_to_throw (f : frame) s effs e :
  NoExcept = false ->
  Generator.state f = Generator.suspended s ->
  body s = (effs, Generator.throws e) ->
  let f' := Generator.failed f (moved_from (Some e)) in
  begin (generator_at f) = (effs, Ok (generator_at f', Throw e))
  /\ increment (iterator_at f) = (effs, Ok (iterator_at f', Throw e))
  /\ Generator.iterator_eq_sentinel (iterator_at f') = true.
Proof.
  intros Hn Hs Hb f'.
  unfold Generator.begin, Generator.iterator_increment. cbn.
  rewrite (resume_to_throw _ _ _ _ Hn Hs Hb). cbn.
  unfold Generator.rethrow_if_exception, ExceptionPromise.rethrow_if_exception.
  by rewrite Hn.
Qed.

End generator_facts.

(** C6.  For every generator: an iterator compares equal to the end
    sentinel exactly when it holds no coroutine or its coroutine is at the
    final suspend point.  On a coroutine suspended at [s], [begin()] and
    [operator++] run the body from [s]: to its next [co_yield], after which
    the iterator is not at the end and points to the value yielded; or to
    its end, after which the iterator is at the end; or, in a fallible
    generator, to the exception that leaves the body, which is stored and
    thrown again to the caller, the coroutine being at the end.  A
    generator that yields 1, 2, 3 and returns produces 1, 2, 3 and then its
    iterator compares equal to the sentinel. *)
Theorem generator_begin_sentinel_increment :
  (forall (T St : Type) (moved_from : exception_ptr -> exception_ptr)
          (NoExcept : bool) (body : St -> list effect * Generator.body_step T St),
     let begin := Generator.begin moved_from NoExcept body in
     let increment := Generator.iterator_increment moved_from NoExcept body in
     let generator_at f := {| Generator.m_coroutine := Some f |} in
     let iterator_at f := {| Generator.it_coroutine := Some f |} in
     (forall it : Generator.generator_iterator T St,
        Generator.iterator_eq_sentinel it = true <->
        Generator.it_coroutine it = None \/
        exists f, Generator.it_coroutine it = Some f
                  /\ Generator.state f = Generator.at_final_suspend)
     /\ (forall f s effs v s',
           Generator.state f = Generator.suspended s ->
           body s = (effs, Generator.co_yield v s') ->
           let f' := Generator.yielded f v s' in
           begin (generator_at f)
             = (effs, Ok (generator_at f', Return (iterator_at f')))
           /\ increment (iterator_at f) = (effs, Ok (iterator_at f', Return tt))
           /\ Generator.iterator_deref (iterator_at f') = Ok v
           /\ Generator.iterator_eq_sentinel (iterator_at f') = false)
     /\ (forall f s effs,
           Generator.state f = Generator.suspended s ->
           body s = (effs, Generator.co_return) ->
           ExceptionPromise.m_exception (Generator.base (Generator.promise f)) = None ->
           let f' := Generator.returned f in
           begin (generator_at f)
             = (effs, Ok (generator_at f', Return (iterator_at f')))
           /\ increment (iterator_at f) = (effs, Ok (iterator_at f', Return tt))
           /\ Generator.iterator_eq_sentinel (iterator_at f') = true)
     /\ (forall f s effs e,
           NoExcept = false ->
           Generator.state f = Generator.suspended s ->
           body s = (effs, Generator.throws e) ->
           let f' := Generator.failed f (moved_from (Some e)) in
           begin (generator_at f) = (effs, Ok (generator_at f', Throw e))
           /\ increment (iterator_at f) = (effs, Ok (iterator_at f', Throw e))
           /\ Generator.iterator_eq_sentinel (iterator_at f') = true))
  /\ (forall (moved_from : exception_ptr -> exception_ptr) (NoExcept : bool) (n : nat),
        let body := Examples.script (T := nat) in
        let R := Generator.generator_range moved_from NoExcept body in
        exists g,
          Generator.coroutine_call NoExcept body
            [Examples.yields 1; Examples.yields 2; Examples.yields 3] = ([], Ok g)
          /\ for_each (3 + n) g
             = {| values := [1; 2; 3]; effects := []; outcome := finished |}).
Proof.
  split.
  - intros. split; [apply sentinel_iff|]. split; [|split].
    + intros. by eapply begin_and_increment_to_yield.
    + intros. by eapply begin_and_increment_to_return.
    + intros. by eapply begin_and_increment_to_throw.
  - intros. eexists. split; [reflexivity|]. by destruct NoExcept, n.
Qed.

(** C6, at the generator that yields 1 and returns: [begin()] runs it to
    the [co_yield], and the increment to its end. *)
Lemma generator_begin_sentinel_increment_witness :
  let body := Examples.script (T := nat) in
  let mf := ExceptionPromise.moved_from_null in
  let f0 := {| Generator.promise := {| Generator.base := ExceptionPromise.init;
                                       Generator.m_value := None |};
               Generator.state := Generator.suspended [Examples.yields 1] |} in
  let f1 := Generator.yielded f0 1 [] in
  Generator.begin mf false body {| Generator.m_coroutine := Some f0 |}
    = ([], Ok ({| Generator.m_coroutine := Some f1 |},
               Return {| Generator.it_coroutine := Some f1 |}))
  /\ Generator.iterator_increment mf false body {| Generator.it_coroutine := Some f1 |}
     = ([], Ok ({| Generator.it_coroutine := Some (Generator.returned f1) |}, Return tt)).
Proof.
  cbv zeta.
  destruct generator_begin_sentinel_increment as [H _].
  destruct (H nat _ ExceptionPromise.moved_from_null false (Examples.script (T := nat)))
    as (_ & Hyield & Hreturn & _).
  split.
  - eapply Hyield; reflexivity.
  - eapply Hreturn; reflexivity.
Defined.

(** ** fmap *)

Lemma map_observation_and_then {T U : Type} (f : T -> U) vs effs (o : observation T) :
  map_observation f (and_then vs effs o)
  = and_then (f <$> vs) effs (map_observation f o).
Proof. unfold map_observation, and_then. cbn. by rewrite fmap_app. Qed.

Section fmap_facts.

Context {Src It T U : Type} `{!Range Src It T}.
Variable moved_from : exception_ptr -> exception_ptr.
Variable func : T -> U.

#[local] Abbreviation fmap_frame :=
  (Generator.coroutine_frame U (Generator.fmap_state Src It)).

(** The generator [fmap] returns, as a range. *)
#[local] Instance fmap_range
  : Range (Generator.generator U (Generator.fmap_state Src It))
          (Generator.generator_iterator U (Generator.fmap_state Src It)) U :=
  Generator.generator_range moved_from false (Generator.fmap_body func).

(** A loop over the generator of [fmap], from its [co_yield] on, sees what
    the loop over the source sees from the same element on, mapped. *)
Lemma fmap_for_loop (fuel : nat) : forall (f : fmap_frame) (it : It) (v : T),
  Generator.fmap_suspended_at func f it v ->
  for_loop fuel {| Generator.it_coroutine := Some f |}
  = map_observation func (for_loop fuel it).
Proof.
  induction fuel as [|fuel IH]; intros f it v ([source Hs] & Hv & Hx & Hend & Hd).
  - cbn. unfold Generator.iterator_eq_sentinel, Generator.done,
      Generator.iterator_deref, Generator.value. cbn.
    by rewrite Hs, Hv, Hend, Hd.
  - cbn. unfold Generator.iterator_eq_sentinel, Generator.done,
      Generator.iterator_deref, Generator.value,
      Generator.iterator_increment, Generator.resume. cbn.
    rewrite Hs, Hv, Hend, Hd. cbn.
    destruct (range_incr it) as [effs [[it' [[]|e]]|x]]; cbn.
    + unfold Generator.fmap_iteration.
      destruct (range_at_end it') eqn:Hend'; cbn.
      * unfold Generator.rethrow_if_exception,
          ExceptionPromise.rethrow_if_exception. cbn. rewrite Hx. cbn.
        destruct fuel; cbn; rewrite Hend'; by cbn.
      * destruct (range_deref it') as [v'|x] eqn:Hd'; cbn.
        -- rewrite map_observation_and_then. f_equal.
           apply (IH _ it' v'). repeat split; eauto.
        -- destruct fuel; cbn; by rewrite Hend', Hd'.
    + unfold Generator.rethrow_if_exception,
        ExceptionPromise.rethrow_if_exception. by cbn.
    + done.
Qed.

Lemma fmap_for_each (fuel : nat) (source : Src) :
  for_each fuel
    {| Generator.m_coroutine :=
         Some {| Generator.promise :=
                   {| Generator.base := ExceptionPromise.init;
                      Generator.m_value := None |};
                 Generator.state :=
                   Generator.suspended (Generator.fmap_start source) |} |}
  = map_observation func (for_each fuel source).
Proof.
  unfold for_each. cbn. unfold Generator.begin, Generator.resume. cbn.
  destruct (range_begin source) as [effs [[source' [it|e]]|x]]; cbn.
  - unfold Generator.fmap_iteration.
    destruct (range_at_end it) eqn:Hend; cbn.
    + destruct fuel; cbn; by rewrite Hend.
    + destruct (range_deref it) as [v|x] eqn:Hd; cbn.
      * rewrite map_observation_and_then. f_equal.
        apply (fmap_for_loop _ _ it v). repeat split; eauto.
      * rewrite map_observation_and_then.
        destruct fuel; cbn; rewrite Hend, Hd; cbn;
          unfold and_then, observe, map_observation; cbn; by rewrite app_nil_r.
  - done.
  - done.
Qed.

End fmap_facts.

(** C9.  [fmap] of a generator and [fmap] of a recursive generator both
    return a plain generator, and run nothing when called.  Whatever the
    source is, a loop over the result observes what the same loop over the
    source observes, with [func] applied to every element: the same
    effects in the same order and the same ending, be it the end of the
    sequence, a failure, a fault or an exhausted bound.  Mapping [x * 2]
    over a source that produces 1, 2, 3 gives 2, 4, 6, for a plain and for a
    recursive source. *)
Theorem fmap_maps_every_element :
  (forall (T U St : Type) (moved_from : exception_ptr -> exception_ptr)
          (NoExcept : bool) (body : St -> list effect * Generator.body_step T St)
          (func : T -> U) (source : Generator.generator T St) (fuel : nat),
     let R := Generator.generator_range moved_from NoExcept body in
     exists g, Generator.fmap moved_from NoExcept body func source = ([], Ok g)
       /\ for_each (Range0 := Generator.generator_range moved_from false
                                (Generator.fmap_body func)) fuel g
          = map_observation func (for_each fuel source))
  /\ (forall (T U : Type) (moved_from : exception_ptr -> exception_ptr)
          (NoExcept : bool) (func : T -> U)
          (source : RecursiveGenerator.heap T * RecursiveGenerator.recursive_generator)
          (fuel : nat),
     let R := RecursiveGenerator.recursive_generator_range moved_from NoExcept in
     exists g, RecursiveGenerator.fmap moved_from NoExcept func source = ([], Ok g)
       /\ for_each (Range0 := Generator.generator_range moved_from false
                                (Generator.fmap_body func)) fuel g
          = map_observation func (for_each fuel source))
  /\ (let mf := ExceptionPromise.moved_from_null in
      let double (x : nat) := x * 2 in
      let body := Examples.script (T := nat) in
      let R := Generator.generator_range mf false body in
      let R' := RecursiveGenerator.recursive_generator_range (T := nat) mf false in
      exists plain g recursive g',
        Generator.coroutine_call false body
          [Examples.yields 1; Examples.yields 2; Examples.yields 3] = ([], Ok plain)
        /\ values (for_each 3 plain) = [1; 2; 3]
        /\ Generator.fmap mf false body double plain = ([], Ok g)
        /\ for_each (Range0 := Generator.generator_range mf false
                                 (Generator.fmap_body double)) 3 g
           = {| values := [2; 4; 6]; effects := []; outcome := finished |}
        /\ RecursiveGenerator.coroutine_call (Examples.elements [1; 2; 3]) []
           = recursive
        /\ values (for_each 3 recursive) = [1; 2; 3]
        /\ RecursiveGenerator.fmap mf false double recursive = ([], Ok g')
        /\ for_each (Range0 := Generator.generator_range mf false
                                 (Generator.fmap_body double)) 3 g'
           = {| values := [2; 4; 6]; effects := []; outcome := finished |}).
Proof.
  split; [|split].
  - intros. eexists. split; [reflexivity|]. apply fmap_for_each.
  - intros. eexists. split; [reflexivity|]. apply fmap_for_each.
  - do 4 eexists. repeat split; reflexivity.
Qed.

(** ** Recursive generator: flattening *)

Module RecursiveGeneratorFacts.

Import RecursiveGenerator.

Section flattening_facts.

Context {T : Type}.
Variable moved_from : exception_ptr -> exception_ptr.
Variable NoExcept : bool.

Implicit Types (h : heap T) (p : promise_type T) (a r c x : addr) (b k : body T).

#[local] Instance the_range
  : Range (heap T * recursive_generator) (heap T * iterator) T :=
  recursive_generator_range moved_from NoExcept.

(** *** Productions *)

Lemma and_next_nil (l : production (T := T)) : and_next ([], None) l = l.
Proof. by destruct l. Qed.

Lemma and_next_end (l : production (T := T)) : and_next l ([], None) = l.
Proof. destruct l as [vs [e|]]; cbn; [done|]. by rewrite app_nil_r. Qed.

Lemma and_next_assoc (l1 l2 l3 : production (T := T)) :
  and_next (and_next l1 l2) l3 = and_next l1 (and_next l2 l3).
Proof.
  destruct l1 as [vs1 [e1|]]; [done|].
  destruct l2 as [vs2 [e2|]]; cbn; [done|].
  by rewrite app_assoc.
Qed.

Lemma and_next_cons v vs (ox : option exn) (l : production (T := T)) :
  and_next (v :: vs, ox) l
  = (v :: fst (and_next (vs, ox) l), snd (and_next (vs, ox) l)).
Proof. by destruct ox. Qed.

Lemma produce_stack_cons k (ks : list (body T)) :
  produce_stack (k :: ks) = and_next (produce k) (produce_stack ks).
Proof. done. Qed.

Lemma produce_stack_app (ks1 ks2 : list (body T)) :
  produce_stack (ks1 ++ ks2) = and_next (produce_stack ks1) (produce_stack ks2).
Proof.
  induction ks1 as [|k ks1 IH].
  - cbn [app]. change (produce_stack []) with (([], None) : production (T := T)).
    by rewrite and_next_nil.
  - change ((k :: ks1) ++ ks2) with (k :: (ks1 ++ ks2)).
    by rewrite !produce_stack_cons, IH, and_next_assoc.
Qed.

Lemma nothrow_produce b : nothrow b = true -> produce b = (flatten b, None).
Proof.
  induction b as [|v k IH|k IH|child IHc k IHk|e]; cbn; intros H; try done.
  - by rewrite (IH H).
  - by apply IH.
  - apply andb_true_iff in H as [Hc Hk]. rewrite (IHc Hc), (IHk Hk).
    by destruct (flatten child).
Qed.

Lemma admissible_nothrow b : nothrow b = true -> admissible NoExcept b.
Proof. by intros H _. Qed.

Lemma admissible_fallible b : NoExcept = false -> admissible NoExcept b.
Proof. intros H H'. congruence. Qed.

Lemma admissible_ending b vs e :
  admissible NoExcept b -> produce b = (vs, Some e) -> NoExcept = false.
Proof.
  intros Ha Hp. destruct NoExcept; [|done].
  rewrite (nothrow_produce b (Ha eq_refl)) in Hp. done.
Qed.

(** *** Reading and writing the heap *)

Lemma load_ok h a p : h !! a = Some p -> live p -> load a h = Ok p.
Proof. unfold load, live. intros -> H. by destruct (state p). Qed.

Lemma store_ok h a p g :
  h !! a = Some p -> live p -> store a g h = Ok (<[a := g p]> h).
Proof. intros H1 H2. unfold store. by rewrite (load_ok _ _ _ H1 H2). Qed.

Lemma keeps_refl n a r h : keeps n a r h h.
Proof. intros x p _ H. eauto 10. Qed.

Lemma keeps_trans n a r h1 h2 h3 :
  keeps n a r h1 h2 -> keeps n a r h2 h3 -> keeps n a r h1 h3.
Proof.
  intros H12 H23 x p Hx Hp.
  destruct (H12 x p Hx Hp) as (p2 & Hp2 & ? & Hs2 & Hl2).
  destruct (H23 x p2 Hx Hp2) as (p3 & Hp3 & ? & Hs3 & Hl3).
  exists p3. split; [done|]. split; [congruence|].
  split; intros Hn.
  - destruct (Hs2 Hn), (Hs3 Hn). split; congruence.
  - rewrite Hl3, Hl2; done.
Qed.

Lemma keeps_self n a c r h h' : n <= c -> keeps n c r h h' -> keeps n a r h h'.
Proof.
  intros Hc H x p Hx Hp. destruct (H x p Hx Hp) as (p' & ? & ? & Hs & ?).
  exists p'. split; [done|]. split; [done|]. split; [|done].
  intros _. apply Hs. lia.
Qed.

Lemma keeps_mono n n' a r h h' : n' <= n -> keeps n a r h h' -> keeps n' a r h h'.
Proof. intros Hn H x p Hx. apply H. lia. Qed.

Lemma keeps_insert n a r h x0 p0 q :
  h !! x0 = Some p0 ->
  (x0 < n -> m_root q = m_root p0
     /\ (x0 <> a -> state q = state p0 /\ base q = base p0)
     /\ (x0 <> r -> m_parentOrLeaf q = m_parentOrLeaf p0)) ->
  keeps n a r h (<[x0 := q]> h).
Proof.
  intros H0 Hq x p Hx Hp. destruct (decide (x = x0)) as [->|Hne].
  - exists q. rewrite list_lookup_insert_eq by (by eapply lookup_lt_Some).
    rewrite H0 in Hp. injection Hp as <-.
    destruct (Hq Hx) as (? & ? & ?). eauto.
  - exists p. rewrite list_lookup_insert_ne by done. eauto.
Qed.

(** *** Chains *)

Lemma chain_keeps n a r top h h' c ks :
  chain h r top c ks ->
  keeps n a r h h' ->
  c < n -> Forall (fun x => x < n /\ x <> a) ks.*1 ->
  chain h' r top c ks.
Proof.
  intros Hc Hk. induction Hc as [|c p k ks pc pp Hcr Hpc Hpar Hpp Hst Hroot Hq Hc IH];
    intros Hlt Hall.
  - constructor.
  - cbn in Hall. apply Forall_cons in Hall as [[Hp1 Hp2] Hall].
    destruct (Hk c pc Hlt Hpc) as (pc' & ? & ? & ? & Hl).
    destruct (Hk p pp Hp1 Hpp) as (pp' & ? & ? & Hs & ?).
    destruct (Hs Hp2) as [Hs1 Hs2].
    eapply chain_link; eauto.
    + rewrite Hl; auto.
    + congruence.
    + congruence.
    + unfold quiet in *. congruence.
Qed.

Lemma chain_app h r top mid c ks1 ks2 :
  chain h r mid c ks1 -> chain h r top mid ks2 -> chain h r top c (ks1 ++ ks2).
Proof.
  intros H1 Htop. induction H1; cbn; [done|]. eapply chain_link; eauto.
Qed.

(** The top of a chain is not at its final suspend point, unless it is the
    bottom itself. *)
Lemma chain_top_state h r top c ks :
  chain h r top c ks ->
  (ks = [] /\ c = top) \/
  (exists pt c' k', h !! top = Some pt /\ state pt = awaiting_child c' k').
Proof.
  induction 1 as [|c p k ks pc pp ? ? ? ? ? ? ? Hc IH]; [by left|].
  right. destruct IH as [[-> ->]|IH]; eauto.
Qed.

Lemma chain_cons_inv h r top c (p0 : addr) k ks :
  chain h r top c ((p0, k) :: ks) ->
  c <> r /\ exists pc pp,
    h !! c = Some pc /\ m_parentOrLeaf pc = p0
    /\ h !! p0 = Some pp /\ state pp = awaiting_child c k
    /\ m_root pp = r /\ quiet pp /\ chain h r top p0 ks.
Proof. inversion 1; subst. eauto 12. Qed.

Lemma chain_insert_other h r top c ks x0 q :
  chain h r top c ks -> x0 ∉ c :: ks.*1 -> chain (<[x0 := q]> h) r top c ks.
Proof.
  induction 1 as [|c p k ks pc pp ? ? ? ? ? ? ? Hc IH]; intros Hnot; [constructor|].
  cbn in Hnot. apply not_elem_of_cons in Hnot as [Hc0 Hnot].
  pose proof Hnot as Hnot'. apply not_elem_of_cons in Hnot' as [Hp0 _].
  eapply chain_link; eauto; by rewrite list_lookup_insert_ne.
Qed.

Lemma chain_bound h r top c ks :
  chain h r top c ks -> Forall (fun x => x < length h) ks.*1.
Proof.
  induction 1; cbn; constructor; eauto using lookup_lt_Some.
Qed.

Lemma NoDup_bounded_length (l : list nat) n :
  NoDup l -> Forall (fun x => x < n) l -> length l <= n.
Proof.
  intros Hnd Hall. trans (length (seq 0 n)); [|by rewrite length_seq].
  apply submseteq_length, NoDup_submseteq; [done|].
  intros x Hx. rewrite list.Forall_forall in Hall. apply elem_of_seq.
  specialize (Hall x Hx). lia.
Qed.

Lemma yields_next_mono h' n n' r a v rest :
  n' <= n -> yields_next NoExcept h' n r a v rest -> yields_next NoExcept h' n' r a v rest.
Proof.
  intros Hn (L & kL & seg & pL & pr' & H1 & H2 & H3 & H4 & H5 & H6 & H7 & H8 & H9 & H10).
  exists L, kL, seg, pL, pr'. repeat (split; [done|]). split; [|done].
  eapply Forall_impl; [exact H9|]. cbn. intros x [->|Hx]; [by left|right; lia].
Qed.

(** *** One run of a body *)

Lemma run_spec b : forall a r h pa pr,
  admissible NoExcept b ->
  h !! a = Some pa -> live pa -> m_root pa = r -> quiet pa ->
  h !! r = Some pr -> live pr -> m_parentOrLeaf pr = a ->
  exists h', run NoExcept a b h = Ok h' /\ run_post NoExcept h h' r a b.
Proof.
  induction b as [|v k IH|k IH|child IHc k IHk|e];
    intros a r h pa pr Hadm Ha Hla Hra Hqa Hr Hlr Hleaf.
  - (* co_return *)
    cbn. rewrite (store_ok _ _ _ _ Ha Hla). eexists; split; [done|].
    assert (a < length h) by (by eapply lookup_lt_Some).
    split; [by rewrite length_insert|]. split.
    { eapply keeps_insert; [done|]. intros _. cbn. tauto. }
    cbn. unfold completes.
    exists (set_state at_final_suspend pa).
    destruct (decide (r = a)) as [->|Hne].
    + exists (set_state at_final_suspend pa).
      rewrite list_lookup_insert_eq by done. repeat split; try done.
      cbn. congruence.
    + exists pr. rewrite list_lookup_insert_eq by done.
      rewrite list_lookup_insert_ne by done. done.
  - (* co_yield *)
    cbn [run]. rewrite (store_ok _ _ _ _ Ha Hla). eexists; split; [done|].
    assert (a < length h) by (by eapply lookup_lt_Some).
    split; [by rewrite length_insert|]. split.
    { eapply keeps_insert; [done|]. intros _. cbn. tauto. }
    cbn [produce]. rewrite and_next_cons, and_next_nil. cbn [fst snd].
    destruct (produce k) as [vs ox] eqn:Hpk. cbn [fst snd].
    unfold yields_next.
    exists a, k, []. eexists.
    exists (if decide (r = a) then set_state (suspended k) (set_value (Some v) pa) else pr).
    rewrite list_lookup_insert_eq by done.
    split; [done|]. cbn. repeat split; try done.
    + destruct (decide (r = a)) as [->|Hne].
      * by rewrite list_lookup_insert_eq.
      * by rewrite list_lookup_insert_ne.
    + destruct (decide (r = a)) as [->|Hne]; cbn; congruence.
    + constructor.
    + apply Forall_singleton. by left.
    + apply NoDup_singleton.
    + by rewrite Hpk, and_next_end.
  - (* co_yield_empty *)
    cbn. eapply IH; eauto.
  - (* co_yield_generator *)
    assert (Hadmc : admissible NoExcept child).
    { intros Hn. specialize (Hadm Hn). cbn in Hadm.
      by apply andb_true_iff in Hadm as [? _]. }
    assert (Hadmk : admissible NoExcept k).
    { intros Hn. specialize (Hadm Hn). cbn in Hadm.
      by apply andb_true_iff in Hadm as [_ ?]. }
    assert (Han : a < length h) by (by eapply lookup_lt_Some).
    assert (Hrn : r < length h) by (by eapply lookup_lt_Some).
    set (c := length h) in *.
    set (new := promise_type_new c child).
    set (h1 := h ++ [new]).
    set (pr2 := set_parentOrLeaf c pr).
    set (h2 := <[r := pr2]> h1).
    set (pc := set_parentOrLeaf a (set_root r new)).
    set (h4 := <[c := pc]> (<[c := set_root r new]> h2)).
    assert (Hh1a : h1 !! a = Some pa) by (by apply lookup_app_l_Some).
    assert (Hh1r : h1 !! r = Some pr) by (by apply lookup_app_l_Some).
    assert (Hh1c : h1 !! c = Some new) by (by apply list_lookup_middle).
    assert (Hlen1 : length h1 = S c) by (unfold h1; rewrite length_app; cbn; lia).
    assert (Hh2c : h2 !! c = Some new).
    { unfold h2. rewrite list_lookup_insert_ne by lia. done. }
    assert (Hlen4 : length h4 = S c).
    { unfold h4, h2. by rewrite !length_insert. }
    assert (Hh4c : h4 !! c = Some pc).
    { unfold h4. rewrite list_lookup_insert_eq; [done|]. unfold h2.
      rewrite !length_insert. lia. }
    assert (Hh4r : h4 !! r = Some pr2).
    { unfold h4. rewrite !list_lookup_insert_ne by lia. unfold h2.
      rewrite list_lookup_insert_eq; [done|lia]. }
    assert (Hh4 : forall x, x <> r -> x < c -> h4 !! x = h !! x).
    { intros x Hxr Hxc. unfold h4, h2.
      rewrite !list_lookup_insert_ne by lia. unfold h1.
      by rewrite lookup_app_l. }
    assert (Hrun : run NoExcept a (co_yield_generator child k) h
      = (h5 ← run NoExcept c child h4;
         child_complete ← is_complete c h5;
         if negb child_complete then store a (set_state (awaiting_child c k)) h5
         else
           p ← load a h5;
           h6 ← store (m_root p) (set_parentOrLeaf a) h5;
           h7 ← destroy c h6;
           run NoExcept a k h7)).
    { cbn. unfold allocate. fold c. fold new. fold h1.
      rewrite (load_ok _ _ _ Hh1a Hla). cbn. rewrite Hra.
      rewrite (store_ok _ _ _ _ Hh1r Hlr). cbn. fold pr2. fold h2.
      rewrite (store_ok _ _ new _ Hh2c) by done. cbn.
      rewrite (store_ok _ _ (set_root r new) (set_parentOrLeaf a)); [done| |done].
      rewrite list_lookup_insert_eq; [done|]. unfold h2. rewrite length_insert. lia. }
    rewrite Hrun. clear Hrun.
    assert (Hk4 : keeps c a r h h4).
    { intros x p Hx Hp. destruct (decide (x = r)) as [->|Hne].
      - exists pr2. split; [done|]. assert (p = pr) as -> by congruence.
        cbn. tauto.
      - exists p. rewrite Hh4 by done. tauto. }
    destruct (IHc c r h4 pc pr2) as (h5 & Hrun5 & Hlen5 & Hk5 & Hpost5);
      [done|done|done|done|done|done|done|done|].
    rewrite Hrun5. cbn [mbind res_bind]. rewrite Hlen4 in *.
    assert (Hh5a : exists pa5, h5 !! a = Some pa5 /\ state pa5 = state pa
                     /\ m_root pa5 = r /\ base pa5 = base pa).
    { assert (exists pa4, h4 !! a = Some pa4 /\ state pa4 = state pa
                     /\ m_root pa4 = r /\ base pa4 = base pa) as (pa4 & H4a & ? & ? & ?).
      { destruct (decide (a = r)) as [Heq|Hne].
        - exists pr2. rewrite Heq. split; [done|].
          assert (pr = pa) as Hpp by (rewrite Heq in Ha; congruence).
          cbn. rewrite Hpp. done.
        - exists pa. rewrite Hh4 by done. done. }
      destruct (Hk5 a pa4) as (pa5 & ? & ? & Hs & _); [lia|done|].
      destruct Hs as [Hs1 Hs2]; [lia|].
      exists pa5. split; [done|]. split; [congruence|]. split; congruence. }
    destruct Hh5a as (pa5 & Hh5a & Hs5a & Hr5a & Hb5a).
    assert (Hl5a : live pa5) by (unfold live; congruence).
    assert (Hk5' : keeps c a r h h5).
    { eapply keeps_trans; [exact Hk4|].
      eapply keeps_self; [|eapply keeps_mono; [|exact Hk5]]; lia. }
    assert (Hh5r : exists pr5, h5 !! r = Some pr5 /\ state pr5 = state pr
                     /\ m_root pr5 = m_root pr /\ base pr5 = base pr).
    { destruct (Hk5 r pr2) as (pr5 & ? & ? & Hs & _); [lia|done|].
      destruct Hs as [Hs1 Hs2]; [lia|]. exists pr5. done. }
    destruct Hh5r as (pr5 & Hh5r & Hs5r & Hr5r & Hb5r).
    assert (Hl5r : live pr5) by (unfold live; congruence).
    assert (Hh5c : exists pc5, h5 !! c = Some pc5 /\ m_parentOrLeaf pc5 = a).
    { destruct (Hk5 c pc) as (pc5 & ? & ? & _ & Hl); [lia|done|].
      exists pc5. rewrite Hl by lia. done. }
    destruct Hh5c as (pc5 & Hh5c & Hp5c).
    unfold run_post. cbn [produce].
    destruct (produce child) as [[|v vs] ox] eqn:Hfc; cbv beta iota.
    { (* the child is complete already *)
      destruct Hpost5 as (pc5' & pr5' & Hc5 & Hsc5 & _ & Hr5 & Hleaf5).
      rewrite Hh5c in Hc5. injection Hc5 as <-.
      rewrite Hh5r in Hr5. injection Hr5 as <-.
      unfold is_complete. rewrite (load_ok _ _ _ Hh5c) by (unfold live; congruence).
      cbn. unfold complete. rewrite Hsc5. cbn.
      rewrite (load_ok _ _ _ Hh5a Hl5a). cbn. rewrite Hr5a.
      rewrite (store_ok _ _ _ _ Hh5r Hl5r). cbn.
      set (pr6 := set_parentOrLeaf a pr5).
      set (h6 := <[r := pr6]> h5).
      assert (Hh6c : h6 !! c = Some pc5).
      { unfold h6. rewrite list_lookup_insert_ne by lia. done. }
      unfold destroy. rewrite (store_ok _ _ _ _ Hh6c) by (unfold live; congruence).
      cbn. set (h7 := <[c := set_state destroyed pc5]> h6).
      assert (Hlen7 : length h7 = length h5).
      { unfold h7, h6. by rewrite !length_insert. }
      assert (Hh7r : h7 !! r = Some pr6).
      { unfold h7, h6. rewrite list_lookup_insert_ne by lia.
        rewrite list_lookup_insert_eq; [done|]. by eapply lookup_lt_Some. }
      assert (Hh7a : exists pa7, h7 !! a = Some pa7 /\ state pa7 = state pa
                       /\ m_root pa7 = r /\ base pa7 = base pa).
      { destruct (decide (a = r)) as [Heq|Hne].
        - exists pr6. rewrite Heq. split; [done|].
          assert (pr = pa) as Hpp by (rewrite Heq in Ha; congruence).
          cbn. rewrite Hs5r, Hr5r, Hb5r, Hpp. done.
        - exists pa5. unfold h7, h6. rewrite !list_lookup_insert_ne by lia. done. }
      destruct Hh7a as (pa7 & Hh7a & Hs7a & Hr7a & Hb7a).
      destruct (IHk a r h7 pa7 pr6) as (h8 & Hrun8 & Hlen8 & Hk8 & Hpost8);
        [done|done|unfold live; congruence|done
        |unfold quiet in Hqa |- *; by rewrite Hb7a
        |done|unfold live in Hlr |- *; cbn; congruence|done|].
      exists h8. split; [done|]. split; [lia|]. split.
      + eapply keeps_trans; [exact Hk5'|]. eapply keeps_trans.
        * eapply keeps_trans.
          -- eapply (keeps_insert _ _ _ _ r pr5 pr6); [done|]. intros _. cbn.
             split; [done|]. split; [done|]. intros Hrr'. by destruct Hrr'.
          -- eapply (keeps_insert _ _ _ _ c pc5); [done|].
             intros Hlt. exfalso. clear -Hlt. unfold c in Hlt. lia.
        * eapply keeps_mono; [|exact Hk8]. lia.
      + destruct (produce k) as [[|w ws] oy]; [done|].
        eapply yields_next_mono; [|exact Hpost8]. lia. }
    (* the child is suspended *)
    destruct Hpost5 as (L & kL & seg & pL & pr5' & HL & HsL & HvL & HrL & HqL & Hr5
                        & Hleaf5 & Hchain & Hfresh & Hnd & HntL & Hntseg & Hflat).
    rewrite Hh5r in Hr5. injection Hr5 as <-.
    assert (Hsc : live pc5 /\ complete pc5 = false).
    { destruct (chain_top_state _ _ _ _ _ Hchain) as [[-> ->]|(pt & c' & k' & Hpt & Hst)].
      - rewrite Hh5c in HL. injection HL as <-.
        unfold live, complete. rewrite HsL. done.
      - rewrite Hh5c in Hpt. injection Hpt as <-.
        unfold live, complete. rewrite Hst. done. }
    destruct Hsc as [Hlc Hcc].
    unfold is_complete. rewrite (load_ok _ _ _ Hh5c Hlc). cbn. rewrite Hcc. cbn.
    rewrite (store_ok _ _ _ _ Hh5a Hl5a).
    set (pa6 := set_state (awaiting_child c k) pa5).
    set (h6 := <[a := pa6]> h5).
    assert (Ha5 : a < length h5) by (by eapply lookup_lt_Some).
    assert (Hnot : a ∉ L :: seg.*1).
    { intros Hin. rewrite list.Forall_forall in Hfresh.
      destruct (Hfresh a Hin); lia. }
    exists h6. split; [done|]. split; [unfold h6; rewrite length_insert; lia|]. split.
    { eapply keeps_trans; [exact Hk5'|].
      eapply keeps_insert; [done|]. intros _. cbn. split; [done|]. split; [|done]. intros Hxa. by destruct Hxa. }
    cut (yields_next NoExcept h6 (length h) r a v (and_next (vs, ox) (produce k))).
    { intros Hgoal. destruct ox; exact Hgoal. }
    exists L, kL, (seg ++ [(a, k)]), pL, (if decide (r = a) then pa6 else pr5).
    assert (HLa : L <> a) by (intros ->; apply Hnot; left).
    split. { unfold h6. by rewrite list_lookup_insert_ne. }
    split; [done|]. split; [done|]. split; [done|]. split; [done|].
    split.
    { unfold h6. destruct (decide (r = a)) as [->|Hne].
      - by rewrite list_lookup_insert_eq.
      - by rewrite list_lookup_insert_ne. }
    split.
    { destruct (decide (r = a)) as [Heq|Hne]; [|done]. cbn.
      rewrite Heq in Hh5r. congruence. }
    split.
    { eapply chain_app.
      - apply chain_insert_other; done.
      - eapply (chain_link _ _ _ c a k [] pc5 pa6).
        + lia.
        + unfold h6. rewrite list_lookup_insert_ne by lia. done.
        + done.
        + unfold h6. by rewrite list_lookup_insert_eq.
        + done.
        + done.
        + unfold quiet in *. cbn. congruence.
        + constructor. }
    rewrite fmap_app, fmap_app. cbn [fmap list_fmap].
    split.
    { rewrite app_comm_cons. apply Forall_app. split.
      - eapply Forall_impl; [exact Hfresh|]. cbn. intros x [->|Hx]; right; lia.
      - apply Forall_singleton. by left. }
    split.
    { rewrite app_comm_cons. apply NoDup_app. split; [done|]. split.
      - intros x Hx Hx'. apply list_elem_of_singleton in Hx' as ->. done.
      - apply NoDup_singleton. }
    split; [done|]. split.
    { apply Forall_app. split; [done|]. by apply Forall_singleton. }
    rewrite app_comm_cons, produce_stack_app, Hflat.
    change ([(a, k)].*2) with [k]. rewrite (produce_stack_cons k []). change (produce_stack []) with (([], None) : production (T := T)).
    by rewrite and_next_end.
  - (* throws *)
    assert (Hn : NoExcept = false) by (destruct NoExcept; [by specialize (Hadm eq_refl)|done]).
    cbn. unfold unhandled. rewrite (load_ok _ _ _ Ha Hla). cbn.
    unfold ExceptionPromise.unhandled_exception. rewrite Hn. cbn.
    eexists; split; [done|].
    assert (a < length h) by (by eapply lookup_lt_Some).
    split; [by rewrite length_insert|]. split.
    { eapply keeps_insert; [done|]. intros _. cbn. split; [done|]. split; [|done]. intros Hxa. by destruct Hxa. }
    exists (set_state at_final_suspend
              (set_base {| ExceptionPromise.m_exception := Some e |} pa)).
    exists (if decide (r = a)
            then set_state at_final_suspend
                   (set_base {| ExceptionPromise.m_exception := Some e |} pa)
            else pr).
    rewrite list_lookup_insert_eq by done. split; [done|].
    split; [done|]. split; [done|].
    destruct (decide (r = a)) as [->|Hne].
    + rewrite list_lookup_insert_eq by done. split; [done|]. cbn. congruence.
    + rewrite list_lookup_insert_ne by done. done.
Qed.

(** *** The loop of [pull()] *)

Lemma rethrow_quiet (b : ExceptionPromise.exception_promise) :
  ExceptionPromise.m_exception b = None ->
  ExceptionPromise.rethrow_if_exception moved_from NoExcept b = (b, Return tt).
Proof.
  intros H. unfold ExceptionPromise.rethrow_if_exception. rewrite H.
  by destruct NoExcept.
Qed.

Lemma rethrow_failure (b : ExceptionPromise.exception_promise) e :
  NoExcept = false ->
  ExceptionPromise.m_exception b = Some e ->
  ExceptionPromise.rethrow_if_exception moved_from NoExcept b
  = ({| ExceptionPromise.m_exception := moved_from (Some e) |}, Throw e).
Proof.
  intros Hn H. unfold ExceptionPromise.rethrow_if_exception. by rewrite Hn, H.
Qed.

Lemma pull_loop_unfold fuel r h :
  pull_loop moved_from NoExcept fuel r h =
  (p ← load r h;
   leaf_complete ← is_complete (m_parentOrLeaf p) h;
   if negb (Nat.eqb (m_parentOrLeaf p) r) && leaf_complete then
     match fuel with
     | 0 => Fault exhausted
     | S fuel' =>
         leaf ← load (m_parentOrLeaf p) h;
         h ← store r (set_parentOrLeaf (m_parentOrLeaf leaf)) h;
         h ← resume moved_from NoExcept (m_parentOrLeaf leaf) h;
         pull_loop moved_from NoExcept fuel' r h
     end
   else Ok h).
Proof. by destruct fuel. Qed.

Lemma at_rest_root_live h r L kL ks ov :
  at_rest NoExcept h r L kL ks ov ->
  exists pr, h !! r = Some pr /\ live pr /\ complete pr = false
             /\ m_root pr = r /\ m_parentOrLeaf pr = L.
Proof.
  intros (pL & pr & HL & HsL & _ & _ & _ & Hr & Hrr & Hleaf & Hch & _).
  exists pr. split; [done|].
  destruct (chain_top_state _ _ _ _ _ Hch) as [[_ ->]|(pt & c' & k' & Hpt & Hst)].
  - rewrite HL in Hr. injection Hr as <-. unfold live, complete. by rewrite HsL.
  - rewrite Hr in Hpt. injection Hpt as <-. unfold live, complete. by rewrite Hst.
Qed.

Lemma pull_loop_stops fuel h r L kL ks ov :
  at_rest NoExcept h r L kL ks ov -> pull_loop moved_from NoExcept fuel r h = Ok h.
Proof.
  intros Hrest. destruct (at_rest_root_live _ _ _ _ _ _ Hrest)
    as (pr & Hr & Hlr & _ & _ & Hleaf).
  destruct Hrest as (pL & pr' & HL & HsL & _).
  rewrite pull_loop_unfold. rewrite (load_ok _ _ _ Hr Hlr). cbn.
  rewrite Hleaf. unfold is_complete.
  rewrite (load_ok _ _ _ HL) by (unfold live; congruence). cbn.
  unfold complete. rewrite HsL. by rewrite andb_false_r.
Qed.

Lemma yields_next_at_rest h n r a v rest ks pr :
  yields_next NoExcept h n r a v rest ->
  chain h r r a ks ->
  h !! r = Some pr -> m_root pr = r ->
  NoDup (a :: ks.*1) -> Forall (fun x => x < n) ks.*1 ->
  Forall (admissible NoExcept) ks.*2 ->
  exists L kL ks', at_rest NoExcept h r L kL ks' (Some v)
    /\ produce_stack (kL :: ks'.*2) = and_next rest (produce_stack ks.*2).
Proof.
  intros (L & kL & seg & pL & pr' & HL & HsL & HvL & HrL & HqL & Hr' & Hleaf & Hch
          & Hfresh & Hnd & HntL & Hntseg & Hflat) Hks Hr Hrr Hndks Hbound Hntks.
  rewrite Hr in Hr'. injection Hr' as <-.
  exists L, kL, (seg ++ ks). split.
  - exists pL, pr. repeat (split; [done|]).
    split; [by eapply chain_app|]. split.
    + rewrite fmap_app, app_comm_cons. apply NoDup_app. split; [done|]. split.
      * intros x Hx Hx'. rewrite list.Forall_forall in Hfresh, Hbound.
        apply NoDup_cons in Hndks as [Hp _].
        destruct (Hfresh x Hx) as [->|Hge]; [done|].
        specialize (Hbound x Hx'). lia.
      * by apply NoDup_cons in Hndks as [_ ?].
    + split; [done|]. rewrite fmap_app. by apply Forall_app.
  - rewrite fmap_app, app_comm_cons, produce_stack_app. by rewrite Hflat.
Qed.

Lemma pulled_yield h r v vs ox (l : production (T := T)) :
  (exists L kL ks', at_rest NoExcept h r L kL ks' (Some v)
     /\ produce_stack (kL :: ks'.*2) = and_next (vs, ox) l) ->
  pulled NoExcept h r (and_next (v :: vs, ox) l).
Proof.
  intros H. rewrite and_next_cons. unfold pulled.
  destruct H as (L & kL & ks' & Hrest & Heq). exists L, kL, ks'.
  split; [done|]. rewrite Heq. by destruct (and_next (vs, ox) l).
Qed.

Lemma run_then_loop r ks : forall a k h pa pr,
  h !! a = Some pa -> live pa -> m_root pa = r -> quiet pa ->
  h !! r = Some pr -> live pr -> m_parentOrLeaf pr = a -> m_root pr = r ->
  admissible NoExcept k ->
  chain h r r a ks -> NoDup (a :: ks.*1) ->
  Forall (admissible NoExcept) ks.*2 ->
  exists h1, run NoExcept a k h = Ok h1 /\ length h <= length h1 /\
    forall fuel, length ks <= fuel ->
      exists h', pull_loop moved_from NoExcept fuel r h1 = Ok h'
                 /\ pulled NoExcept h' r (produce_stack (k :: ks.*2)).
Proof.
  induction ks as [|[p0 k0] ks IH];
    intros a k h pa pr Ha Hla Hra Hqa Hr Hlr Hleaf Hrr Hnt Hch Hnd Hntks.
  - (* the root itself runs *)
    assert (a = r) as -> by (by inversion Hch).
    rewrite Ha in Hr. injection Hr as <-.
    destruct (run_spec k r r h pa pa) as (h1 & Hrun & Hlen & Hk & Hpost);
      try done.
    exists h1. split; [done|]. split; [done|]. intros fuel _.
    change (produce_stack (k :: ([] : list (addr * body T)).*2))
      with (and_next (produce k) (([], None) : production (T := T))).
    destruct (Hk r pa) as (pr1 & Hr1 & Hrr1 & _); [by eapply lookup_lt_Some|done|].
    destruct (produce k) as [[|v vs] ox] eqn:Hfk.
    + destruct Hpost as (pa' & pr' & Ha' & Hs' & Hx' & Hr' & Hleaf').
      rewrite Hr1 in Ha'. injection Ha' as <-.
      exists h1. split.
      * rewrite pull_loop_unfold.
        rewrite (load_ok _ _ _ Hr1) by (unfold live; congruence). cbn.
        rewrite Hr1 in Hr'. injection Hr' as <-. rewrite Hleaf'.
        unfold is_complete.
        rewrite (load_ok _ _ _ Hr1) by (unfold live; congruence). cbn.
        by rewrite Nat.eqb_refl.
      * rewrite and_next_end. exists pr1. split; [done|]. split; [done|].
        split; [done|]. intros Hn.
        rewrite (nothrow_produce k (Hnt Hn)) in Hfk. congruence.
    + pose proof (yields_next_at_rest _ _ _ _ _ _ [] pr1 Hpost) as Hp.
      specialize (Hp (chain_top _ _ _) Hr1 (eq_trans Hrr1 Hrr) Hnd).
      specialize (Hp (Forall_nil_2 _) (Forall_nil_2 _)).
      destruct Hp as (L & kL & ks' & Hrest & Hfl).
      exists h1. split; [by eapply pull_loop_stops|].
      apply pulled_yield. exists L, kL, ks'. done.
  - (* a nested coroutine runs *)
    cbn in Hnd, Hntks.
    apply Forall_cons in Hntks as [Hnt0 Hntks].
    pose proof Hnd as Hnd'. apply NoDup_cons in Hnd' as [Hnot Hnd0].
    destruct (run_spec k a r h pa pr) as (h1 & Hrun & Hlen & Hk & Hpost);
      try done.
    exists h1. split; [done|]. split; [done|].
    assert (Hch1 : chain h1 r r a ((p0, k0) :: ks)).
    { eapply chain_keeps; [exact Hch|exact Hk|by eapply lookup_lt_Some|].
      pose proof (chain_bound _ _ _ _ _ Hch) as Hb.
      rewrite list.Forall_forall in Hb. rewrite list.Forall_forall.
      intros x Hx. split; [by apply Hb|]. intros ->. done. }
    assert (Hbound : Forall (fun x => x < length h) ks.*1).
    { pose proof (chain_bound _ _ _ _ _ Hch) as Hb. cbn in Hb.
      by apply Forall_cons in Hb as [_ ?]. }
    destruct (chain_cons_inv _ _ _ _ _ _ _ Hch1)
      as (Har & pa1 & pp1 & Ha1 & Hpar & Hp1 & Hsp1 & Hrp1 & Hqp1 & Hch1').
    destruct (Hk r pr) as (pr1 & Hr1 & Hrr1 & Hsb1 & _);
      [by eapply lookup_lt_Some|done|].
    destruct Hsb1 as [Hsr1 Hbr1]; [done|].
    intros fuel Hfuel. cbn in Hfuel.
    change (((p0, k0) :: ks).*2) with (k0 :: ks.*2).
    rewrite (produce_stack_cons k).
    destruct (chain_cons_inv _ _ _ _ _ _ _ Hch) as (_ & _ & _ & _ & _ & _ & _ & _ & _ & Hch0).
    destruct (produce k) as [[|v vs] ox] eqn:Hfk.
    + (* it completes: ascend *)
      destruct Hpost as (pa' & pr' & Ha' & Hs' & Hx' & Hr' & Hleaf').
      rewrite Ha1 in Ha'. injection Ha' as <-.
      rewrite Hr1 in Hr'. injection Hr' as <-.
      destruct fuel as [|fuel]; [lia|].
      assert (Hlr1 : live pr1) by (unfold live in *; rewrite Hsr1; done).
      set (bx := (ExceptionPromise.rethrow_if_exception moved_from NoExcept
                    (base pa1)).1).
      set (h2 := <[r := set_parentOrLeaf p0 pr1]> h1).
      set (pa3 := set_base bx pa1).
      set (h3 := <[a := pa3]> h2).
      set (h4 := <[a := set_state destroyed pa3]> h3).
      assert (Ha1lt : a < length h1) by (by eapply lookup_lt_Some).
      assert (Hr1lt : r < length h1) by (by eapply lookup_lt_Some).
      assert (Hp0a : p0 <> a) by (intros Heq; apply Hnot; rewrite Heq; left).
      assert (Hh2a : h2 !! a = Some pa1).
      { unfold h2. by rewrite list_lookup_insert_ne. }
      assert (Hh3a : h3 !! a = Some pa3).
      { unfold h3. rewrite list_lookup_insert_eq; [done|]. unfold h2.
        by rewrite length_insert. }
      assert (Hh2p : exists pp2, h2 !! p0 = Some pp2 /\ state pp2 = awaiting_child a k0
                       /\ m_root pp2 = r /\ quiet pp2).
      { unfold h2. destruct (decide (p0 = r)) as [Heq|Hne].
        - exists (set_parentOrLeaf p0 pr1). rewrite <- Heq at 1.
          rewrite list_lookup_insert_eq by lia. split; [done|].
          rewrite Heq in Hp1. rewrite Hr1 in Hp1. injection Hp1 as <-. done.
        - exists pp1. rewrite list_lookup_insert_ne by done. done. }
      destruct Hh2p as (pp2 & Hh2p & Hsp2 & Hrp2 & Hqp2).
      assert (Hh4p : h4 !! p0 = Some pp2).
      { unfold h4, h3. by rewrite !list_lookup_insert_ne. }
      assert (Hh4r : h4 !! r = Some (set_parentOrLeaf p0 pr1)).
      { unfold h4, h3. rewrite !list_lookup_insert_ne by done. unfold h2.
        by rewrite list_lookup_insert_eq. }
      assert (Hch4 : chain h4 r r p0 ks).
      { unfold h4, h3. apply chain_insert_other; [|done].
        apply chain_insert_other; [|done].
        eapply (chain_keeps (length h) p0 r); [exact Hch1'| | |].
        - unfold h2. eapply keeps_insert; [done|]. intros _. cbn. tauto.
        - pose proof (chain_bound _ _ _ _ _ Hch) as Hb. cbn in Hb.
          by apply Forall_cons in Hb as [? _].
        - rewrite list.Forall_forall in Hbound. rewrite list.Forall_forall.
          intros x Hx. split; [by apply Hbound|]. intros ->.
          by apply NoDup_cons in Hnd0 as [? _]. }
      assert (Hstep : forall k1,
        pull_loop moved_from NoExcept (S fuel) r h1 =
        (h5 ← (match ox with
               | Some e => unhandled NoExcept p0 e h4
               | None => run NoExcept p0 k1 h4
               end);
         pull_loop moved_from NoExcept fuel r h5) -> k1 = k0 ->
        exists h', pull_loop moved_from NoExcept (S fuel) r h1 = Ok h' /\
          pulled NoExcept h' r (and_next ([], ox) (produce_stack (k0 :: ks.*2)))).
      { intros k1 Heq ->.
        destruct ox as [e|].
        - assert (Hn : NoExcept = false) by exact (admissible_ending _ _ _ Hnt Hfk).
          destruct (IH p0 (throws e) h4 pp2 (set_parentOrLeaf p0 pr1))
            as (h5 & Hrun5 & Hlen5 & Hloop5); try done.
          { unfold live. rewrite Hsp2. done. }
          { cbn. congruence. }
          { by apply admissible_fallible. }
          destruct (Hloop5 fuel) as (h' & Hloop & Hpulled); [lia|].
          exists h'. split; [|done].
          rewrite Heq. cbn in Hrun5. rewrite Hrun5. done.
        - destruct (IH p0 k0 h4 pp2 (set_parentOrLeaf p0 pr1))
            as (h5 & Hrun5 & Hlen5 & Hloop5); try done.
          { unfold live. rewrite Hsp2. done. }
          { cbn. congruence. }
          destruct (Hloop5 fuel) as (h' & Hloop & Hpulled); [lia|].
          exists h'. split; [|by rewrite and_next_nil].
          rewrite Heq. rewrite Hrun5. done. }
      apply (Hstep k0); [|done].
      rewrite pull_loop_unfold. rewrite (load_ok _ _ _ Hr1 Hlr1). cbn.
      rewrite Hleaf'. unfold is_complete.
      rewrite (load_ok _ _ _ Ha1) by (unfold live; congruence). cbn.
      unfold complete at 1. rewrite Hs'.
      apply Nat.eqb_neq in Har. rewrite Har. cbn.
      rewrite Hpar. rewrite (store_ok _ _ _ _ Hr1 Hlr1). cbn. fold h2.
      unfold resume.
      rewrite (load_ok _ _ _ Hh2p) by (unfold live; rewrite Hsp2; done). cbn.
      rewrite Hsp2. rewrite (load_ok _ _ _ Hh2a) by (unfold live; congruence). cbn.
      destruct ox as [e|].
      * assert (Hn : NoExcept = false) by exact (admissible_ending _ _ _ Hnt Hfk).
        unfold h4, h3, pa3, bx.
        rewrite (rethrow_failure _ e Hn Hx'). cbn.
        unfold destroy. erewrite store_ok;
          [|apply list_lookup_insert_eq; unfold h2; by rewrite length_insert
           |unfold live; cbn; congruence].
        cbn. by rewrite Hn.
      * unfold h4, h3, pa3, bx. rewrite (rethrow_quiet _ Hx'). cbn.
        unfold destroy. erewrite store_ok;
          [|apply list_lookup_insert_eq; unfold h2; by rewrite length_insert
           |unfold live; cbn; congruence].
        done.
    + (* it yields: stop *)
      pose proof (yields_next_at_rest _ _ _ _ _ _ ((p0, k0) :: ks) pr1 Hpost Hch1 Hr1
                    (eq_trans Hrr1 Hrr) Hnd) as Hp.
      change (((p0, k0) :: ks).*2) with (k0 :: ks.*2) in Hp.
      destruct Hp as (L & kL & ks' & Hrest & Hfl).
      { cbn. constructor; [|done].
        pose proof (chain_bound _ _ _ _ _ Hch) as Hb. cbn in Hb.
        by apply Forall_cons in Hb as [? _]. }
      { cbn. by constructor. }
      exists h1. split; [by eapply pull_loop_stops|].
      apply pulled_yield. exists L, kL, ks'. done.
Qed.

(** *** One pull, and the loop of the consumer *)

Lemma pull_spec h r L kL ks ov :
  at_rest NoExcept h r L kL ks ov ->
  exists h', pull moved_from NoExcept r h = Ok h'
             /\ pulled NoExcept h' r (produce_stack (kL :: ks.*2)).
Proof.
  intros Hrest.
  destruct (at_rest_root_live _ _ _ _ _ _ Hrest) as (pr & Hr & Hlr & _ & Hrr & Hleaf).
  destruct Hrest as (pL & pr' & HL & HsL & _ & HrL & HqL & Hr' & _ & _ & Hch & Hnd
                     & HntL & Hntks).
  assert (HlL : live pL) by (unfold live; congruence).
  destruct (run_then_loop r ks L kL h pL pr)
    as (h1 & Hrun & Hlen & Hloop); try done.
  destruct (Hloop (length h1)) as (h' & Hl & Hp).
  { etrans; [|exact Hlen]. rewrite <- (length_fmap fst).
    apply NoDup_bounded_length.
    - by apply NoDup_cons in Hnd as [_ ?].
    - by eapply chain_bound. }
  exists h'. split; [|done].
  unfold pull. rewrite (load_ok _ _ _ Hr Hlr). cbn.
  rewrite Hrr, Nat.eqb_refl. cbn. rewrite Hleaf.
  unfold is_complete. rewrite (load_ok _ _ _ HL HlL). cbn.
  unfold complete. rewrite HsL. unfold resume.
  rewrite (load_ok _ _ _ HL HlL). cbn. rewrite HsL, Hrun. done.
Qed.

Lemma root_complete_increment h r ox :
  root_complete NoExcept h r ox ->
  exists h', is_complete r h = Ok true
    /\ RecursiveGenerator.rethrow_if_exception moved_from NoExcept r h
       = Ok (h', match ox with Some e => Throw e | None => Return tt end)
    /\ (NoExcept = true -> ox = None).
Proof.
  intros (pr & Hr & Hs & Hq & Hn).
  assert (Hl : live pr) by (unfold live; congruence).
  unfold is_complete, RecursiveGenerator.rethrow_if_exception.
  rewrite (load_ok _ _ _ Hr Hl). cbn. unfold complete. rewrite Hs.
  destruct ox as [e|].
  - assert (Hf : NoExcept = false) by (destruct NoExcept; [by specialize (Hn eq_refl)|done]).
    eexists. split; [done|]. split; [|done].
    by rewrite (rethrow_failure _ e Hf Hq).
  - eexists. split; [done|]. split; [|done]. by rewrite (rethrow_quiet _ Hq).
Qed.

Lemma at_rest_deref h r L kL ks v :
  at_rest NoExcept h r L kL ks (Some v) ->
  is_complete r h = Ok false /\ value r h = Ok v.
Proof.
  intros Hrest.
  destruct (at_rest_root_live _ _ _ _ _ _ Hrest) as (pr & Hr & Hlr & Hc & Hrr & Hleaf).
  destruct Hrest as (pL & pr' & HL & HsL & HvL & _).
  unfold is_complete, value. rewrite (load_ok _ _ _ Hr Hlr). cbn.
  rewrite Hc, Hrr, Nat.eqb_refl, Hleaf. cbn.
  rewrite (load_ok _ _ _ HL) by (unfold live; congruence). cbn.
  by rewrite HvL.
Qed.

Lemma for_loop_spec r vs : forall h L kL ks v n ox,
  at_rest NoExcept h r L kL ks (Some v) ->
  produce_stack (kL :: ks.*2) = (vs, ox) ->
  for_loop (S (length vs + n)) (h, {| it_promise := Some r |})
  = {| values := v :: vs; effects := []; outcome := ending_of ox |}.
Proof.
  induction vs as [|w vs IH]; intros h L kL ks v n ox Hrest Hfl.
  - destruct (at_rest_deref _ _ _ _ _ _ Hrest) as [Hc Hv].
    destruct (pull_spec _ _ _ _ _ _ Hrest) as (h' & Hpull & Hp).
    rewrite Hfl in Hp. cbn in Hp.
    destruct (root_complete_increment _ _ _ Hp) as (h'' & Hc' & Hre & Hn).
    cbn. rewrite Hv, Hc. cbn. rewrite Hpull. cbn. rewrite Hc'. cbn.
    rewrite Hre. cbn. destruct ox as [e|]; cbn.
    + destruct NoExcept; [by specialize (Hn eq_refl)|done].
    + by destruct n, NoExcept.
  - destruct (at_rest_deref _ _ _ _ _ _ Hrest) as [Hc Hv].
    destruct (pull_spec _ _ _ _ _ _ Hrest) as (h' & Hpull & Hp).
    rewrite Hfl in Hp. destruct Hp as (L' & kL' & ks' & Hrest' & Hfl').
    destruct (at_rest_deref _ _ _ _ _ _ Hrest') as [Hc' _].
    change (for_loop (S (length (w :: vs) + n)) (h, {| it_promise := Some r |}))
      with (for_loop (S (S (length vs + n))) (h, {| it_promise := Some r |})).
    remember (S (length vs + n)) as fuel.
    cbn. rewrite Hv, Hc. cbn. rewrite Hpull. cbn. rewrite Hc'. cbn.
    subst fuel. rewrite (IH _ _ _ _ _ _ _ Hrest' Hfl'). done.
Qed.

(** The loop over a generator observes what its body produces. *)
Lemma for_each_spec b (h0 : heap T) n :
  admissible NoExcept b ->
  for_each (length (produce b).1 + n) (coroutine_call b h0)
  = {| values := (produce b).1; effects := [];
       outcome := ending_of (produce b).2 |}.
Proof.
  intros Hnt. unfold coroutine_call, allocate.
  set (r := length h0). set (h := h0 ++ [promise_type_new r b]).
  assert (Hr : h !! r = Some (promise_type_new r b)) by (by apply list_lookup_middle).
  assert (Hrest : at_rest NoExcept h r r b [] None).
  { exists (promise_type_new r b), (promise_type_new r b).
    repeat (split; [done|]). split; [constructor|]. split; [apply NoDup_singleton|].
    split; [done|constructor]. }
  destruct (pull_spec _ _ _ _ _ _ Hrest) as (h' & Hpull & Hp).
  change (produce_stack (b :: ([] : list (addr * body T)).*2))
    with (and_next (produce b) (([], None) : production (T := T))) in Hp.
  rewrite and_next_end in Hp.
  destruct (produce b) as [[|v vs] ox] eqn:Hfb.
  - destruct (root_complete_increment _ _ _ Hp) as (h'' & Hc' & Hre & Hn).
    unfold for_each. cbn. rewrite Hpull. cbn.
    rewrite Hc'. cbn. rewrite Hre. cbn. destruct ox as [e|]; cbn.
    + destruct NoExcept; [by specialize (Hn eq_refl)|done].
    + by destruct n, NoExcept.
  - destruct Hp as (L' & kL' & ks' & Hrest' & Hfl').
    destruct (at_rest_deref _ _ _ _ _ _ Hrest') as [Hc' _].
    change (length (v :: vs, ox).1 + n) with (S (length vs + n)).
    remember (S (length vs + n)) as fuel.
    unfold for_each. cbn. rewrite Hpull. cbn.
    rewrite Hc'. cbn. subst fuel.
    rewrite (for_loop_spec r vs _ _ _ _ _ _ _ Hrest' Hfl'). by destruct NoExcept.
Qed.

(** Without a [throw] the loop observes the flattened elements and the
    normal end. *)
Lemma for_each_flatten b (h0 : heap T) n :
  nothrow b = true ->
  for_each (length (flatten b) + n) (coroutine_call b h0)
  = {| values := flatten b; effects := []; outcome := finished |}.
Proof.
  intros Hnt. pose proof (for_each_spec b h0 n (admissible_nothrow b Hnt)) as H.
  by rewrite (nothrow_produce b Hnt) in H.
Qed.

(** *** Descending *)

(** Yielding a nested generator whose body yields [v] first. *)
Lemma run_descends a h pa pr v kc k :
  h !! a = Some pa -> live pa ->
  h !! m_root pa = Some pr -> live pr ->
  let r := m_root pa in
  let c := length h in
  exists h' pa' pr',
    run NoExcept a (co_yield_generator (co_yield v kc) k) h = Ok h'
    /\ h' !! c = Some {| base := ExceptionPromise.init; m_value := Some v;
                         m_root := r; m_parentOrLeaf := a;
                         state := suspended kc |}
    /\ h' !! r = Some pr' /\ m_parentOrLeaf pr' = c
    /\ h' !! a = Some pa' /\ state pa' = awaiting_child c k.
Proof.
  intros Ha Hla Hr Hlr r c. fold r in Hr.
  assert (Han : a < c) by (by eapply lookup_lt_Some).
  assert (Hrn : r < c) by (by eapply lookup_lt_Some).
  set (new := promise_type_new c (co_yield v kc)).
  set (h1 := h ++ [new]).
  set (h2 := <[r := set_parentOrLeaf c pr]> h1).
  set (h3 := <[c := set_root r new]> h2).
  set (h4 := <[c := set_parentOrLeaf a (set_root r new)]> h3).
  set (pc := set_state (suspended kc)
               (set_value (Some v) (set_parentOrLeaf a (set_root r new)))).
  set (h5 := <[c := pc]> h4).
  assert (Hlen1 : length h1 = S c) by (unfold h1; rewrite length_app; cbn; lia).
  assert (Hlen5 : length h5 = S c).
  { unfold h5, h4, h3, h2. by rewrite !length_insert. }
  assert (Hh5c : h5 !! c = Some pc).
  { unfold h5. rewrite list_lookup_insert_eq; [done|].
    unfold h4, h3, h2. rewrite !length_insert. lia. }
  assert (Hh5o : forall x, x <> c -> h5 !! x = h2 !! x).
  { intros x Hx. unfold h5, h4, h3. by rewrite !list_lookup_insert_ne. }
  assert (Hh2r : h2 !! r = Some (set_parentOrLeaf c pr)).
  { unfold h2. rewrite list_lookup_insert_eq; [done|lia]. }
  assert (Hh5a : exists pa5, h5 !! a = Some pa5 /\ state pa5 = state pa).
  { rewrite Hh5o by lia. unfold h2. destruct (decide (a = r)) as [Heq|Hne].
    - rewrite Heq. rewrite list_lookup_insert_eq by lia. eexists. split; [done|].
      cbn. rewrite Heq in Ha. congruence.
    - rewrite list_lookup_insert_ne by done. exists pa. split; [|done].
      by apply lookup_app_l_Some. }
  destruct Hh5a as (pa5 & Hh5a & Hs5a).
  set (h6 := <[a := set_state (awaiting_child c k) pa5]> h5).
  exists h6, (set_state (awaiting_child c k) pa5),
    (if decide (r = a) then set_state (awaiting_child c k) pa5
     else set_parentOrLeaf c pr).
  split.
  { cbn. unfold allocate. fold c. fold new. fold h1.
    rewrite (load_ok h1 a pa) by (done || by apply lookup_app_l_Some). cbn. fold r.
    rewrite (store_ok h1 r pr) by (done || by apply lookup_app_l_Some). cbn. fold h2.
    rewrite (store_ok h2 c new); [|unfold h2; rewrite list_lookup_insert_ne by lia;
                                     by apply list_lookup_middle|done].
    cbn. fold h3.
    rewrite (store_ok h3 c (set_root r new));
      [|unfold h3; rewrite list_lookup_insert_eq; [done|unfold h2; rewrite length_insert; lia]
       |done].
    cbn. fold h4.
    rewrite (store_ok h4 c (set_parentOrLeaf a (set_root r new)));
      [|unfold h4; rewrite list_lookup_insert_eq;
          [done|unfold h3, h2; rewrite !length_insert; lia]
       |done].
    cbn. fold pc. fold h5.
    unfold is_complete. rewrite (load_ok _ _ _ Hh5c) by done. cbn.
    rewrite (store_ok _ _ _ _ Hh5a) by (unfold live in *; congruence). done. }
  unfold h6. split.
  { rewrite list_lookup_insert_ne by lia. done. }
  split.
  { destruct (decide (r = a)) as [->|Hne].
    - rewrite list_lookup_insert_eq; [done|by eapply lookup_lt_Some].
    - rewrite list_lookup_insert_ne by done. rewrite Hh5o by lia. done. }
  split.
  { destruct (decide (r = a)) as [Heq|Hne]; [|done]. cbn.
    rewrite <- Heq, Hh5o, Hh2r in Hh5a by lia. by injection Hh5a as <-. }
  split; [|done].
  rewrite list_lookup_insert_eq; [done|by eapply lookup_lt_Some].
Qed.


(** *** Productions and flattened elements *)

Lemma produce_yields_then (pre : list T) b :
  produce (foldr co_yield b pre) = and_next (pre, None) (produce b).
Proof.
  induction pre as [|v pre IH]; [by rewrite and_next_nil|].
  cbn [foldr produce]. rewrite IH. rewrite <- and_next_assoc. done.
Qed.

Lemma produce_nil_flatten b ox : produce b = ([], ox) -> flatten b = [].
Proof.
  revert ox.
  induction b as [|v k IH|k IH|child IHc k IHk|e]; intros ox;
    cbn [produce flatten].
  - done.
  - by destruct (produce k).
  - apply IH.
  - destruct (produce child) as [[|v vs] oy].
    + intros Hk. by rewrite (IHc oy), (IHk ox).
    + by destruct oy, (produce k).
  - done.
Qed.

(** The elements produced are the first of the flattened elements, and all
    of them when no failure ends the production. *)
Lemma produce_flatten b :
  exists rest, flatten b = (produce b).1 ++ rest
               /\ ((produce b).2 = None -> rest = []).
Proof.
  induction b as [|v k IH|k IH|child IHc k IHk|e]; cbn [produce flatten].
  - by exists [].
  - destruct IH as (rest & Hfl & Hend). exists rest.
    rewrite and_next_cons, and_next_nil. cbn. by rewrite Hfl.
  - done.
  - destruct IHc as (restc & Hflc & Hendc). destruct IHk as (restk & Hflk & Hendk).
    destruct (produce child) as [[|v vs] [e|]] eqn:Hc.
    + exists restk. rewrite (produce_nil_flatten _ _ Hc). done.
    + exists restk. rewrite (produce_nil_flatten _ _ Hc). done.
    + exists (restc ++ flatten k). cbn in *. split; [|done].
      rewrite Hflc. cbn. by rewrite app_assoc.
    + exists restk. cbn in *. rewrite Hflc, (Hendc eq_refl), app_nil_r.
      split; [|done]. rewrite Hflk. cbn. by rewrite app_assoc.
  - by exists [].
Qed.

Lemma ending_of_inj (ox oy : option exn) : ending_of ox = ending_of oy -> ox = oy.
Proof. destruct ox, oy; cbn; congruence. Qed.

(** What a loop with enough fuel observes of a generator is what its body
    produces. *)
Lemma observed_production b (h0 : heap T) vs ox :
  admissible NoExcept b ->
  (forall n, for_each (length vs + n) (coroutine_call b h0)
             = {| values := vs; effects := []; outcome := ending_of ox |}) ->
  produce b = (vs, ox).
Proof.
  intros Hadm Hobs.
  pose proof (for_each_spec b h0 (length vs) Hadm) as Hspec.
  rewrite Nat.add_comm, (Hobs (length (produce b).1)) in Hspec.
  injection Hspec as Hv Ho. apply ending_of_inj in Ho.
  destruct (produce b). cbn in *. congruence.
Qed.

Lemma for_each_prefix b (h0 : heap T) n :
  admissible NoExcept b ->
  exists rest,
    flatten b = values (for_each (length (flatten b) + n) (coroutine_call b h0)) ++ rest
    /\ effects (for_each (length (flatten b) + n) (coroutine_call b h0)) = []
    /\ (outcome (for_each (length (flatten b) + n) (coroutine_call b h0)) = finished
        -> rest = []).
Proof.
  intros Hadm. destruct (produce_flatten b) as (rest & Hfl & Hend).
  exists rest.
  assert (Hfuel : length (flatten b) + n = length (produce b).1 + (length rest + n)).
  { rewrite Hfl at 1. rewrite length_app. lia. }
  rewrite Hfuel, (for_each_spec b h0 _ Hadm). cbn.
  split; [done|]. split; [done|]. intros Ho. apply Hend.
  by destruct (produce b).2.
Qed.

(** A nested generator that fails before its first element: the loop
    observes what it observes of the body without that [co_yield]. *)
Lemma for_each_failure_lost (pre : list T) child k e ws o (h0 h1 : heap T) n :
  NoExcept = false ->
  (forall m, for_each m (coroutine_call child h0)
             = {| values := []; effects := []; outcome := raised e |}) ->
  (forall m, for_each (length ws + m) (coroutine_call (foldr co_yield k pre) h1)
             = {| values := ws; effects := []; outcome := o |}) ->
  for_each (length ws + n)
    (coroutine_call (foldr co_yield (co_yield_generator child k) pre) h1)
  = {| values := ws; effects := []; outcome := o |}.
Proof.
  intros Hn Hobs Hrest.
  assert (Hc : produce child = ([], Some e)).
  { apply (observed_production child h0 [] (Some e)); [by apply admissible_fallible|].
    intros m. apply Hobs. }
  assert (Hp : produce (foldr co_yield (co_yield_generator child k) pre)
               = produce (foldr co_yield k pre)).
  { rewrite !produce_yields_then. cbn [produce]. by rewrite Hc. }
  pose proof (for_each_spec (foldr co_yield k pre) h1 (length ws)
                (admissible_fallible _ Hn)) as Hspec.
  rewrite Nat.add_comm, Hrest in Hspec. injection Hspec as Hv Ho.
  pose proof (for_each_spec (foldr co_yield (co_yield_generator child k) pre) h1 n
                (admissible_fallible _ Hn)) as Hfull.
  rewrite Hp, <- Hv, <- Ho in Hfull. done.
Qed.

(** A nested generator that fails after its first element: the loop sees
    the elements before the failure, then the failure. *)
Lemma for_each_failure_surfaces (pre : list T) child k v vs e (h0 h1 : heap T) n :
  NoExcept = false ->
  (forall m, for_each (length (v :: vs) + m) (coroutine_call child h0)
             = {| values := v :: vs; effects := []; outcome := raised e |}) ->
  for_each (length (pre ++ v :: vs) + n)
    (coroutine_call (foldr co_yield (co_yield_generator child k) pre) h1)
  = {| values := pre ++ v :: vs; effects := []; outcome := raised e |}.
Proof.
  intros Hn Hobs.
  assert (Hc : produce child = (v :: vs, Some e)).
  { by apply (observed_production child h0 (v :: vs) (Some e));
      [apply admissible_fallible|]. }
  assert (Hp : produce (foldr co_yield (co_yield_generator child k) pre)
               = (pre ++ v :: vs, Some e)).
  { rewrite produce_yields_then. cbn [produce]. by rewrite Hc. }
  pose proof (for_each_spec (foldr co_yield (co_yield_generator child k) pre) h1 n
                (admissible_fallible _ Hn)) as Hspec.
  by rewrite Hp in Hspec.
Qed.

End flattening_facts.

End RecursiveGeneratorFacts.

(** ** Recursive generator: the elements *)

(** C2.  A loop over a recursive generator whose bodies do not throw
    produces the elements of the body with those of every nested generator
    spliced in at its [co_yield], to any depth, in order, and then ends.  In
    every generator that can run (any body when fallible, a body that does
    not throw when no-fail) the elements observed are the first of these
    flattened elements, in order, and all of them when the loop ends
    normally.  When a body yields a nested generator whose body first yields
    [v], the nested promise is allocated, its [m_root] is the root of the
    chain and its [m_parentOrLeaf] the yielding promise, the root's
    [m_parentOrLeaf] points to it, it has been resumed and stands after its
    [co_yield] with [v] in its [m_value], and the yielding coroutine is
    suspended waiting for it.  A generator that yields 1, then the nested
    sequence 2, 3, then 4 produces 1, 2, 3, 4. *)
Theorem nested_generators_are_flattened :
  (forall (T : Type) (moved_from : exception_ptr -> exception_ptr)
          (NoExcept : bool) (b : RecursiveGenerator.body T)
          (h0 : RecursiveGenerator.heap T) (n : nat),
     let R := RecursiveGenerator.recursive_generator_range moved_from NoExcept in
     RecursiveGenerator.nothrow b = true ->
     for_each (length (RecursiveGenerator.flatten b) + n)
       (RecursiveGenerator.coroutine_call b h0)
     = {| values := RecursiveGenerator.flatten b; effects := [];
          outcome := finished |})
  /\ (forall (T : Type) (moved_from : exception_ptr -> exception_ptr)
          (NoExcept : bool) (b : RecursiveGenerator.body T)
          (h0 : RecursiveGenerator.heap T) (n : nat),
     let R := RecursiveGenerator.recursive_generator_range moved_from NoExcept in
     let o := for_each (length (RecursiveGenerator.flatten b) + n)
                (RecursiveGenerator.coroutine_call b h0) in
     RecursiveGenerator.admissible NoExcept b ->
     exists rest,
       RecursiveGenerator.flatten b = values o ++ rest
       /\ effects o = []
       /\ (outcome o = finished -> rest = []))
  /\ (forall (T : Type) (NoExcept : bool) (a : RecursiveGenerator.addr)
          (h : RecursiveGenerator.heap T) (pa pr : RecursiveGenerator.promise_type T)
          (v : T) (kc k : RecursiveGenerator.body T),
     h !! a = Some pa -> RecursiveGenerator.live pa ->
     h !! RecursiveGenerator.m_root pa = Some pr -> RecursiveGenerator.live pr ->
     let r := RecursiveGenerator.m_root pa in
     let c := length h in
     exists h' pa' pr',
       RecursiveGenerator.run NoExcept a
         (RecursiveGenerator.co_yield_generator
            (RecursiveGenerator.co_yield v kc) k) h = Ok h'
       /\ h' !! c = Some {| RecursiveGenerator.base := ExceptionPromise.init;
                            RecursiveGenerator.m_value := Some v;
                            RecursiveGenerator.m_root := r;
                            RecursiveGenerator.m_parentOrLeaf := a;
                            RecursiveGenerator.state :=
                              RecursiveGenerator.suspended kc |}
       /\ h' !! r = Some pr' /\ RecursiveGenerator.m_parentOrLeaf pr' = c
       /\ h' !! a = Some pa'
       /\ RecursiveGenerator.state pa' = RecursiveGenerator.awaiting_child c k)
  /\ (forall (moved_from : exception_ptr -> exception_ptr) (NoExcept : bool) (n : nat),
     let R := RecursiveGenerator.recursive_generator_range moved_from NoExcept in
     for_each (4 + n) (RecursiveGenerator.coroutine_call Examples.one_nested_four [])
     = {| values := [1; 2; 3; 4]; effects := []; outcome := finished |}).
Proof.
  split; [|split; [|split]].
  - intros. by apply RecursiveGeneratorFacts.for_each_flatten.
  - intros. by apply RecursiveGeneratorFacts.for_each_prefix.
  - intros. by eapply RecursiveGeneratorFacts.run_descends.
  - intros.
    apply (RecursiveGeneratorFacts.for_each_flatten moved_from NoExcept
             Examples.one_nested_four [] n).
    reflexivity.
Qed.

(** C2, at the generator that yields 1, then the nested sequence 2, 3, then
    4: its bodies do not throw. *)
Lemma nested_generators_are_flattened_witness :
  let R := RecursiveGenerator.recursive_generator_range (T := nat)
             ExceptionPromise.moved_from_null false in
  RecursiveGenerator.nothrow Examples.one_nested_four = true
  /\ for_each (4 + 0) (RecursiveGenerator.coroutine_call Examples.one_nested_four [])
     = {| values := [1; 2; 3; 4]; effects := []; outcome := finished |}.
Proof.
  split; [reflexivity|].
  apply (proj1 nested_generators_are_flattened nat ExceptionPromise.moved_from_null
           false Examples.one_nested_four [] 0).
  reflexivity.
Defined.

(** ** Recursive generator: failures *)

(** X1.  What a loop over a recursive generator observes, failures included,
    where every body, the nested ones too, is a sequence of [co_yield]s of
    values and of nested generators ended by a return or by a throw, with no
    [try] block around a [co_yield] (a [body] has no term for one): the
    elements the body produces, and then the end of the sequence or the
    failure that ended the production.  A nested generator contributes its
    elements and, once it has yielded, its failure; the failure of a nested
    generator that has not yielded is dropped and the body goes on. *)
Theorem recursive_generator_loop_observes_production
  (T : Type) (moved_from : exception_ptr -> exception_ptr) (NoExcept : bool)
  (b : RecursiveGenerator.body T) (h0 : RecursiveGenerator.heap T) (n : nat) :
  let R := RecursiveGenerator.recursive_generator_range moved_from NoExcept in
  RecursiveGenerator.admissible NoExcept b ->
  for_each (length (RecursiveGenerator.produce b).1 + n)
    (RecursiveGenerator.coroutine_call b h0)
  = {| values := (RecursiveGenerator.produce b).1; effects := [];
       outcome := RecursiveGenerator.ending_of (RecursiveGenerator.produce b).2 |}.
Proof. intros R Hadm. by apply RecursiveGeneratorFacts.for_each_spec. Qed.

(** At the generator that fails at depth three. *)
Lemma recursive_generator_loop_observes_production_witness :
  let R := RecursiveGenerator.recursive_generator_range (T := nat)
             ExceptionPromise.moved_from_null false in
  RecursiveGenerator.admissible false Examples.fails_at_depth_three
  /\ for_each (3 + 0) (RecursiveGenerator.coroutine_call Examples.fails_at_depth_three [])
     = {| values := [1; 2; 3]; effects := []; outcome := raised (user_error 7) |}.
Proof.
  assert (Hadm : RecursiveGenerator.admissible false Examples.fails_at_depth_three)
    by (intros H; discriminate H).
  split; [exact Hadm|].
  exact (recursive_generator_loop_observes_production nat
           ExceptionPromise.moved_from_null false Examples.fails_at_depth_three
           [] 0 Hadm).
Defined.

(** C7.  In a fallible recursive generator, a nested generator that fails
    before its first element is complete when [yield_value] has resumed it:
    the parent is handed [awaitable{nullptr}], whose [await_resume()] does
    not look at the promise of the nested generator, and the loop observes
    exactly what it observes of the body without that [co_yield]: the failure
    never surfaces and the elements after it are produced.  The root that
    yields 1, then such a generator, then 2 gives 1, 2 and the end of the
    sequence.  A nested generator that fails after its first element is
    suspended when [yield_value] looks at it: its failure is rethrown in the
    parent when the parent is resumed, and the loop observes the elements
    before the failure, then the failure, and nothing after it; so at depth
    three. *)
Theorem failure_of_a_nested_generator_can_be_lost :
  (forall (T : Type) (moved_from : exception_ptr -> exception_ptr)
          (pre : list T) (child k : RecursiveGenerator.body T) (e : exn)
          (ws : list T) (o : ending) (h0 h1 : RecursiveGenerator.heap T) (n : nat),
     let R := RecursiveGenerator.recursive_generator_range moved_from false in
     (forall m, for_each m (RecursiveGenerator.coroutine_call child h0)
                = {| values := []; effects := []; outcome := raised e |}) ->
     (forall m, for_each (length ws + m)
                  (RecursiveGenerator.coroutine_call
                     (foldr RecursiveGenerator.co_yield k pre) h1)
                = {| values := ws; effects := []; outcome := o |}) ->
     for_each (length ws + n)
       (RecursiveGenerator.coroutine_call
          (foldr RecursiveGenerator.co_yield
             (RecursiveGenerator.co_yield_generator child k) pre) h1)
     = {| values := ws; effects := []; outcome := o |})
  /\ (forall (moved_from : exception_ptr -> exception_ptr),
     let R := RecursiveGenerator.recursive_generator_range (T := nat) moved_from false in
     for_each 10 (RecursiveGenerator.coroutine_call Examples.nested_fails_at_once [])
     = {| values := [1; 2]; effects := []; outcome := finished |})
  /\ (forall (T : Type) (moved_from : exception_ptr -> exception_ptr)
          (pre : list T) (child k : RecursiveGenerator.body T) (v : T)
          (vs : list T) (e : exn) (h0 h1 : RecursiveGenerator.heap T) (n : nat),
     let R := RecursiveGenerator.recursive_generator_range moved_from false in
     (forall m, for_each (length (v :: vs) + m)
                  (RecursiveGenerator.coroutine_call child h0)
                = {| values := v :: vs; effects := []; outcome := raised e |}) ->
     for_each (length (pre ++ v :: vs) + n)
       (RecursiveGenerator.coroutine_call
          (foldr RecursiveGenerator.co_yield
             (RecursiveGenerator.co_yield_generator child k) pre) h1)
     = {| values := pre ++ v :: vs; effects := []; outcome := raised e |})
  /\ (forall (moved_from : exception_ptr -> exception_ptr),
     let R := RecursiveGenerator.recursive_generator_range (T := nat) moved_from false in
     for_each 10 (RecursiveGenerator.coroutine_call Examples.fails_at_depth_three [])
     = {| values := [1; 2; 3]; effects := []; outcome := raised (user_error 7) |}).
Proof.
  split; [|split; [|split]].
  - intros. by eapply RecursiveGeneratorFacts.for_each_failure_lost.
  - reflexivity.
  - intros. by eapply RecursiveGeneratorFacts.for_each_failure_surfaces.
  - reflexivity.
Qed.

(** C7, at the failing input: the nested generator throws [user_error 7]
    before its first [co_yield], between the elements 1 and 2 of the root. *)
Lemma failure_of_a_nested_generator_can_be_lost_witness :
  let R := RecursiveGenerator.recursive_generator_range (T := nat)
             ExceptionPromise.moved_from_null false in
  for_each 0 (RecursiveGenerator.coroutine_call
                (RecursiveGenerator.throws (user_error 7)) [])
  = {| values := []; effects := []; outcome := raised (user_error 7) |}
  /\ for_each (2 + 0)
       (RecursiveGenerator.coroutine_call
          (foldr RecursiveGenerator.co_yield
             (RecursiveGenerator.co_yield 2 RecursiveGenerator.co_return) [1]) [])
     = {| values := [1; 2]; effects := []; outcome := finished |}
  /\ for_each (2 + 0)
       (RecursiveGenerator.coroutine_call
          (foldr RecursiveGenerator.co_yield
             (RecursiveGenerator.co_yield_generator
                (RecursiveGenerator.throws (user_error 7))
                (RecursiveGenerator.co_yield 2 RecursiveGenerator.co_return)) [1]) [])
     = {| values := [1; 2]; effects := []; outcome := finished |}.
Proof.
  split; [reflexivity|]. split; [reflexivity|].
  apply (proj1 failure_of_a_nested_generator_can_be_lost nat
           ExceptionPromise.moved_from_null [1]
           (RecursiveGenerator.throws (user_error 7))
           (RecursiveGenerator.co_yield 2 RecursiveGenerator.co_return)
           (user_error 7) [1; 2] finished [] [] 0).
  - intros m. reflexivity.
  - intros m. destruct m; reflexivity.
Defined.

(** * Further properties *)

(** ** Task: what the specializations of the promise store *)

(** X2.  Every specialization of [task_promise] gives back from [result()]
    the value that [return_value] stored, the promise unchanged (for
    [task<void>], [result()] after [return_void()] returns normally).  An
    exception that leaves the body is captured by [unhandled_exception()]
    and thrown by [result()] in the fallible specializations, and
    terminates the program in the no-fail ones.  [result()] of a promise in
    which nothing was stored is undefined for the specializations that
    hold a value. *)
Theorem task_promise_round_trip :
  (forall (T : Type) (v : T) (e : exn) (p : Task.Fallible.task_promise T),
     Task.Fallible.result (Task.Fallible.return_value v p)
       = Ok (Task.Fallible.return_value v p, Return v)
     /\ (exists p1, Task.Fallible.unhandled_exception e p = Ok p1
                    /\ Task.Fallible.result p1 = Ok (p1, Throw e))
     /\ Task.Fallible.result (Task.Fallible.task_promise_new (T := T))
        = Fault undefined)
  /\ (forall (T : Type) (v : T) (e : exn) (p : Task.NoFail.task_promise T),
     Task.NoFail.result (Task.NoFail.return_value v p)
       = Ok (Task.NoFail.return_value v p, Return v)
     /\ Task.NoFail.unhandled_exception e p = Fault terminated
     /\ Task.NoFail.result (Task.NoFail.task_promise_new (T := T))
        = Fault undefined)
  /\ (forall (moved_from : exception_ptr -> exception_ptr) (NoExcept : bool)
          (e : exn),
     Task.Void.result moved_from NoExcept
       (Task.Void.return_void ExceptionPromise.init)
       = Ok (ExceptionPromise.init, Return tt)
     /\ (if NoExcept
         then ExceptionPromise.unhandled_exception NoExcept e ExceptionPromise.init
              = Fault terminated
         else exists p1,
              ExceptionPromise.unhandled_exception NoExcept e ExceptionPromise.init
                = Ok p1
              /\ exists p2, Task.Void.result moved_from NoExcept p1
                             = Ok (p2, Throw e)))
  /\ (forall (T : Type) (moved_from : exception_ptr -> exception_ptr)
          (NoExcept : bool) (v : T) (e : exn),
     let new := Task.Ref.task_promise_new (T := T) in
     Task.Ref.result moved_from NoExcept (Task.Ref.return_value v new)
       = Ok (Task.Ref.return_value v new, Return v)
     /\ (if NoExcept
         then Task.Ref.unhandled_exception NoExcept e new = Fault terminated
         else exists p1,
              Task.Ref.unhandled_exception NoExcept e new = Ok p1
              /\ exists p2, Task.Ref.result moved_from NoExcept p1
                             = Ok (p2, Throw e))
     /\ Task.Ref.result moved_from NoExcept new = Fault undefined).
Proof.
  split; [|split; [|split]].
  - intros. split; [done|]. split; [|done]. by eexists.
  - done.
  - intros. split.
    + unfold Task.Void.result, ExceptionPromise.rethrow_if_exception. cbn.
      by destruct NoExcept.
    + destruct NoExcept; [done|]. eexists. split; [done|]. by eexists.
  - intros. split; [|split].
    + unfold Task.Ref.result, ExceptionPromise.rethrow_if_exception. cbn.
      by destruct NoExcept.
    + destruct NoExcept; [done|]. eexists. split; [done|]. by eexists.
    + unfold Task.Ref.result, ExceptionPromise.rethrow_if_exception. cbn.
      by destruct NoExcept.
Qed.

(** ** Task: awaiting *)

Section await_facts.

Variable SYMMETRIC_TRANSFER : bool.
Context {P V St : Type} `{!Task.TaskPromise P V}.
Variable body : St -> list effect * Task.body_step V St.
Variable c : Task.continuation.

#[local] Abbreviation frame := (Task.coroutine_frame P St).
#[local] Abbreviation awaitable_at f := {| Task.aw_coroutine := Some f |}.
#[local] Abbreviation co_await := (Task.co_await SYMMETRIC_TRANSFER body c).
#[local] Abbreviation resume := (Task.resume SYMMETRIC_TRANSFER body).

#[local] Abbreviation registered := (Task.registered SYMMETRIC_TRANSFER c).

(** X3.  A task whose body runs to its [co_return] without suspending: [co_await]
    runs the body and comes back with the value at once, in both builds.
    Without symmetric transfer the task finds no continuation registered and
    resumes nothing, and [await_suspend] returns false; with symmetric
    transfer the final awaitable hands the continuation back, which is the
    one resumption of the awaiting coroutine.  The task is ready
    afterwards. *)
Theorem await_of_a_task_that_completes_at_once (f : frame) s effs v p' :
  Task.state f = Task.suspended s ->
  Task.promise_base f = Task.task_promise_base_new ->
  body s = (effs, Task.co_return v) ->
  Task.promise_result (Task.promise_return v (Task.promise f)) = Ok (p', Return v) ->
  exists f',
    co_await (awaitable_at f)
    = (effs, Ok (awaitable_at f', (if SYMMETRIC_TRANSFER then [c] else []),
                 Task.completed (Return v)))
    /\ Task.done f' = true /\ Task.promise f' = p'.
Proof.
  intros Hs Hb Hbody Hres.
  unfold Task.co_await, Task.awaitable_await_ready, Task.done. cbn. rewrite Hs.
  unfold Task.awaitable_await_suspend, Task.resume.
  destruct SYMMETRIC_TRANSFER; cbn; rewrite Hs, Hbody; cbn.
  - rewrite bool_decide_eq_true_2 by (apply list_elem_of_singleton; done).
    unfold Task.awaitable_await_resume. cbn. rewrite Hres. cbn.
    eexists. split; [by destruct Task.NoExcept|]. done.
  - rewrite Hb. cbn.
    unfold Task.awaitable_await_resume. cbn. rewrite Hres. cbn.
    eexists. split; [by destruct Task.NoExcept|]. done.
Qed.

Lemma await_suspends (f : frame) s effs s' :
  Task.state f = Task.suspended s ->
  Task.promise_base f = Task.task_promise_base_new ->
  body s = (effs, Task.co_await_suspended s') ->
  exists f',
    co_await (awaitable_at f)
    = (effs, Ok (awaitable_at f', [], Task.still_suspended))
    /\ registered f' /\ Task.state f' = Task.suspended s'
    /\ Task.promise f' = Task.promise f.
Proof.
  intros Hs Hb Hbody.
  unfold Task.co_await, Task.awaitable_await_ready, Task.done. cbn. rewrite Hs.
  unfold Task.awaitable_await_suspend, Task.resume, Task.registered.
  destruct SYMMETRIC_TRANSFER; cbn; rewrite Hs, Hbody; cbn.
  - eexists. split; [done|]. cbn. done.
  - rewrite Hb. cbn. eexists. split; [done|]. cbn. done.
Qed.

Lemma resume_registered_suspends (f : frame) s effs s' :
  registered f ->
  Task.state f = Task.suspended s ->
  body s = (effs, Task.co_await_suspended s') ->
  exists f', resume f = (effs, Ok (f', []))
             /\ registered f' /\ Task.state f' = Task.suspended s'
             /\ Task.promise f' = Task.promise f.
Proof.
  intros Hreg Hs Hbody. unfold Task.resume. rewrite Hs, Hbody.
  eexists. split; [done|]. done.
Qed.

Lemma resume_registered_returns (f : frame) s effs v :
  registered f ->
  Task.state f = Task.suspended s ->
  body s = (effs, Task.co_return v) ->
  exists f', resume f = (effs, Ok (f', [c]))
             /\ Task.done f' = true
             /\ Task.promise f' = Task.promise_return v (Task.promise f).
Proof.
  intros [Hc Hst] Hs Hbody. unfold Task.resume. rewrite Hs, Hbody.
  unfold Task.final_suspend, Task.final_await_suspend,
    Task.final_await_suspend_symmetric, Task.resume_continuation.
  destruct SYMMETRIC_TRANSFER; cbn.
  - rewrite Hc. cbn. eexists. done.
  - rewrite (Hst eq_refl). cbn. rewrite Hc. cbn. eexists. done.
Qed.

Lemma resume_registered_throws (f : frame) s effs e p1 :
  registered f ->
  Task.state f = Task.suspended s ->
  body s = (effs, Task.throws e) ->
  Task.promise_unhandled_exception e (Task.promise f) = Ok p1 ->
  exists f', resume f = (effs, Ok (f', [c]))
             /\ Task.done f' = true /\ Task.promise f' = p1.
Proof.
  intros [Hc Hst] Hs Hbody Hun. unfold Task.resume. rewrite Hs, Hbody, Hun.
  unfold Task.final_suspend, Task.final_await_suspend,
    Task.final_await_suspend_symmetric, Task.resume_continuation.
  destruct SYMMETRIC_TRANSFER; cbn.
  - rewrite Hc. cbn. eexists. done.
  - rewrite (Hst eq_refl). cbn. rewrite Hc. cbn. eexists. done.
Qed.

Lemma await_fails_at_once (f : frame) s effs e p1 p2 :
  Task.state f = Task.suspended s ->
  Task.promise_base f = Task.task_promise_base_new ->
  body s = (effs, Task.throws e) ->
  Task.promise_unhandled_exception e (Task.promise f) = Ok p1 ->
  Task.promise_result p1 = Ok (p2, Throw e) ->
  Task.NoExcept = false ->
  exists f1 f2 resumed,
    co_await (awaitable_at f)
    = (effs, Ok (awaitable_at f2, resumed, Task.completed (Throw e)))
    /\ Task.co_await_when_ready SYMMETRIC_TRANSFER body c (awaitable_at f)
       = (effs, Ok (awaitable_at f1, resumed, Some (Return tt)))
    /\ Task.promise f1 = p1 /\ Task.done f1 = true
    /\ co_await (awaitable_at f1)
       = ([], Ok (awaitable_at f2, [], Task.completed (Throw e))).
Proof.
  intros Hs Hb Hbody Hun Hres Hn.
  unfold Task.co_await, Task.co_await_when_ready, Task.awaitable_await_ready,
    Task.done. cbn. rewrite Hs.
  unfold Task.awaitable_await_suspend, Task.resume.
  destruct SYMMETRIC_TRANSFER; cbn; rewrite Hs, Hbody, Hun; cbn.
  - rewrite bool_decide_eq_true_2 by (apply list_elem_of_singleton; done).
    unfold Task.awaitable_await_resume. cbn. rewrite Hres, Hn. cbn.
    do 3 eexists. split; [done|]. split; [done|]. cbn. by rewrite Hres.
  - rewrite Hb. cbn.
    unfold Task.awaitable_await_resume. cbn. rewrite Hres, Hn. cbn.
    do 3 eexists. split; [done|]. split; [done|]. cbn. by rewrite Hres.
Qed.

Lemma await_terminates (f : frame) s effs e :
  Task.state f = Task.suspended s ->
  body s = (effs, Task.throws e) ->
  Task.promise_unhandled_exception e (Task.promise f) = Fault terminated ->
  co_await (awaitable_at f) = (effs, Fault terminated)
  /\ Task.co_await_when_ready SYMMETRIC_TRANSFER body c (awaitable_at f)
     = (effs, Fault terminated).
Proof.
  intros Hs Hbody Hun.
  unfold Task.co_await, Task.co_await_when_ready, Task.awaitable_await_ready,
    Task.done. cbn. rewrite Hs.
  unfold Task.awaitable_await_suspend, Task.resume.
  destruct SYMMETRIC_TRANSFER; cbn; by rewrite Hs, Hbody, Hun.
Qed.

(** X6.  Awaiting a task that is ready does not suspend: [co_await] runs no
    body, resumes nothing and comes back with the result, a failure or a
    fault at once; [co_await] of its [when_ready()] returns normally and
    leaves the task as it is. *)
Theorem ready_task_is_not_suspended (t : Task.task P St) :
  Task.is_ready t = true ->
  match co_await (Task.operator_co_await t) with
  | (effs, Ok (_, resumed, r)) =>
      effs = [] /\ resumed = [] /\ r <> Task.still_suspended
  | (effs, Fault _) => effs = []
  end
  /\ Task.co_await_when_ready SYMMETRIC_TRANSFER body c (Task.when_ready t)
     = ([], Ok (Task.when_ready t, [], Some (Return tt))).
Proof.
  intros Hr. unfold Task.co_await, Task.co_await_when_ready,
    Task.operator_co_await, Task.when_ready, Task.awaitable_await_ready. cbn.
  unfold Task.is_ready in Hr. rewrite Hr. split; [|done].
  destruct (Task.awaitable_await_resume _) as [[a []]|]; cbn; done.
Qed.

(** X4.  Once [co_await] has left the awaiting coroutine suspended, its handle is
    registered in the promise of the task; every later resumption of the
    task that ends in another suspension resumes nothing and keeps the
    registration, and the resumption in which the body returns or throws
    resumes the awaiting coroutine, exactly once, with the task done and the
    outcome stored.  So in both builds. *)
Theorem registered_continuation_is_resumed_on_completion :
  (forall (f : frame) s effs s',
     Task.state f = Task.suspended s ->
     Task.promise_base f = Task.task_promise_base_new ->
     body s = (effs, Task.co_await_suspended s') ->
     exists f',
       co_await (awaitable_at f)
       = (effs, Ok (awaitable_at f', [], Task.still_suspended))
       /\ registered f' /\ Task.state f' = Task.suspended s'
       /\ Task.promise f' = Task.promise f)
  /\ (forall (f : frame) s effs s',
     registered f ->
     Task.state f = Task.suspended s ->
     body s = (effs, Task.co_await_suspended s') ->
     exists f', resume f = (effs, Ok (f', []))
                /\ registered f' /\ Task.state f' = Task.suspended s'
                /\ Task.promise f' = Task.promise f)
  /\ (forall (f : frame) s effs v,
     registered f ->
     Task.state f = Task.suspended s ->
     body s = (effs, Task.co_return v) ->
     exists f', resume f = (effs, Ok (f', [c]))
                /\ Task.done f' = true
                /\ Task.promise f' = Task.promise_return v (Task.promise f))
  /\ (forall (f : frame) s effs e p1,
     registered f ->
     Task.state f = Task.suspended s ->
     body s = (effs, Task.throws e) ->
     Task.promise_unhandled_exception e (Task.promise f) = Ok p1 ->
     exists f', resume f = (effs, Ok (f', [c]))
                /\ Task.done f' = true /\ Task.promise f' = p1).
Proof.
  split; [|split; [|split]].
  - apply await_suspends.
  - apply resume_registered_suspends.
  - apply resume_registered_returns.
  - apply resume_registered_throws.
Qed.

(** X5.  A task whose body throws [e] before it suspends.  When the promise
    captures the failure (a fallible task), [co_await] throws [e] out of
    [await_resume], at the await point; [co_await] of [when_ready()] runs
    the body just the same but returns normally and leaves the failure in
    the promise, where a later [co_await] of the task finds it.  When
    [unhandled_exception()] terminates (a no-fail task), both end the
    program. *)
Theorem task_failure_surfaces_at_the_await_point :
  (forall (f : frame) s effs e p1 p2,
     Task.state f = Task.suspended s ->
     Task.promise_base f = Task.task_promise_base_new ->
     body s = (effs, Task.throws e) ->
     Task.promise_unhandled_exception e (Task.promise f) = Ok p1 ->
     Task.promise_result p1 = Ok (p2, Throw e) ->
     Task.NoExcept = false ->
     exists f1 f2 resumed,
       co_await (awaitable_at f)
       = (effs, Ok (awaitable_at f2, resumed, Task.completed (Throw e)))
       /\ Task.co_await_when_ready SYMMETRIC_TRANSFER body c (awaitable_at f)
          = (effs, Ok (awaitable_at f1, resumed, Some (Return tt)))
       /\ Task.promise f1 = p1 /\ Task.done f1 = true
       /\ co_await (awaitable_at f1)
          = ([], Ok (awaitable_at f2, [], Task.completed (Throw e))))
  /\ (forall (f : frame) s effs e,
     Task.state f = Task.suspended s ->
     body s = (effs, Task.throws e) ->
     Task.promise_unhandled_exception e (Task.promise f) = Fault terminated ->
     co_await (awaitable_at f) = (effs, Fault terminated)
     /\ Task.co_await_when_ready SYMMETRIC_TRANSFER body c (awaitable_at f)
        = (effs, Fault terminated)).
Proof.
  split.
  - apply await_fails_at_once.
  - apply await_terminates.
Qed.

End await_facts.

(** At the fallible task whose body has the effect 1 and returns 5. *)
Lemma await_of_a_task_that_completes_at_once_witness :
  let body := Examples.task_script 5 in
  let f := {| Task.promise_base := Task.task_promise_base_new;
              Task.promise := Task.Fallible.task_promise_new (T := nat);
              Task.state := Task.suspended [Examples.task_does 1] |} in
  exists f',
    Task.co_await false body 7 {| Task.aw_coroutine := Some f |}
    = ([1], Ok ({| Task.aw_coroutine := Some f' |}, [], Task.completed (Return 5)))
    /\ Task.done f' = true
    /\ Task.promise f' = Task.Fallible.return_value 5 Task.Fallible.task_promise_new.
Proof.
  cbv zeta.
  eapply (await_of_a_task_that_completes_at_once false
            (Examples.task_script 5) 7 _ [Examples.task_does 1] [1] 5);
    reflexivity.
Defined.

(** At the completed fallible task that holds 5. *)
Lemma ready_task_is_not_suspended_witness :
  let body := Examples.task_script 5 in
  let f := {| Task.promise_base := Task.task_promise_base_new;
              Task.promise := Task.Fallible.return_value 5
                                (Task.Fallible.task_promise_new (T := nat));
              Task.state := Task.at_final_suspend (St := list Examples.task_statement) |} in
  let t := {| Task.m_coroutine := Some f |} in
  Task.is_ready t = true
  /\ match Task.co_await false body 7 (Task.operator_co_await t) with
     | (effs, Ok (_, resumed, r)) =>
         effs = [] /\ resumed = [] /\ r <> Task.still_suspended
     | (effs, Fault _) => effs = []
     end
  /\ Task.co_await_when_ready false body 7 (Task.when_ready t)
     = ([], Ok (Task.when_ready t, [], Some (Return tt))).
Proof.
  cbv zeta. split; [reflexivity|].
  apply (ready_task_is_not_suspended false (Examples.task_script 5) 7).
  reflexivity.
Defined.

(** At the fallible task that has the effect 1, suspends, has the effect 2
    and returns 5. *)
Lemma registered_continuation_is_resumed_on_completion_witness :
  let body := Examples.task_script 5 in
  let f := {| Task.promise_base := Task.task_promise_base_new;
              Task.promise := Task.Fallible.task_promise_new (T := nat);
              Task.state := Task.suspended
                [Examples.task_does 1; Examples.task_awaits; Examples.task_does 2] |} in
  let f1 := {| Task.promise_base :=
                 {| Task.m_continuation := Some 7; Task.m_state := true |};
               Task.promise := Task.Fallible.task_promise_new (T := nat);
               Task.state := Task.suspended [Examples.task_does 2] |} in
  (exists f',
     Task.co_await false body 7 {| Task.aw_coroutine := Some f |}
     = ([1], Ok ({| Task.aw_coroutine := Some f' |}, [], Task.still_suspended))
     /\ Task.registered false 7 f'
     /\ Task.state f' = Task.suspended [Examples.task_does 2]
     /\ Task.promise f' = Task.promise f)
  /\ Task.registered false 7 f1
  /\ (exists f', Task.resume false body f1 = ([2], Ok (f', [7]))
        /\ Task.done f' = true
        /\ Task.promise f' = Task.Fallible.return_value 5 Task.Fallible.task_promise_new).
Proof.
  cbv zeta.
  pose proof (registered_continuation_is_resumed_on_completion false
                (P := Task.Fallible.task_promise nat)
                (Examples.task_script 5) 7) as (Hawait & _ & Hreturn & _).
  assert (Hreg : Task.registered false 7
            {| Task.promise_base :=
                 {| Task.m_continuation := Some 7; Task.m_state := true |};
               Task.promise := Task.Fallible.task_promise_new (T := nat);
               Task.state := Task.suspended [Examples.task_does 2] |})
    by (split; reflexivity).
  split; [|split; [exact Hreg|]].
  - eapply Hawait; reflexivity.
  - eapply (Hreturn _ [Examples.task_does 2] [2] 5 Hreg); reflexivity.
Defined.

(** At the fallible task whose body has the effect 1 and throws. *)
Lemma task_failure_surfaces_at_the_await_point_witness :
  let body := Examples.task_script 5 in
  let e := user_error 3 in
  let f := {| Task.promise_base := Task.task_promise_base_new;
              Task.promise := Task.Fallible.task_promise_new (T := nat);
              Task.state := Task.suspended
                [Examples.task_does 1; Examples.task_fails e] |} in
  exists f1 f2 resumed,
    Task.co_await false body 7 {| Task.aw_coroutine := Some f |}
    = ([1], Ok ({| Task.aw_coroutine := Some f2 |}, resumed,
                Task.completed (Throw e)))
    /\ Task.co_await_when_ready false body 7 {| Task.aw_coroutine := Some f |}
       = ([1], Ok ({| Task.aw_coroutine := Some f1 |}, resumed, Some (Return tt)))
    /\ Task.promise f1
       = {| Task.Fallible.m_resultType := Task.Fallible.rt_exception;
            Task.Fallible.m_union := Task.Fallible.member_exception (Some e) |}
    /\ Task.done f1 = true
    /\ Task.co_await false body 7 {| Task.aw_coroutine := Some f1 |}
       = ([], Ok ({| Task.aw_coroutine := Some f2 |}, [],
                  Task.completed (Throw e))).
Proof.
  cbv zeta.
  eapply (proj1 (task_failure_surfaces_at_the_await_point false
                   (P := Task.Fallible.task_promise nat)
                   (Examples.task_script 5) 7)
            _ [Examples.task_does 1; Examples.task_fails (user_error 3)] [1]
            (user_error 3));
    reflexivity.
Defined.

(** ** Generator: begin() and the loop *)

Section begin_facts.

Variable moved_from : exception_ptr -> exception_ptr.
Context {T St : Type}.
Variable NoExcept : bool.
Variable body : St -> list effect * Generator.body_step T St.

#[local] Abbreviation frame := (Generator.coroutine_frame T St).
#[local] Abbreviation generator_at f := {| Generator.m_coroutine := Some f |}.
#[local] Abbreviation iterator_at f := {| Generator.it_coroutine := Some f |}.

#[local] Instance the_generator_range
  : Range (Generator.generator T St) (Generator.generator_iterator T St) T :=
  Generator.generator_range moved_from NoExcept body.

(** [begin()] does what [operator++] does. *)
Lemma begin_as_increment (f : frame) :
  Generator.begin moved_from NoExcept body (generator_at f)
  = (let '(effs, r) := Generator.iterator_increment moved_from NoExcept body
                         (iterator_at f) in
     (effs,
      match r with
      | Ok (it, Return _) =>
          Ok ({| Generator.m_coroutine := Generator.it_coroutine it |}, Return it)
      | Ok (it, Throw e) =>
          Ok ({| Generator.m_coroutine := Generator.it_coroutine it |}, Throw e)
      | Fault x => Fault x
      end)).
Proof.
  unfold Generator.begin, Generator.iterator_increment. cbn.
  destruct (Generator.resume NoExcept body f) as [effs [f'|x]]; cbn; [|done].
  destruct (Generator.done f'); cbn; [|by destruct NoExcept].
  destruct (Generator.rethrow_if_exception moved_from NoExcept f') as [f'' [[]|e]];
    cbn; by destruct NoExcept.
Qed.

(** A loop that starts with [begin()] on a generator standing at an element
    goes on with the next element. *)
Lemma for_loop_as_for_each (f : frame) s v fuel :
  Generator.state f = Generator.suspended s ->
  Generator.m_value (Generator.promise f) = Some v ->
  for_loop (S fuel) (iterator_at f)
  = and_then [v] [] (for_each fuel (generator_at f)).
Proof.
  intros Hs Hv. unfold for_each. cbn [for_loop range_begin range_at_end
    range_deref range_incr the_generator_range Generator.generator_range].
  rewrite begin_as_increment.
  destruct (Generator.iterator_increment moved_from NoExcept body (iterator_at f))
    as [effs [[it [[]|e]]|x]];
    unfold Generator.iterator_eq_sentinel, Generator.done,
      Generator.iterator_deref, Generator.value; cbn; rewrite Hs, Hv;
    unfold and_then, observe; cbn; by rewrite ?app_nil_r.
Qed.

End begin_facts.

(** ** Generator: the loop over a straight-line body *)

Lemma and_then_nil {T : Type} (o : observation T) : and_then [] [] o = o.
Proof. by destruct o. Qed.

Section script_facts.

Variable moved_from : exception_ptr -> exception_ptr.
Context {T : Type}.
Variable NoExcept : bool.

#[local] Abbreviation script_frame :=
  (Generator.coroutine_frame T (list (Examples.statement T))).
#[local] Abbreviation at_statement f s :=
  ({| Generator.promise := Generator.promise f;
      Generator.state := Generator.suspended s |} : script_frame).

#[local] Instance script_range
  : Range (Generator.generator T (list (Examples.statement T)))
          (Generator.generator_iterator T (list (Examples.statement T))) T :=
  Generator.generator_range moved_from NoExcept Examples.script.

Lemma for_each_script (s : list (Examples.statement T)) :
  forall (f : script_frame) (n : nat),
  ExceptionPromise.m_exception (Generator.base (Generator.promise f)) = None ->
  for_each (length (values (Examples.script_observation NoExcept s)) + n)
    {| Generator.m_coroutine := Some (at_statement f s) |}
  = Examples.script_observation NoExcept s.
Proof.
  induction s as [|[v|x|e] k IH]; intros f n Hq.
  - unfold for_each. cbn. unfold Generator.begin, Generator.resume. cbn.
    unfold Generator.rethrow_if_exception, ExceptionPromise.rethrow_if_exception.
    cbn. rewrite Hq. by destruct NoExcept, n.
  - change (length (values (Examples.script_observation NoExcept
                              (Examples.yields v :: k))) + n)
      with (S (length (values (Examples.script_observation NoExcept k)) + n)).
    set (f' := Generator.yielded f v k).
    trans (for_loop (S (length (values (Examples.script_observation NoExcept k)) + n))
             {| Generator.it_coroutine := Some f' |}).
    { generalize (S (length (values (Examples.script_observation NoExcept k)) + n)).
      intros fuel.
      unfold for_each. cbn [range_begin script_range Generator.generator_range].
      unfold Generator.begin, Generator.resume. cbn.
      destruct NoExcept; cbn; apply and_then_nil. }
    rewrite (for_loop_as_for_each moved_from NoExcept Examples.script f' k v)
      by done.
    cbn [Examples.script_observation]. f_equal.
    apply (IH f' n). exact Hq.
  - cbn [Examples.script_observation].
    change (values (and_then [] [x] (Examples.script_observation NoExcept k)))
      with (values (Examples.script_observation NoExcept k)).
    rewrite <- (IH f n Hq) at 2.
    generalize (length (values (Examples.script_observation NoExcept k)) + n).
    intros fuel.
    unfold for_each. cbn [range_begin script_range Generator.generator_range].
    unfold Generator.begin, Generator.resume. cbn.
    destruct (Examples.script k) as [effs r]. cbn.
    destruct (noexcept NoExcept _) as [[g [it|e]]|y]; cbn; done.
  - unfold for_each. cbn. unfold Generator.begin, Generator.resume. cbn.
    destruct NoExcept; cbn; [done|].
    unfold Generator.rethrow_if_exception, ExceptionPromise.rethrow_if_exception.
    by cbn.
Qed.

End script_facts.

(** X7.  A generator whose body is a list of [co_yield]s, effects and [throw]s:
    a loop with room for its elements observes the yielded values in
    order, the effects in order, and then the end of the sequence; at the
    first [throw] a fallible generator hands the exception to the consumer,
    after the elements and effects before it, and a no-fail generator ends
    the program. *)
Theorem generator_loop_observes_script
  (T : Type) (moved_from : exception_ptr -> exception_ptr) (NoExcept : bool)
  (s : list (Examples.statement T)) (n : nat) :
  let R := Generator.generator_range moved_from NoExcept Examples.script in
  exists g,
    Generator.coroutine_call NoExcept Examples.script s = ([], Ok g)
    /\ for_each (length (values (Examples.script_observation NoExcept s)) + n) g
       = Examples.script_observation NoExcept s.
Proof.
  intros R. eexists. split; [reflexivity|].
  apply (for_each_script moved_from NoExcept s
           {| Generator.promise := {| Generator.base := ExceptionPromise.init;
                                      Generator.m_value := None |};
              Generator.state := Generator.suspended s |} n).
  reflexivity.
Qed.

(** ** begin() on a started generator *)

Section recursive_begin_facts.

Variable moved_from : exception_ptr -> exception_ptr.
Context {T : Type}.
Variable NoExcept : bool.

Lemma recursive_begin_as_increment (h : RecursiveGenerator.heap T)
  (a : RecursiveGenerator.addr) :
  RecursiveGenerator.is_complete a h = Ok false ->
  let g := {| RecursiveGenerator.m_promise := Some a |} in
  RecursiveGenerator.begin moved_from NoExcept (h, g)
  = match RecursiveGenerator.iterator_increment moved_from NoExcept
            (h, {| RecursiveGenerator.it_promise := Some a |}) with
    | Ok ((h', it), Return _) => Ok ((h', g), Return (h', it))
    | Ok ((h', it), Throw e) => Ok ((h', g), Throw e)
    | Fault x => Fault x
    end.
Proof.
  intros Hc g. unfold RecursiveGenerator.begin,
    RecursiveGenerator.iterator_increment. cbn. rewrite Hc. cbn.
  destruct (RecursiveGenerator.pull moved_from NoExcept a h) as [h'|x]; cbn;
    [|done].
  destruct (RecursiveGenerator.is_complete a h') as [[]|x]; cbn;
    [|by destruct NoExcept|done].
  destruct (RecursiveGenerator.rethrow_if_exception moved_from NoExcept a h')
    as [[h'' [[]|e]]|x]; cbn; by destruct NoExcept.
Qed.

End recursive_begin_facts.

(** X8.  [begin()] does not start a sequence over: on a generator whose coroutine
    is suspended it does what [operator++] does, resume the coroutine and
    rethrow a failure when it has come to its end, and returns an iterator
    at the element after the current one, or at the end.  So for a
    generator and, when its root is not complete, for a recursive
    generator. *)
Theorem begin_is_an_increment :
  (forall (T St : Type) (moved_from : exception_ptr -> exception_ptr)
          (NoExcept : bool) (body : St -> list effect * Generator.body_step T St)
          (f : Generator.coroutine_frame T St),
     Generator.begin moved_from NoExcept body {| Generator.m_coroutine := Some f |}
     = (let '(effs, r) := Generator.iterator_increment moved_from NoExcept body
                            {| Generator.it_coroutine := Some f |} in
        (effs,
         match r with
         | Ok (it, Return _) =>
             Ok ({| Generator.m_coroutine := Generator.it_coroutine it |}, Return it)
         | Ok (it, Throw e) =>
             Ok ({| Generator.m_coroutine := Generator.it_coroutine it |}, Throw e)
         | Fault x => Fault x
         end)))
  /\ (forall (T : Type) (moved_from : exception_ptr -> exception_ptr)
          (NoExcept : bool) (h : RecursiveGenerator.heap T)
          (a : RecursiveGenerator.addr),
     RecursiveGenerator.is_complete a h = Ok false ->
     let g := {| RecursiveGenerator.m_promise := Some a |} in
     RecursiveGenerator.begin moved_from NoExcept (h, g)
     = match RecursiveGenerator.iterator_increment moved_from NoExcept
               (h, {| RecursiveGenerator.it_promise := Some a |}) with
       | Ok ((h', it), Return _) => Ok ((h', g), Return (h', it))
       | Ok ((h', it), Throw e) => Ok ((h', g), Throw e)
       | Fault x => Fault x
       end).
Proof.
  split.
  - intros. apply begin_as_increment.
  - intros. by apply recursive_begin_as_increment.
Qed.

(** At the recursive generator that yields 1 and 2, after its first
    [begin()]: the second [begin()] returns an iterator at 2. *)
Lemma begin_is_an_increment_witness :
  let mf := ExceptionPromise.moved_from_null in
  let g := {| RecursiveGenerator.m_promise := Some 0 |} in
  exists h1 h2,
    RecursiveGenerator.begin mf false
      (RecursiveGenerator.coroutine_call (Examples.elements [1; 2]) [])
    = Ok ((h1, g), Return (h1, {| RecursiveGenerator.it_promise := Some 0 |}))
    /\ RecursiveGenerator.is_complete 0 h1 = Ok false
    /\ RecursiveGenerator.begin mf false (h1, g)
       = Ok ((h2, g), Return (h2, {| RecursiveGenerator.it_promise := Some 0 |}))
    /\ RecursiveGenerator.value 0 h2 = Ok 2.
Proof.
  cbv zeta. do 2 eexists. split; [reflexivity|]. split; [reflexivity|].
  split.
  - rewrite (proj2 begin_is_an_increment nat ExceptionPromise.moved_from_null false)
      by reflexivity.
    reflexivity.
  - reflexivity.
Defined.

(** ** fmap: composition *)

Section fmap_composition.

Context {Src It T U W : Type} `{!Range Src It T}.
Variable moved_from : exception_ptr -> exception_ptr.
Variables (func : T -> U) (func' : U -> W).

Lemma map_observation_compose (o : observation T) :
  map_observation func' (map_observation func o)
  = map_observation (func' ∘ func) o.
Proof. unfold map_observation. cbn. by rewrite <- list_fmap_compose. Qed.

Lemma map_observation_id (o : observation T) : map_observation id o = o.
Proof. destruct o. unfold map_observation. cbn. by rewrite list_fmap_id. Qed.

End fmap_composition.

(** X9.  Mapping twice is mapping the composition, and mapping the identity
    changes nothing: a loop over [fmap(func', fmap(func, source))] observes
    what a loop over [fmap(func' ∘ func, source)] observes, the elements of
    the source with both functions applied, with the same effects and the
    same ending; a loop over [fmap(id, source)] observes what a loop over
    the source observes.  So for a generator and for a recursive
    generator as the source. *)
Theorem fmap_composes :
  (forall (T U W St : Type) (moved_from : exception_ptr -> exception_ptr)
          (NoExcept : bool) (body : St -> list effect * Generator.body_step T St)
          (func : T -> U) (func' : U -> W) (source : Generator.generator T St)
          (fuel : nat),
     let R := Generator.generator_range moved_from NoExcept body in
     let R1 := Generator.generator_range moved_from false
                 (Generator.fmap_body func) in
     exists g1 g2 g3,
       Generator.fmap moved_from NoExcept body func source = ([], Ok g1)
       /\ Generator.fmap moved_from false (Generator.fmap_body func) func' g1
          = ([], Ok g2)
       /\ Generator.fmap moved_from NoExcept body (func' ∘ func) source
          = ([], Ok g3)
       /\ for_each (Range0 := Generator.generator_range moved_from false
                                (Generator.fmap_body func')) fuel g2
          = for_each (Range0 := Generator.generator_range moved_from false
                                  (Generator.fmap_body (func' ∘ func))) fuel g3
       /\ for_each (Range0 := Generator.generator_range moved_from false
                                (Generator.fmap_body func')) fuel g2
          = map_observation (func' ∘ func) (for_each fuel source))
  /\ (forall (T U W : Type) (moved_from : exception_ptr -> exception_ptr)
          (NoExcept : bool) (func : T -> U) (func' : U -> W)
          (source : RecursiveGenerator.heap T * RecursiveGenerator.recursive_generator)
          (fuel : nat),
     let R := RecursiveGenerator.recursive_generator_range moved_from NoExcept in
     let R1 := Generator.generator_range moved_from false
                 (Generator.fmap_body func) in
     exists g1 g2 g3,
       RecursiveGenerator.fmap moved_from NoExcept func source = ([], Ok g1)
       /\ Generator.fmap moved_from false (Generator.fmap_body func) func' g1
          = ([], Ok g2)
       /\ RecursiveGenerator.fmap moved_from NoExcept (func' ∘ func) source
          = ([], Ok g3)
       /\ for_each (Range0 := Generator.generator_range moved_from false
                                (Generator.fmap_body func')) fuel g2
          = for_each (Range0 := Generator.generator_range moved_from false
                                  (Generator.fmap_body (func' ∘ func))) fuel g3
       /\ for_each (Range0 := Generator.generator_range moved_from false
                                (Generator.fmap_body func')) fuel g2
          = map_observation (func' ∘ func) (for_each fuel source))
  /\ (forall (T St : Type) (moved_from : exception_ptr -> exception_ptr)
          (NoExcept : bool) (body : St -> list effect * Generator.body_step T St)
          (source : Generator.generator T St) (fuel : nat),
     let R := Generator.generator_range moved_from NoExcept body in
     exists g,
       Generator.fmap moved_from NoExcept body id source = ([], Ok g)
       /\ for_each (Range0 := Generator.generator_range moved_from false
                                (Generator.fmap_body id)) fuel g
          = for_each fuel source)
  /\ (forall (T : Type) (moved_from : exception_ptr -> exception_ptr)
          (NoExcept : bool)
          (source : RecursiveGenerator.heap T * RecursiveGenerator.recursive_generator)
          (fuel : nat),
     let R := RecursiveGenerator.recursive_generator_range moved_from NoExcept in
     exists g,
       RecursiveGenerator.fmap moved_from NoExcept id source = ([], Ok g)
       /\ for_each (Range0 := Generator.generator_range moved_from false
                                (Generator.fmap_body id)) fuel g
          = for_each fuel source).
Proof.
  split; [|split; [|split]].
  - intros. do 3 eexists. split; [reflexivity|]. split; [reflexivity|].
    split; [reflexivity|].
    assert (forall A B : Prop, B -> (B -> A) -> A /\ B) as Hcut by tauto.
    apply Hcut.
    + etrans; [apply fmap_for_each|].
      etrans; [apply f_equal; apply fmap_for_each|].
      apply map_observation_compose.
    + intros ->. symmetry. apply fmap_for_each.
  - intros. do 3 eexists. split; [reflexivity|]. split; [reflexivity|].
    split; [reflexivity|].
    assert (forall A B : Prop, B -> (B -> A) -> A /\ B) as Hcut by tauto.
    apply Hcut.
    + etrans; [apply fmap_for_each|].
      etrans; [apply f_equal; apply fmap_for_each|].
      apply map_observation_compose.
    + intros ->. symmetry. apply fmap_for_each.
  - intros. eexists. split; [reflexivity|].
    etrans; [apply fmap_for_each|]. apply map_observation_id.
  - intros. eexists. split; [reflexivity|].
    etrans; [apply fmap_for_each|]. apply map_observation_id.
Qed.

(** ** Recursive generator: the frames *)

Module OwnershipFacts.

Import RecursiveGenerator.

Section ownership_facts.

Context {T : Type}.
Variable moved_from : exception_ptr -> exception_ptr.
Variable NoExcept : bool.

Implicit Types (h : heap T) (p : promise_type T) (a r c x y : addr) (b k : body T).

(** *** Successful reads and writes *)

Lemma bind_inv {A B : Type} (m : res A) (f : A -> res B) (v : B) :
  m ≫= f = Ok v -> exists u, m = Ok u /\ f u = Ok v.
Proof. destruct m as [u|]; [|done]. intros H. by exists u. Qed.

Lemma load_inv h a p : load a h = Ok p -> h !! a = Some p /\ live p.
Proof.
  unfold load, live. destruct (h !! a) as [q|]; [|done].
  destruct (state q) eqn:Hs; intros [= <-]; split; congruence.
Qed.

Lemma store_inv h a g h' :
  store a g h = Ok h' ->
  exists p, h !! a = Some p /\ live p /\ h' = <[a := g p]> h.
Proof.
  unfold store. intros (p & Hl & [= <-])%bind_inv.
  apply load_inv in Hl as [? ?]. by exists p.
Qed.

Lemma awaits_live h y c : awaits h y c -> alive h y.
Proof. intros (py & k & ? & Hs). exists py. split; [done|]. unfold live. by rewrite Hs. Qed.

Lemma awaits_insert_ne h y c x q :
  x <> y -> awaits h y c -> awaits (<[x := q]> h) y c.
Proof.
  intros Hne (py & k & ? & ?). exists py, k. by rewrite list_lookup_insert_ne.
Qed.

Lemma alive_insert_ne h c x q : x <> c -> alive h c -> alive (<[x := q]> h) c.
Proof. intros Hne (p & ? & ?). exists p. by rewrite list_lookup_insert_ne. Qed.

Lemma child_of_insert_ne h c y x q :
  x <> c -> child_of h c y -> child_of (<[x := q]> h) c y.
Proof. intros Hne (p & ? & ?). exists p. by rewrite list_lookup_insert_ne. Qed.

Lemma keeps_app n a r h l : keeps n a r h (h ++ l).
Proof.
  intros x p _ Hp. exists p. split; [by apply lookup_app_l_Some|]. done.
Qed.

(** *** One run *)

(** A write to [a] alone, on a heap that does not grow. *)
Lemma run_effect_insert h a r pa q :
  h !! a = Some pa -> live q ->
  m_root q = m_root pa -> m_parentOrLeaf q = m_parentOrLeaf pa ->
  (forall c k, state q <> awaiting_child c k) ->
  run_effect a r h (<[a := q]> h).
Proof.
  intros Ha Hlq Hroot Hleaf Hst.
  assert (Han : a < length h) by (by eapply lookup_lt_Some).
  split; [by rewrite length_insert|]. split.
  { eapply RecursiveGeneratorFacts.keeps_insert; [done|]. intros _.
    split; [done|]. split; [done|]. done. }
  split. { exists q. by rewrite list_lookup_insert_eq. }
  split.
  { intros pr Hr Hle. destruct (decide (r = a)) as [->|Hne].
    - exists q. rewrite list_lookup_insert_eq by done. split; [done|].
      rewrite Hleaf. congruence.
    - exists pr. by rewrite list_lookup_insert_ne. }
  split.
  { intros x p Hx Hp. apply lookup_lt_Some in Hp. rewrite length_insert in Hp. lia. }
  intros y c [->|Hy] (py & k & Hpy & Hs).
  - rewrite list_lookup_insert_eq in Hpy by done. injection Hpy as <-.
    by destruct (Hst c k).
  - apply lookup_lt_Some in Hpy. rewrite length_insert in Hpy. lia.
Qed.

Lemma live_or_destroyed p : live p \/ state p = destroyed.
Proof. unfold live. destruct (state p); by (left + right). Qed.

(** When the coroutine at [c] is not suspended at a [co_yield] of a
    generator, nothing newer than [c] that a run of [c] has left is alive. *)
Lemma dead_above h4 h5 c r :
  run_effect c r h4 h5 -> length h4 = S c ->
  (forall x, ~ awaits h5 c x) ->
  forall x p, c < x -> h5 !! x = Some p -> state p = destroyed.
Proof.
  intros (_ & _ & _ & _ & Hnew & _) Hlen Hc x.
  induction (lt_wf x) as [x _ IH]. intros p Hx Hp.
  destruct (live_or_destroyed p) as [Hlive|]; [|done]. exfalso.
  destruct (Hnew x p) as (_ & Hpar & Hlt & Haw); [lia|done|done|].
  destruct Hpar as [Heq|Hge].
  - rewrite Heq in Haw. by apply (Hc x).
  - destruct (awaits_live _ _ _ Haw) as (py & Hpy & Hly).
    apply Hly. apply (IH (m_parentOrLeaf p)); [done|lia|done].
Qed.

Lemma run_owned b : forall a r h h' pa,
  run NoExcept a b h = Ok h' ->
  h !! a = Some pa -> m_root pa = r -> r <= a ->
  run_effect a r h h'.
Proof.
  induction b as [|v k IH|k IH|child IHc k IHk|e];
    intros a r h h' pa Hrun Ha Hroot Hra.
  - (* co_return *)
    cbn in Hrun. apply store_inv in Hrun as (p & Hp & Hl & ->).
    rewrite Ha in Hp. injection Hp as <-.
    by apply (run_effect_insert _ _ _ pa).
  - (* co_yield *)
    cbn in Hrun. apply store_inv in Hrun as (p & Hp & Hl & ->).
    rewrite Ha in Hp. injection Hp as <-.
    by apply (run_effect_insert _ _ _ pa).
  - (* co_yield_empty *)
    cbn in Hrun. by eapply IH.
  - (* co_yield_generator *)
    assert (Han : a < length h) by (by eapply lookup_lt_Some).
    cbn [run] in Hrun. unfold allocate in Hrun.
    set (c := length h) in *.
    set (new := promise_type_new c child) in *.
    set (h1 := h ++ [new]) in *.
    assert (Hh1a : h1 !! a = Some pa) by (by apply lookup_app_l_Some).
    assert (Hh1c : h1 !! c = Some new) by (by apply list_lookup_middle).
    assert (Hlen1 : length h1 = S c) by (unfold h1; rewrite length_app; cbn; lia).
    apply bind_inv in Hrun as (p & Hload & Hrun).
    apply load_inv in Hload as [Hp Hla]. rewrite Hh1a in Hp. injection Hp as <-.
    rewrite Hroot in Hrun.
    apply bind_inv in Hrun as (h2 & Hst2 & Hrun).
    apply store_inv in Hst2 as (pr & Hh1r & Hlr & ->).
    assert (Hr : h !! r = Some pr).
    { unfold h1 in Hh1r. rewrite lookup_app_l in Hh1r by lia. done. }
    set (pr2 := set_parentOrLeaf c pr) in *.
    set (h2 := <[r := pr2]> h1) in *.
    apply bind_inv in Hrun as (h3 & Hst3 & Hrun).
    apply store_inv in Hst3 as (q & Hq1 & _ & ->).
    assert (q = new) as ->.
    { unfold h2 in Hq1. rewrite list_lookup_insert_ne in Hq1 by lia. congruence. }
    apply bind_inv in Hrun as (h4 & Hst4 & Hrun).
    apply store_inv in Hst4 as (q & Hq2 & _ & ->).
    assert (q = set_root r new) as ->.
    { rewrite list_lookup_insert_eq in Hq2; [congruence|].
      unfold h2. rewrite length_insert. lia. }
    set (pc := set_parentOrLeaf a (set_root r new)) in *.
    set (h4 := <[c := pc]> (<[c := set_root r new]> h2)) in *.
    assert (Hlen4 : length h4 = S c).
    { unfold h4, h2. by rewrite !length_insert. }
    assert (Hh4c : h4 !! c = Some pc).
    { unfold h4. rewrite list_lookup_insert_eq; [done|]. unfold h2.
      rewrite !length_insert. lia. }
    assert (Hh4r : h4 !! r = Some pr2).
    { unfold h4. rewrite !list_lookup_insert_ne by lia. unfold h2.
      rewrite list_lookup_insert_eq; [done|lia]. }
    assert (Hk4 : keeps c a r h h4).
    { apply (RecursiveGeneratorFacts.keeps_trans _ _ _ _ h1); [apply keeps_app|].
      apply (RecursiveGeneratorFacts.keeps_trans _ _ _ _ h2).
      { eapply (RecursiveGeneratorFacts.keeps_insert _ _ _ _ r pr pr2); [done|].
        intros _. cbn. split; [done|]. split; [done|]. intros Hrr. by destruct Hrr. }
      apply (RecursiveGeneratorFacts.keeps_trans _ _ _ _ (<[c := set_root r new]> h2)).
      { eapply (RecursiveGeneratorFacts.keeps_insert _ _ _ _ c new);
          [unfold h2; rewrite list_lookup_insert_ne by lia; done|]. lia. }
      eapply (RecursiveGeneratorFacts.keeps_insert _ _ _ _ c (set_root r new)); [|lia].
      rewrite list_lookup_insert_eq; [done|]. unfold h2. rewrite length_insert. lia. }
    apply bind_inv in Hrun as (h5 & Hrun5 & Hrun).
    pose proof (IHc c r h4 h5 pc Hrun5 Hh4c eq_refl ltac:(lia)) as Hchild.
    pose proof Hchild as (Hlen5 & Hk5 & (pc5 & Hh5c & Hlc5) & Hroot5 & Hnew5 & Hown5).
    rewrite Hlen4 in *.
    assert (Hk5' : keeps c a r h h5).
    { eapply RecursiveGeneratorFacts.keeps_trans; [exact Hk4|].
      eapply RecursiveGeneratorFacts.keeps_self;
        [|eapply RecursiveGeneratorFacts.keeps_mono; [|exact Hk5]]; lia. }
    destruct (Hroot5 pr2 Hh4r) as (pr5 & Hh5r & Hle5); [cbn; lia|].
    destruct (Hk5 c pc) as (pc5' & Hpc5' & Hrc5 & _ & Hlc5'); [lia|done|].
    rewrite Hh5c in Hpc5'. injection Hpc5' as <-.
    assert (Hparc5 : m_parentOrLeaf pc5 = a) by (rewrite Hlc5' by lia; done).
    assert (Hrootc5 : m_root pc5 = r) by done.
    destruct (Hk5' a pa) as (pa5 & Hh5a & Hra5 & _); [lia|done|].
    apply bind_inv in Hrun as (cc & Hcc & Hrun).
    unfold is_complete in Hcc. apply bind_inv in Hcc as (q & Hq3 & [= <-]).
    apply load_inv in Hq3 as [Hq3 _]. rewrite Hh5c in Hq3. injection Hq3 as <-.
    destruct (complete pc5) eqn:Hcomplete; cbn in Hrun.
    + (* the nested generator is complete already *)
      apply bind_inv in Hrun as (q & Hq4 & Hrun).
      apply load_inv in Hq4 as [Hq4 Hla5]. rewrite Hh5a in Hq4. injection Hq4 as <-.
      rewrite Hra5, Hroot in Hrun.
      apply bind_inv in Hrun as (h6 & Hst6 & Hrun).
      apply store_inv in Hst6 as (q & Hq5 & Hlr5 & ->).
      rewrite Hh5r in Hq5. injection Hq5 as <-.
      set (h6 := <[r := set_parentOrLeaf a pr5]> h5) in *.
      apply bind_inv in Hrun as (h7 & Hst7 & Hrun).
      unfold destroy in Hst7. apply store_inv in Hst7 as (q & Hq6 & _ & ->).
      assert (q = pc5) as ->.
      { unfold h6 in Hq6. rewrite list_lookup_insert_ne in Hq6 by lia. congruence. }
      set (h7 := <[c := set_state destroyed pc5]> h6) in *.
      assert (Hlen7 : length h7 = length h5).
      { unfold h7, h6. by rewrite !length_insert. }
      assert (Hh7r : h7 !! r = Some (set_parentOrLeaf a pr5)).
      { unfold h7, h6. rewrite list_lookup_insert_ne by lia.
        rewrite list_lookup_insert_eq; [done|]. by eapply lookup_lt_Some. }
      assert (Hh7a : exists pa7, h7 !! a = Some pa7 /\ m_root pa7 = r).
      { destruct (decide (a = r)) as [Heq|Hne].
        - rewrite Heq. eexists. split; [exact Hh7r|]. cbn.
          rewrite Heq in Hh5a. rewrite Hh5r in Hh5a. injection Hh5a as ->.
          congruence.
        - exists pa5. unfold h7, h6. rewrite !list_lookup_insert_ne by lia.
          split; [done|]. congruence. }
      destruct Hh7a as (pa7 & Hh7a & Hra7).
      pose proof (IHk a r h7 h' pa7 Hrun Hh7a Hra7 Hra)
        as (Hlen' & Hk' & Hal' & Hroot' & Hnew' & Hown').
      rewrite Hlen7 in *.
      assert (Hdead5 : forall x p, c < x -> h5 !! x = Some p -> state p = destroyed).
      { eapply dead_above; [exact Hchild|done|].
        intros x (py & k' & Hpy & Hs). rewrite Hh5c in Hpy. injection Hpy as <-.
        unfold complete in Hcomplete. by rewrite Hs in Hcomplete. }
      assert (Hdead7 : forall x p, c <= x -> h7 !! x = Some p -> state p = destroyed).
      { intros x p Hx Hp. destruct (decide (x = c)) as [->|Hne].
        - unfold h7 in Hp. rewrite list_lookup_insert_eq in Hp.
          + by injection Hp as <-.
          + unfold h6. rewrite length_insert. by eapply lookup_lt_Some.
        - unfold h7, h6 in Hp. rewrite !list_lookup_insert_ne in Hp by lia.
          apply (Hdead5 x p); [lia|done]. }
      assert (Hdead' : forall x p, c <= x -> x < length h5 -> h' !! x = Some p ->
                state p = destroyed).
      { intros x p Hx Hx5 Hp.
        destruct (lookup_lt_is_Some_2 h7 x) as [p7 Hp7]; [lia|].
        destruct (Hk' x p7) as (p' & Hp' & _ & Hs & _); [lia|done|].
        rewrite Hp in Hp'. injection Hp' as <-.
        destruct Hs as [-> _]; [lia|]. by apply (Hdead7 x). }
      split; [lia|]. split.
      { eapply RecursiveGeneratorFacts.keeps_trans; [exact Hk5'|].
        apply (RecursiveGeneratorFacts.keeps_trans _ _ _ _ h6).
        { eapply (RecursiveGeneratorFacts.keeps_insert _ _ _ _ r pr5); [done|].
          intros _. cbn. split; [done|]. split; [done|]. intros Hrr. by destruct Hrr. }
        apply (RecursiveGeneratorFacts.keeps_trans _ _ _ _ h7).
        { eapply (RecursiveGeneratorFacts.keeps_insert _ _ _ _ c pc5); [|lia].
          unfold h6. rewrite list_lookup_insert_ne by lia. done. }
        eapply RecursiveGeneratorFacts.keeps_mono; [|exact Hk']. lia. }
      split; [done|]. split.
      { intros pr0 _ _. apply (Hroot' _ Hh7r). cbn. lia. }
      split.
      { intros x p Hx Hp Hlp.
        destruct (decide (x < length h5)) as [Hlt|Hge].
        - exfalso. apply Hlp. by apply (Hdead' x).
        - destruct (Hnew' x p) as (? & Hpar & ? & ?); [lia|done|done|].
          split; [done|]. split; [|done]. destruct Hpar; [by left|right; lia]. }
      intros y c' Hy Haw.
      assert (y = a \/ length h5 <= y) as Hy'.
      { destruct Hy as [|Hy]; [by left|].
        destruct (decide (y < length h5)) as [Hlt|Hge]; [|right; lia].
        exfalso. destruct Haw as (py & k' & Hpy & Hs).
        pose proof (Hdead' y py Hy Hlt Hpy) as Hd. congruence. }
      destruct (Hown' y c' Hy' Haw) as (? & ? & ?).
      split; [done|]. split; [lia|done].
    + (* the nested generator is suspended *)
      apply store_inv in Hrun as (q & Hq7 & Hla5 & ->).
      rewrite Hh5a in Hq7. injection Hq7 as <-.
      set (pa6 := set_state (awaiting_child c k) pa5).
      assert (Ha5 : a < length h5) by (by eapply lookup_lt_Some).
      assert (Haw6 : awaits (<[a := pa6]> h5) a c).
      { exists pa6, k. by rewrite list_lookup_insert_eq. }
      split; [rewrite length_insert; lia|]. split.
      { eapply RecursiveGeneratorFacts.keeps_trans; [exact Hk5'|].
        eapply RecursiveGeneratorFacts.keeps_insert; [done|]. intros _.
        cbn. split; [done|]. split; [|done]. intros Hne. by destruct Hne. }
      split. { exists pa6. by rewrite list_lookup_insert_eq. }
      split.
      { intros pr0 _ _. destruct (decide (r = a)) as [Heq|Hne].
        - exists pa6. rewrite Heq at 1. rewrite list_lookup_insert_eq by done.
          split; [done|]. cbn. rewrite Heq in Hh5r. rewrite Hh5a in Hh5r.
          injection Hh5r as ->. done.
        - exists pr5. by rewrite list_lookup_insert_ne by done. }
      split.
      { intros x p Hx Hp Hlp. rewrite list_lookup_insert_ne in Hp by lia.
        destruct (decide (x = c)) as [->|Hne].
        - rewrite Hh5c in Hp. injection Hp as <-.
          split; [done|]. rewrite Hparc5. split; [by left|]. split; [lia|done].
        - destruct (Hnew5 x p) as (? & Hpar & ? & Haw); [lia|done|done|].
          split; [done|]. split; [right; destruct Hpar; lia|]. split; [done|].
          apply awaits_insert_ne; [|done]. destruct Hpar; lia. }
      intros y c' Hy Haw. destruct (decide (y = a)) as [->|Hne].
      * destruct Haw as (py & k' & Hpy & Hs).
        rewrite list_lookup_insert_eq in Hpy by done. injection Hpy as <-.
        cbn in Hs. injection Hs as <- <-.
        split; [lia|]. split; [lia|].
        exists pc5. rewrite list_lookup_insert_ne by lia. done.
      * destruct Hy as [|Hy]; [done|].
        assert (Haw5 : awaits h5 y c').
        { destruct Haw as (py & k' & Hpy & Hs).
          rewrite list_lookup_insert_ne in Hpy by done. by exists py, k'. }
        destruct (Hown5 y c') as (? & ? & Hal); [lia|done|].
        split; [done|]. split; [lia|].
        apply child_of_insert_ne; [lia|done].
  - (* throws *)
    cbn in Hrun. unfold unhandled in Hrun.
    apply bind_inv in Hrun as (p & Hload & Hrun).
    apply load_inv in Hload as [Hp Hl]. rewrite Ha in Hp. injection Hp as <-.
    apply bind_inv in Hrun as (bx & _ & [= <-]).
    by apply (run_effect_insert _ _ _ pa).
Qed.

(** *** What lies below the root *)

Lemma run_below b : forall a r h h' pa,
  run NoExcept a b h = Ok h' ->
  h !! a = Some pa -> m_root pa = r -> r <= a ->
  forall y, y < r -> h' !! y = h !! y.
Proof.
  induction b as [|v k IH|k IH|child IHc k IHk|e];
    intros a r h h' pa Hrun Ha Hroot Hra y Hy.
  - cbn in Hrun. apply store_inv in Hrun as (p & _ & _ & ->).
    by rewrite list_lookup_insert_ne by lia.
  - cbn in Hrun. apply store_inv in Hrun as (p & _ & _ & ->).
    by rewrite list_lookup_insert_ne by lia.
  - cbn in Hrun. by eapply IH.
  - assert (Han : a < length h) by (by eapply lookup_lt_Some).
    pose proof (run_owned _ _ _ _ _ _ Hrun Ha Hroot Hra) as Heff.
    cbn [run] in Hrun. unfold allocate in Hrun.
    set (c := length h) in *.
    set (new := promise_type_new c child) in *.
    set (h1 := h ++ [new]) in *.
    assert (Hh1a : h1 !! a = Some pa) by (by apply lookup_app_l_Some).
    apply bind_inv in Hrun as (p & Hload & Hrun).
    apply load_inv in Hload as [Hp Hla]. rewrite Hh1a in Hp. injection Hp as <-.
    rewrite Hroot in Hrun.
    apply bind_inv in Hrun as (h2 & Hst2 & Hrun).
    apply store_inv in Hst2 as (pr & Hh1r & Hlr & ->).
    apply bind_inv in Hrun as (h3 & Hst3 & Hrun).
    apply store_inv in Hst3 as (q3 & Hq3 & _ & ->).
    apply bind_inv in Hrun as (h4 & Hst4 & Hrun).
    apply store_inv in Hst4 as (q4 & Hq4 & _ & ->).
    set (h4 := <[c := set_parentOrLeaf a q4]> (<[c := set_root r q3]>
                 (<[r := set_parentOrLeaf c pr]> h1))) in *.
    assert (Hh4y : h4 !! y = h !! y).
    { unfold h4. rewrite !list_lookup_insert_ne by lia. unfold h1.
      by rewrite lookup_app_l by lia. }
    assert (Hh4c : exists pc, h4 !! c = Some pc /\ m_root pc = r).
    { eexists. unfold h4. rewrite list_lookup_insert_eq.
      - split; [done|]. cbn.
        rewrite list_lookup_insert_eq in Hq4; [by injection Hq4 as <-|].
        rewrite length_insert. unfold h1. rewrite length_app. cbn. lia.
      - rewrite !length_insert. unfold h1. rewrite length_app. cbn. lia. }
    destruct Hh4c as (pc & Hh4c & Hrc).
    apply bind_inv in Hrun as (h5 & Hrun5 & Hrun).
    pose proof (IHc c r h4 h5 pc Hrun5 Hh4c Hrc ltac:(lia) y Hy) as Hh5y.
    pose proof (run_owned _ _ _ _ _ _ Hrun5 Hh4c Hrc ltac:(lia))
      as (_ & Hk5 & _).
    apply bind_inv in Hrun as (cc & _ & Hrun).
    destruct cc; cbn in Hrun.
    + apply bind_inv in Hrun as (p5 & Hl5 & Hrun).
      apply load_inv in Hl5 as [Hh5a _].
      assert (Hra5 : m_root p5 = r).
      { assert (Hlen4 : length h4 = S c).
        { unfold h4. rewrite !length_insert. unfold h1. rewrite length_app. cbn. lia. }
        assert (exists p4, h4 !! a = Some p4 /\ m_root p4 = r) as (p4 & Hp4 & Hr4).
        { unfold h4. rewrite !list_lookup_insert_ne by lia.
          destruct (decide (a = r)) as [Heq|Hne].
          - rewrite Heq. rewrite list_lookup_insert_eq.
            + eexists. split; [done|]. cbn. rewrite Heq in Hh1a. congruence.
            + unfold h1. rewrite length_app. cbn. lia.
          - rewrite list_lookup_insert_ne by done. by exists pa. }
        destruct (Hk5 a p4) as (p5' & Hp5' & Hr5' & _); [lia|done|].
        congruence. }
      rewrite Hra5 in Hrun.
      apply bind_inv in Hrun as (h6 & Hst6 & Hrun).
      apply store_inv in Hst6 as (q6 & Hq6 & _ & ->).
      apply bind_inv in Hrun as (h7 & Hst7 & Hrun).
      unfold destroy in Hst7. apply store_inv in Hst7 as (q7 & Hq7 & _ & ->).
      set (h7 := <[c := set_state destroyed q7]> (<[r := set_parentOrLeaf a q6]> h5)) in *.
      assert (Hc5 : c < length h5).
      { apply lookup_lt_Some in Hq7. by rewrite length_insert in Hq7. }
      assert (exists pa7, h7 !! a = Some pa7 /\ m_root pa7 = r) as (pa7 & Hh7a & Hra7).
      { unfold h7. rewrite list_lookup_insert_ne by lia.
        destruct (decide (a = r)) as [Heq|Hne].
        - rewrite Heq. rewrite list_lookup_insert_eq by lia.
          eexists. split; [done|]. cbn. rewrite Heq in Hh5a. congruence.
        - rewrite list_lookup_insert_ne by done. by exists p5. }
      rewrite (IHk a r h7 h' pa7 Hrun Hh7a Hra7 Hra y Hy).
      unfold h7. rewrite !list_lookup_insert_ne by lia. congruence.
    + apply store_inv in Hrun as (q & _ & _ & ->).
      rewrite list_lookup_insert_ne by lia. congruence.
  - cbn in Hrun. unfold unhandled in Hrun.
    apply bind_inv in Hrun as (p & _ & Hrun).
    apply bind_inv in Hrun as (bx & _ & [= <-]).
    by rewrite list_lookup_insert_ne by lia.
Qed.

(** *** The family keeps its shape *)

Lemma run_keeps_owned a b h h' r pa :
  run NoExcept a b h = Ok h' ->
  h !! a = Some pa -> live pa -> r <= a ->
  (forall x p, r <= x -> h !! x = Some p -> live p -> m_root p = r) ->
  (forall x p, r < x -> h !! x = Some p -> live p ->
     r <= m_parentOrLeaf p < x /\ awaits h (m_parentOrLeaf p) x) ->
  (forall y c, r <= y -> y <> a -> awaits h y c -> y < c /\ child_of h c y) ->
  (forall c, awaits h a c -> ~ alive h c) ->
  (exists pr, h !! r = Some pr /\ live pr /\ r <= m_parentOrLeaf pr) ->
  owned h' r.
Proof.
  intros Hrun Ha Hla Hra HM HU HD HA (pr & Hr & Hlr & Hleaf).
  assert (Hroot : m_root pa = r) by exact (HM a pa Hra Ha Hla).
  assert (Han : a < length h) by (by eapply lookup_lt_Some).
  pose proof (run_owned _ _ _ _ _ _ Hrun Ha Hroot Hra)
    as (Hlen & Hk & Hal & Hroot' & Hnew & Hown).
  assert (Hold : forall x p', x < length h -> h' !! x = Some p' -> live p' ->
            exists p, h !! x = Some p /\ live p /\ m_root p' = m_root p
                      /\ (x <> a -> state p' = state p)
                      /\ (x <> r -> m_parentOrLeaf p' = m_parentOrLeaf p)).
  { intros x p' Hx Hp' Hlp'.
    destruct (lookup_lt_is_Some_2 h x Hx) as [p Hp].
    destruct (Hk x p Hx Hp) as (p'' & Hp'' & Hr'' & Hs'' & Hl'').
    rewrite Hp' in Hp''. injection Hp'' as <-.
    exists p. split; [done|]. split.
    - destruct (decide (x = a)) as [->|Hne]; [congruence|].
      destruct (Hs'' Hne) as [Hs _]. unfold live in *. congruence.
    - split; [done|]. split; [|done]. intros Hne. by destruct (Hs'' Hne). }
  assert (Hfwd : forall y c, y < length h -> y <> a -> awaits h y c -> awaits h' y c).
  { intros y c Hy Hne (py & k & Hpy & Hs).
    destruct (Hk y py Hy Hpy) as (py' & Hpy' & _ & Hs' & _).
    exists py', k. split; [done|]. destruct (Hs' Hne) as [-> _]. done. }
  assert (Hbwd : forall y c, y < length h -> y <> a -> awaits h' y c -> awaits h y c).
  { intros y c Hy Hne (py' & k & Hpy' & Hs).
    destruct (lookup_lt_is_Some_2 h y Hy) as [py Hpy].
    destruct (Hk y py Hy Hpy) as (py'' & Hpy'' & _ & Hs' & _).
    rewrite Hpy' in Hpy''. injection Hpy'' as <-.
    exists py, k. split; [done|]. destruct (Hs' Hne) as [<- _]. done. }
  split; [|split; [|split]].
  - intros x p' Hx Hp' Hlp'.
    destruct (decide (x < length h)) as [Hlt|Hge].
    + destruct (Hold x p' Hlt Hp' Hlp') as (p & Hp & Hlp & -> & _).
      exact (HM x p Hx Hp Hlp).
    + by destruct (Hnew x p') as (? & _); [lia|done|done|].
  - intros x p' Hx Hp' Hlp'.
    destruct (decide (x < length h)) as [Hlt|Hge].
    + destruct (Hold x p' Hlt Hp' Hlp') as (p & Hp & Hlp & _ & _ & Hl).
      rewrite Hl by lia.
      destruct (HU x p Hx Hp Hlp) as [Hrange Haw]. split; [done|].
      apply Hfwd; [lia| |done].
      intros Heq. rewrite Heq in Haw. apply (HA x Haw). by exists p.
    + destruct (Hnew x p') as (_ & Hpar & ? & ?); [lia|done|done|].
      split; [|done]. destruct Hpar as [->|]; lia.
  - intros y c Hy Haw.
    destruct (decide (y = a \/ length h <= y)) as [Hnew'|Hold'].
    + destruct (Hown y c Hnew' Haw) as (? & _ & ?). done.
    + assert (y < length h /\ y <> a) as [Hlt Hne] by lia.
      destruct (HD y c Hy Hne) as (Hyc & pc & Hpc & Hlpc & Hparc);
        [by apply Hbwd|].
      split; [done|].
      assert (Hc : c < length h) by (by eapply lookup_lt_Some).
      destruct (Hk c pc Hc Hpc) as (pc' & Hpc' & _ & Hs' & Hl').
      exists pc'. split; [done|]. split.
      * destruct (decide (c = a)) as [->|Hca].
        -- destruct Hal as (q & Hq & Hlq). congruence.
        -- destruct (Hs' Hca) as [Hs _]. unfold live in *. congruence.
      * rewrite Hl' by lia. done.
  - destruct (Hroot' pr Hr Hleaf) as (pr' & Hr' & Hleaf').
    exists pr'. split; [done|]. split; [|done].
    destruct (decide (r = a)) as [->|Hne].
    + destruct Hal as (q & Hq & Hlq). congruence.
    + destruct (Hk r pr) as (pr'' & Hpr'' & _ & Hs & _);
        [by eapply lookup_lt_Some|done|].
      rewrite Hr' in Hpr''. injection Hpr'' as <-.
      destruct (Hs Hne) as [Hs' _]. unfold live in *. congruence.
Qed.

(** *** Writes that leave the shape alone *)

Lemma awaits_update h x p q y c :
  h !! x = Some p -> state q = state p ->
  awaits (<[x := q]> h) y c <-> awaits h y c.
Proof.
  intros Hp Hs. assert (x < length h) by (by eapply lookup_lt_Some).
  split; intros (py & k & Hpy & Hst).
  - destruct (decide (y = x)) as [->|Hne].
    + rewrite list_lookup_insert_eq in Hpy by done. injection Hpy as <-.
      exists p, k. split; [done|]. congruence.
    + rewrite list_lookup_insert_ne in Hpy by done. by exists py, k.
  - destruct (decide (y = x)) as [->|Hne].
    + exists q, k. rewrite list_lookup_insert_eq by done. split; [done|]. congruence.
    + exists py, k. by rewrite list_lookup_insert_ne by done.
Qed.

Lemma owned_update h r x p q :
  owned h r -> h !! x = Some p ->
  state q = state p -> m_root q = m_root p ->
  (x <> r -> m_parentOrLeaf q = m_parentOrLeaf p) ->
  (x = r -> r <= m_parentOrLeaf q) ->
  owned (<[x := q]> h) r.
Proof.
  intros (HM & HU & HD & pr & Hr & Hlr & Hleaf) Hp Hs Hroot Hpar Hrx.
  assert (Hx : x < length h) by (by eapply lookup_lt_Some).
  assert (Hlook : forall z p', (<[x := q]> h) !! z = Some p' ->
            exists p0, h !! z = Some p0 /\ state p' = state p0
                       /\ m_root p' = m_root p0
                       /\ (z <> r -> m_parentOrLeaf p' = m_parentOrLeaf p0)).
  { intros z p' Hp'. destruct (decide (z = x)) as [->|Hne].
    - rewrite list_lookup_insert_eq in Hp' by done. injection Hp' as <-. by exists p.
    - rewrite list_lookup_insert_ne in Hp' by done. by exists p'. }
  split; [|split; [|split]].
  - intros z p' Hz Hp' Hl'. destruct (Hlook z p' Hp') as (p0 & Hp0 & Hs0 & -> & _).
    apply (HM z p0 Hz Hp0). unfold live in *. congruence.
  - intros z p' Hz Hp' Hl'. destruct (Hlook z p' Hp') as (p0 & Hp0 & Hs0 & _ & Hl0).
    rewrite Hl0 by lia.
    destruct (HU z p0 Hz Hp0) as [? Haw]; [unfold live in *; congruence|].
    split; [done|]. by apply (awaits_update _ _ p).
  - intros y c Hy Haw. apply (awaits_update _ _ p) in Haw; [|done|done].
    destruct (HD y c Hy Haw) as (Hyc & pc & Hpc & Hlc & Hparc). split; [done|].
    destruct (decide (c = x)) as [->|Hne].
    + exists q. rewrite list_lookup_insert_eq by done. split; [done|].
      rewrite Hp in Hpc. injection Hpc as <-. split.
      * unfold live in *. congruence.
      * rewrite Hpar by lia. done.
    + exists pc. by rewrite list_lookup_insert_ne by done.
  - destruct (decide (r = x)) as [->|Hne].
    + exists q. rewrite list_lookup_insert_eq by done. split; [done|].
      split; [|by apply Hrx]. rewrite Hp in Hr. injection Hr as <-.
      unfold live in *. congruence.
    + exists pr. by rewrite list_lookup_insert_ne by done.
Qed.

(** *** resume(), the loop of pull(), pull() *)

Lemma resume_keeps_owned a h h' r :
  resume moved_from NoExcept a h = Ok h' ->
  owned h r -> r <= a ->
  (forall c, awaits h a c -> forall x, ~ awaits h c x) ->
  owned h' r /\ length h <= length h' /\ (forall y, y < r -> h' !! y = h !! y).
Proof.
  intros Hres Hown Hra Hleafc.
  pose proof Hown as (HM & HU & HD & HR).
  unfold resume in Hres. apply bind_inv in Hres as (pa & Hload & Hres).
  apply load_inv in Hload as [Ha Hla].
  assert (Hroot : m_root pa = r) by exact (HM a pa Hra Ha Hla).
  destruct (state pa) as [k|c k| |] eqn:Hs; [| |done|done].
  - (* suspended at a [co_yield] of a value *)
    split; [|split].
    + eapply run_keeps_owned; eauto.
      intros c (py & k' & Hpy & Hs'). congruence.
    + by destruct (run_owned _ _ _ _ _ _ Hres Ha Hroot Hra) as (? & _).
    + by eapply run_below.
  - (* suspended at the [co_yield] of the generator [c] *)
    assert (Haw : awaits h a c) by (by exists pa, k).
    destruct (HD a c Hra Haw) as (Hac & pc & Hpc & Hlc & Hparc).
    apply bind_inv in Hres as (pc' & Hload & Hres).
    apply load_inv in Hload as [Hpc' _]. rewrite Hpc in Hpc'. injection Hpc' as <-.
    destruct (ExceptionPromise.rethrow_if_exception moved_from NoExcept (base pc))
      as [bx x] eqn:Hre.
    apply bind_inv in Hres as (h2 & Hst & Hres).
    unfold destroy in Hst. apply store_inv in Hst as (q & Hq & _ & ->).
    assert (Hc : c < length h) by (by eapply lookup_lt_Some).
    rewrite list_lookup_insert_eq in Hq by done. injection Hq as <-.
    rewrite list_insert_insert_eq in Hres.
    set (pd := set_state destroyed (set_base bx pc)) in *.
    set (h2 := <[c := pd]> h) in *.
    assert (exists b', run NoExcept a b' h2 = Ok h') as (b' & Hrun).
    { destruct x as [[]|e].
      - by exists k.
      - exists (throws e). destruct NoExcept; [done|]. done. }
    clear Hres.
    assert (Hh2a : h2 !! a = Some pa).
    { unfold h2. by rewrite list_lookup_insert_ne by lia. }
    assert (Hh2 : forall z p, z <> c -> h2 !! z = Some p <-> h !! z = Some p).
    { intros z p Hz. unfold h2. by rewrite list_lookup_insert_ne by done. }
    assert (Hh2c : forall p, h2 !! c = Some p -> ~ live p).
    { intros p Hp. unfold h2 in Hp. rewrite list_lookup_insert_eq in Hp by done.
      injection Hp as <-. unfold live. cbn. by intros []. }
    assert (Haw2 : forall y z, awaits h2 y z <-> y <> c /\ awaits h y z).
    { intros y z. split.
      - intros (py & k' & Hpy & Hs'). destruct (decide (y = c)) as [->|Hne].
        + exfalso. apply (Hh2c py Hpy). unfold live. by rewrite Hs'.
        + split; [done|]. exists py, k'. by rewrite <- Hh2.
      - intros [Hne (py & k' & Hpy & Hs')]. exists py, k'. by rewrite Hh2. }
    split; [|split].
    + eapply (run_keeps_owned a b' h2 h' r pa); try done.
      * intros z p Hz Hp Hl. destruct (decide (z = c)) as [->|Hne].
        -- by destruct (Hh2c p Hp).
        -- apply (HM z p Hz); [by rewrite <- Hh2|done].
      * intros z p Hz Hp Hl. destruct (decide (z = c)) as [->|Hne].
        -- by destruct (Hh2c p Hp).
        -- destruct (HU z p Hz) as [? Hawz]; [by rewrite <- Hh2|done|].
           split; [done|]. apply Haw2. split; [|done].
           intros Heq. rewrite Heq in Hawz. by apply (Hleafc c Haw z).
      * intros y z Hy Hya Hawy. apply Haw2 in Hawy as [Hyc Hawy].
        destruct (HD y z Hy Hawy) as (Hyz & pz & Hpz & Hlz & Hparz).
        split; [done|]. exists pz. split; [|done]. apply Hh2; [|done].
        intros ->. rewrite Hpc in Hpz. injection Hpz as <-. congruence.
      * intros z Hawz (p & Hp & Hl). apply Haw2 in Hawz as [_ (py & k' & Hpy & Hs')].
        rewrite Ha in Hpy. injection Hpy as <-. rewrite Hs in Hs'.
        injection Hs' as <- <-. by apply (Hh2c p).
      * destruct HR as (pr & Hr & Hlr & Hleaf). exists pr. split; [|done].
        apply Hh2; [lia|done].
    + destruct (run_owned _ _ _ _ _ _ Hrun Hh2a Hroot Hra) as (Hlen & _).
      unfold h2 in Hlen. by rewrite length_insert in Hlen.
    + intros y Hy. rewrite (run_below _ _ _ _ _ _ Hrun Hh2a Hroot Hra y Hy).
      unfold h2. by rewrite list_lookup_insert_ne by lia.
Qed.

Lemma complete_awaits_nothing h c pc :
  h !! c = Some pc -> complete pc = true -> forall x, ~ awaits h c x.
Proof.
  intros Hpc Hc x (py & k & Hpy & Hs). rewrite Hpc in Hpy. injection Hpy as <-.
  unfold complete in Hc. by rewrite Hs in Hc.
Qed.

Lemma pull_loop_keeps_owned fuel : forall h h' r,
  pull_loop moved_from NoExcept fuel r h = Ok h' ->
  owned h r ->
  owned h' r /\ length h <= length h' /\ (forall y, y < r -> h' !! y = h !! y).
Proof.
  induction fuel as [|fuel IH]; intros h h' r Hloop Hown;
    rewrite RecursiveGeneratorFacts.pull_loop_unfold in Hloop;
    apply bind_inv in Hloop as (pr & Hload & Hloop);
    apply load_inv in Hload as [Hr Hlr];
    apply bind_inv in Hloop as (lc & Hlc & Hloop);
    unfold is_complete in Hlc; apply bind_inv in Hlc as (pl & Hload & [= <-]);
    apply load_inv in Hload as [Hl Hll];
    destruct (negb (m_parentOrLeaf pr =? r) && complete pl) eqn:Hcond;
    try done; try (injection Hloop as <-; done).
  apply andb_true_iff in Hcond as [Hne Hcomplete].
  apply negb_true_iff, Nat.eqb_neq in Hne.
  apply bind_inv in Hloop as (pl' & Hload & Hloop).
  apply load_inv in Hload as [Hl' _]. rewrite Hl in Hl'. injection Hl' as <-.
  apply bind_inv in Hloop as (h1 & Hst & Hloop).
  apply store_inv in Hst as (q & Hq & _ & ->).
  rewrite Hr in Hq. injection Hq as <-.
  apply bind_inv in Hloop as (h2 & Hres & Hloop).
  pose proof Hown as (HM & HU & HD & pr0 & Hr0 & _ & Hleaf).
  rewrite Hr in Hr0. injection Hr0 as <-.
  destruct (HU (m_parentOrLeaf pr) pl) as [Hrange Haw]; [lia|done|done|].
  set (P := m_parentOrLeaf pl) in *.
  set (h1 := <[r := set_parentOrLeaf P pr]> h) in *.
  assert (Hown1 : owned h1 r).
  { apply (owned_update _ _ _ pr); try done. intros _. cbn. lia. }
  assert (Haw1 : forall y c, awaits h1 y c <-> awaits h y c).
  { intros y c. by apply (awaits_update _ _ pr). }
  destruct (resume_keeps_owned P h1 h2 r Hres Hown1) as (Hown2 & Hlen2 & Hbelow2);
    [lia| |].
  { intros c Hc x Hx. apply Haw1 in Hc, Hx.
    destruct Haw as (pP & k & HpP & HsP). destruct Hc as (pP' & k' & HpP' & HsP').
    rewrite HpP in HpP'. injection HpP' as <-. rewrite HsP in HsP'.
    injection HsP' as <- <-.
    by apply (complete_awaits_nothing _ _ _ Hl Hcomplete x). }
  destruct (IH h2 h' r Hloop Hown2) as (Hown' & Hlen' & Hbelow').
  split; [done|]. split.
  - unfold h1 in Hlen2. rewrite length_insert in Hlen2. lia.
  - intros y Hy. rewrite Hbelow', Hbelow2 by done.
    unfold h1. by rewrite list_lookup_insert_ne by lia.
Qed.

Lemma pull_keeps_owned h h' r :
  pull moved_from NoExcept r h = Ok h' ->
  owned h r ->
  (forall pr, h !! r = Some pr -> forall x, ~ awaits h (m_parentOrLeaf pr) x) ->
  owned h' r /\ length h <= length h' /\ (forall y, y < r -> h' !! y = h !! y).
Proof.
  intros Hpull Hown Hleaf. unfold pull in Hpull.
  apply bind_inv in Hpull as (pr & Hload & Hpull).
  apply load_inv in Hload as [Hr Hlr].
  destruct (negb (r =? m_root pr)); [done|].
  apply bind_inv in Hpull as (lc & _ & Hpull).
  destruct lc; [done|].
  apply bind_inv in Hpull as (h1 & Hres & Hloop).
  pose proof Hown as (_ & _ & _ & pr0 & Hr0 & _ & Hle).
  rewrite Hr in Hr0. injection Hr0 as <-.
  destruct (resume_keeps_owned _ h h1 r Hres Hown) as (Hown1 & Hlen1 & Hbelow1);
    [done| |].
  { intros c Hc. by destruct (Hleaf pr Hr c). }
  destruct (pull_loop_keeps_owned _ _ _ _ Hloop Hown1) as (Hown' & Hlen' & Hbelow').
  split; [done|]. split; [lia|].
  intros y Hy. by rewrite Hbelow', Hbelow1.
Qed.

Lemma rethrow_keeps_owned h h' r (ox : except unit) :
  RecursiveGenerator.rethrow_if_exception moved_from NoExcept r h = Ok (h', ox) ->
  owned h r ->
  owned h' r /\ length h' = length h /\ (forall y, y < r -> h' !! y = h !! y)
  /\ (forall p', h' !! r = Some p' -> exists p, h !! r = Some p /\ state p' = state p).
Proof.
  intros Hre Hown. unfold RecursiveGenerator.rethrow_if_exception in Hre.
  apply bind_inv in Hre as (p & Hload & Hre).
  apply load_inv in Hload as [Hr Hlr].
  destruct (ExceptionPromise.rethrow_if_exception moved_from NoExcept (base p))
    as [bx ox'].
  injection Hre as <- <-.
  assert (r < length h) by (by eapply lookup_lt_Some).
  split; [|split; [|split]].
  - apply (owned_update _ _ _ p); try done. intros _. cbn.
    destruct Hown as (_ & _ & _ & pr & Hpr & _ & Hle). congruence.
  - by rewrite length_insert.
  - intros y Hy. by rewrite list_lookup_insert_ne by lia.
  - intros p' Hp'. rewrite list_lookup_insert_eq in Hp' by done.
    injection Hp' as <-. by exists p.
Qed.

(** *** Destroying the frames *)

(** Above a promise that is suspended at the [co_yield] of [c], nothing
    older than [c] is alive; above one that is not, nothing is. *)
Lemma alive_above h a :
  (forall x p, a < x -> h !! x = Some p -> live p ->
     a <= m_parentOrLeaf p < x /\ awaits h (m_parentOrLeaf p) x) ->
  forall x p, a < x -> h !! x = Some p -> live p ->
  exists c, awaits h a c /\ c <= x.
Proof.
  intros HU x. induction (lt_wf x) as [x _ IH]. intros p Hx Hp Hl.
  destruct (HU x p Hx Hp Hl) as [Hrange Haw].
  destruct (decide (m_parentOrLeaf p = a)) as [Heq|Hne].
  - exists x. by rewrite <- Heq.
  - destruct (awaits_live _ _ _ Haw) as (py & Hpy & Hly).
    destruct (IH (m_parentOrLeaf p)) with (p := py) as (c & ? & ?);
      [lia|lia|done|done|].
    exists c. split; [done|lia].
Qed.

Lemma awaits_unique h a c c' : awaits h a c -> awaits h a c' -> c = c'.
Proof.
  intros (p & k & Hp & Hs) (p' & k' & Hp' & Hs').
  rewrite Hp in Hp'. injection Hp' as <-. congruence.
Qed.

Lemma destroy_frame_spec fuel : forall a h,
  alive h a ->
  (forall x p, a < x -> h !! x = Some p -> live p ->
     a <= m_parentOrLeaf p < x /\ awaits h (m_parentOrLeaf p) x) ->
  (forall y c, a <= y -> awaits h y c -> y < c /\ child_of h c y) ->
  length h - a <= fuel ->
  exists h', destroy_frame fuel a h = Ok h'
    /\ length h' = length h
    /\ (forall x, x < a -> h' !! x = h !! x)
    /\ all_destroyed_from a h'.
Proof.
  induction fuel as [|fuel IH]; intros a h (pa & Ha & Hla) HU HD Hfuel;
    assert (Han : a < length h) by (by eapply lookup_lt_Some); [lia|].
  cbn [destroy_frame]. rewrite (RecursiveGeneratorFacts.load_ok _ _ _ Ha Hla).
  cbn [mbind res_bind].
  assert (Hlast : forall h1,
    length h1 = length h -> h1 !! a = Some pa ->
    (forall x, x < a -> h1 !! x = h !! x) ->
    (forall x p, a < x -> h1 !! x = Some p -> state p = destroyed) ->
    exists h', destroy a h1 = Ok h'
      /\ length h' = length h
      /\ (forall x, x < a -> h' !! x = h !! x)
      /\ all_destroyed_from a h').
  { intros h1 Hlen1 Hh1a Hbelow Hdead. unfold destroy.
    rewrite (RecursiveGeneratorFacts.store_ok _ _ _ _ Hh1a Hla).
    eexists. split; [done|]. split; [by rewrite length_insert|]. split.
    - intros x Hx. rewrite list_lookup_insert_ne by lia. by apply Hbelow.
    - intros x p Hx Hp. destruct (decide (x = a)) as [->|Hne].
      + rewrite list_lookup_insert_eq in Hp by lia. by injection Hp as <-.
      + rewrite list_lookup_insert_ne in Hp by done. apply (Hdead x); [lia|done]. }
  destruct (state pa) as [k|c k| |] eqn:Hs.
  2: { (* suspended at the [co_yield] of the generator [c] *)
    assert (Haw : awaits h a c) by (by exists pa, k).
    destruct (HD a c (le_n _) Haw) as (Hac & pc & Hpc & Hlc & Hparc).
    assert (Hc : c < length h) by (by eapply lookup_lt_Some).
    destruct (IH c h) as (h1 & Hdf & Hlen1 & Hbelow1 & Hdead1).
    { by exists pc. }
    { intros x p Hx Hp Hl. destruct (HU x p) as [Hrange Hawx]; [lia|done|done|].
      split; [|done]. split; [|lia].
      destruct (decide (m_parentOrLeaf p = a)) as [Heq|Hne].
      - rewrite Heq in Hawx. pose proof (awaits_unique _ _ _ _ Haw Hawx). lia.
      - destruct (awaits_live _ _ _ Hawx) as (py & Hpy & Hly).
        destruct (alive_above h a HU (m_parentOrLeaf p) py) as (c' & Hc' & ?);
          [lia|done|done|].
        pose proof (awaits_unique _ _ _ _ Haw Hc'). lia. }
    { intros y z Hy. apply HD. lia. }
    { lia. }
    rewrite Hdf. cbn [mbind res_bind].
    apply Hlast; [done| | |].
    - rewrite Hbelow1 by done. done.
    - intros x Hx. apply Hbelow1. lia.
    - intros x p Hx Hp. destruct (decide (c <= x)) as [Hcx|Hcx].
      + by apply (Hdead1 x).
      + rewrite Hbelow1 in Hp by lia.
        destruct (live_or_destroyed p) as [Hl|]; [|done].
        destruct (alive_above h a HU x p Hx Hp Hl) as (c' & Hc' & ?).
        pose proof (awaits_unique _ _ _ _ Haw Hc'). lia. }
  all: apply Hlast; try done.
  all: intros x p Hx Hp; destruct (live_or_destroyed p) as [Hl|]; [|done].
  all: destruct (alive_above h a HU x p Hx Hp Hl) as (c' & (py & k' & Hpy & Hs') & _).
  all: rewrite Ha in Hpy; injection Hpy as <-; congruence.
Qed.

Lemma destructor_owned h r :
  owned h r ->
  exists h', recursive_generator_destructor (h, {| m_promise := Some r |}) = Ok h'
    /\ length h' = length h
    /\ (forall x, x < r -> h' !! x = h !! x)
    /\ all_destroyed_from r h'.
Proof.
  intros (HM & HU & HD & pr & Hr & Hlr & _). cbn.
  apply destroy_frame_spec; try done.
  - by exists pr.
  - lia.
Qed.

(** *** The consumer *)

Lemma at_rest_leaf_awaits_nothing h r L kL ks ov :
  at_rest NoExcept h r L kL ks ov ->
  forall pr, h !! r = Some pr -> forall x, ~ awaits h (m_parentOrLeaf pr) x.
Proof.
  intros (pL & pr & HL & HsL & _ & _ & _ & Hr & _ & Hleaf & _) pr' Hr' x
    (py & k & Hpy & Hs).
  rewrite Hr in Hr'. injection Hr' as <-. rewrite Hleaf, HL in Hpy.
  injection Hpy as <-. congruence.
Qed.

#[local] Abbreviation parked := (RecursiveGenerator.parked NoExcept).

Lemma pulled_parked h1 r (l : production (T := T)) :
  pulled NoExcept h1 r l -> owned h1 r ->
  exists h2 it ox,
    (c ← is_complete r h1;
     if (c : bool) then
       '(h, x) ← RecursiveGenerator.rethrow_if_exception moved_from NoExcept r h1;
       Ok ((h, {| it_promise := None |}), x)
     else Ok ((h1, {| it_promise := Some r |}), Return tt))
    = Ok ((h2, it), ox)
    /\ (NoExcept = true -> ox = Return tt)
    /\ parked h2 r it /\ length h2 = length h1
    /\ (forall y, y < r -> h2 !! y = h1 !! y).
Proof.
  intros Hp Hown. destruct l as [[|v vs] ox].
  - destruct (RecursiveGeneratorFacts.root_complete_increment moved_from _ _ _ _ Hp)
      as (h2 & Hc & Hre & Hn).
    destruct (rethrow_keeps_owned _ _ _ _ Hre Hown) as (Hown2 & Hlen2 & Hbelow2 & _).
    rewrite Hc. cbn. rewrite Hre. cbn. do 3 eexists. split; [done|].
    split. { intros Hne. by rewrite (Hn Hne). }
    split; [|done]. split; [done|]. by right.
  - destruct Hp as (L & kL & ks & Hrest & _).
    destruct (RecursiveGeneratorFacts.at_rest_deref _ _ _ _ _ _ _ Hrest) as [Hc _].
    rewrite Hc. cbn. do 3 eexists. split; [done|]. split; [done|].
    split; [|done]. split; [done|]. left. split; [done|]. eauto.
Qed.

Lemma increment_parked h r L kL ks v :
  at_rest NoExcept h r L kL ks (Some v) -> owned h r ->
  exists h' it (ox : except unit),
    iterator_increment moved_from NoExcept (h, {| it_promise := Some r |})
    = Ok ((h', it), ox)
    /\ parked h' r it /\ length h <= length h'
    /\ (forall y, y < r -> h' !! y = h !! y).
Proof.
  intros Hrest Hown.
  destruct (RecursiveGeneratorFacts.at_rest_deref _ _ _ _ _ _ _ Hrest) as [Hc _].
  destruct (RecursiveGeneratorFacts.pull_spec moved_from _ _ _ _ _ _ _ Hrest)
    as (h1 & Hpull & Hp).
  destruct (pull_keeps_owned _ _ _ Hpull Hown) as (Hown1 & Hlen1 & Hbelow1).
  { by eapply at_rest_leaf_awaits_nothing. }
  destruct (pulled_parked _ _ _ Hp Hown1) as (h2 & it & ox & Heq & Hn & Hpk & Hlen2 & Hbelow2).
  exists h2, it, ox. split.
  - unfold iterator_increment. cbn. rewrite Hc. cbn. rewrite Hpull. cbn.
    rewrite Heq. destruct ox as [[]|e]; cbn; [done|].
    destruct NoExcept; [by specialize (Hn eq_refl)|done].
  - split; [done|]. split; [lia|]. intros y Hy. by rewrite Hbelow2, Hbelow1.
Qed.

Lemma increments_parked n : forall h r it,
  parked h r it ->
  exists h' it' (ox : except unit),
    increments moved_from NoExcept n (h, it) = Ok ((h', it'), ox)
    /\ owned h' r /\ length h <= length h'
    /\ (forall y, y < r -> h' !! y = h !! y).
Proof.
  induction n as [|n IH]; intros h r it [Hown Hit].
  - do 3 eexists. split; [done|]. done.
  - destruct Hit as [[-> (L & kL & ks & v & Hrest)]| ->].
    + destruct (increment_parked _ _ _ _ _ _ Hrest Hown)
        as (h1 & it1 & ox & Hinc & Hpk1 & Hlen1 & Hbelow1).
      cbn [increments]. cbn [snd iterator_eq it_promise iterator_end].
      rewrite Hinc. cbn [mbind res_bind].
      destruct ox as [[]|e].
      * destruct (IH h1 r it1 Hpk1) as (h' & it' & ox' & Heq & Hown' & Hlen' & Hbelow').
        exists h', it', ox'. split; [done|]. split; [done|]. split; [lia|].
        intros y Hy. by rewrite Hbelow', Hbelow1.
      * do 3 eexists. split; [done|]. destruct Hpk1 as [? _]. done.
    + do 3 eexists. split; [done|]. done.
Qed.

Lemma coroutine_call_parked b (h0 : heap T) :
  admissible NoExcept b ->
  let r := length h0 in
  let h := h0 ++ [promise_type_new r b] in
  coroutine_call b h0 = (h, {| m_promise := Some r |})
  /\ at_rest NoExcept h r r b [] None /\ owned h r.
Proof.
  intros Hadm r h. split; [done|].
  assert (Hr : h !! r = Some (promise_type_new r b)) by (by apply list_lookup_middle).
  assert (Hlen : length h = S r) by (unfold h; rewrite length_app; cbn; lia).
  split.
  - exists (promise_type_new r b), (promise_type_new r b).
    repeat (split; [done|]). split; [constructor|]. split; [apply NoDup_singleton|].
    split; [done|constructor].
  - split; [|split; [|split]].
    + intros x p Hx Hp _. assert (x = r) as ->.
      { apply lookup_lt_Some in Hp. lia. }
      rewrite Hr in Hp. by injection Hp as <-.
    + intros x p Hx Hp. apply lookup_lt_Some in Hp. lia.
    + intros y c Hy (py & k & Hpy & Hs). assert (y = r) as ->.
      { apply lookup_lt_Some in Hpy. lia. }
      rewrite Hr in Hpy. by injection Hpy as <-.
    + exists (promise_type_new r b). done.
Qed.

Lemma consume_and_drop_spec n b (h0 : heap T) :
  admissible NoExcept b ->
  exists h', consume_and_drop moved_from NoExcept n b h0 = Ok h'
    /\ length h0 < length h'
    /\ take (length h0) h' = h0
    /\ all_destroyed_from (length h0) h'.
Proof.
  intros Hadm.
  destruct (coroutine_call_parked b h0 Hadm) as (Hcall & Hrest & Hown).
  set (r := length h0) in *. set (h := h0 ++ [promise_type_new r b]) in *.
  assert (Hlen : length h = S r) by (unfold h; rewrite length_app; cbn; lia).
  assert (Hh0 : forall y, y < r -> h !! y = h0 !! y).
  { intros y Hy. unfold h. by rewrite lookup_app_l. }
  destruct (RecursiveGeneratorFacts.pull_spec moved_from _ _ _ _ _ _ _ Hrest)
    as (h1 & Hpull & Hp).
  destruct (pull_keeps_owned _ _ _ Hpull Hown) as (Hown1 & Hlen1 & Hbelow1).
  { by eapply at_rest_leaf_awaits_nothing. }
  destruct (pulled_parked _ _ _ Hp Hown1)
    as (h2 & it & ox & Heq & Hn & [Hown2 Hit] & Hlen2 & Hbelow2).
  assert (Hfinish : forall h3, owned h3 r -> length h2 <= length h3 ->
            (forall y, y < r -> h3 !! y = h2 !! y) ->
            exists h', recursive_generator_destructor (h3, {| m_promise := Some r |})
                       = Ok h'
              /\ length h0 < length h' /\ take (length h0) h' = h0
              /\ all_destroyed_from (length h0) h').
  { intros h3 Hown3 Hlen3 Hbelow3.
    destruct (destructor_owned h3 r Hown3) as (h' & Hd & Hlen' & Hbelow' & Hdead').
    exists h'. split; [done|]. split; [fold r; lia|]. split; [|done].
    apply list_eq. intros y. destruct (decide (y < r)) as [Hy|Hy].
    - rewrite lookup_take_lt by done.
      by rewrite Hbelow', Hbelow3, Hbelow2, Hbelow1, Hh0.
    - rewrite lookup_take_ge by (fold r; lia).
      symmetry. apply lookup_ge_None. fold r. lia. }
  unfold consume_and_drop. rewrite Hcall.
  assert (Hbegin : begin moved_from NoExcept (h, {| m_promise := Some r |})
    = Ok (match ox with
          | Return _ => ((h2, {| m_promise := Some r |}), Return (h2, it))
          | Throw e => ((h2, {| m_promise := Some r |}), Throw e)
          end)).
  { unfold begin. cbn. rewrite Hpull. cbn.
    destruct (is_complete r h1) as [[]|] eqn:Hc; cbn in Heq |- *; [| |done].
    - destruct (RecursiveGenerator.rethrow_if_exception moved_from NoExcept r h1)
        as [[h2' ox']|]; [|done].
      cbn in Heq. injection Heq as -> <- ->.
      destruct ox as [[]|e]; cbn; [by destruct NoExcept|].
      destruct NoExcept; [by specialize (Hn eq_refl)|done].
    - injection Heq as -> <- <-. cbn. by destruct NoExcept. }
  rewrite Hbegin. cbn [mbind res_bind]. destruct ox as [[]|e].
  - destruct (increments_parked n h2 r it (conj Hown2 Hit))
      as (h3 & it3 & ox3 & Hinc & Hown3 & Hlen3 & Hbelow3).
    rewrite Hinc. cbn. by apply Hfinish.
  - by apply Hfinish.
Qed.

End ownership_facts.

End OwnershipFacts.

(** X10.  A consumer that takes [begin()] of a recursive generator,
    increments the iterator any number of times, up to the end of the
    sequence or not, and lets the generator go out of scope leaves no
    frame behind: the destructor destroys the root and, through the
    generators alive in the suspended frames, every nested coroutine that
    is still there, the others having been destroyed when their parent
    went on; the heap that was there before the call is as it was. *)
Theorem dropped_recursive_generator_leaves_no_frame
  (T : Type) (moved_from : exception_ptr -> exception_ptr) (NoExcept : bool)
  (b : RecursiveGenerator.body T) (h0 : RecursiveGenerator.heap T) (n : nat) :
  RecursiveGenerator.admissible NoExcept b ->
  exists h',
    RecursiveGenerator.consume_and_drop moved_from NoExcept n b h0 = Ok h'
    /\ length h0 < length h'
    /\ take (length h0) h' = h0
    /\ RecursiveGenerator.all_destroyed_from (length h0) h'.
Proof. apply OwnershipFacts.consume_and_drop_spec. Qed.

(** At the generator that fails at depth three, dropped after its second
    element, with two nested coroutines suspended. *)
Lemma dropped_recursive_generator_leaves_no_frame_witness :
  RecursiveGenerator.admissible false Examples.fails_at_depth_three
  /\ exists h',
       RecursiveGenerator.consume_and_drop ExceptionPromise.moved_from_null false 1
         Examples.fails_at_depth_three [] = Ok h'
       /\ length (A := RecursiveGenerator.promise_type nat) [] < length h'
       /\ take 0 h' = []
       /\ RecursiveGenerator.all_destroyed_from 0 h'.
Proof.
  assert (Hadm : RecursiveGenerator.admissible false Examples.fails_at_depth_three)
    by (intros H; discriminate H).
  split; [exact Hadm|].
  exact (dropped_recursive_generator_leaves_no_frame nat
           ExceptionPromise.moved_from_null false Examples.fails_at_depth_three
           [] 1 Hadm).
Defined.

(** ** A recursive generator that yields no generator *)

Section plain_bodies.

Context {T : Type}.
Variable moved_from : exception_ptr -> exception_ptr.

Lemma script_observation_yields (l : list T) (tail : list (Examples.statement T)) :
  Examples.script_observation false ((Examples.yields <$> l) ++ tail)
  = and_then l [] (Examples.script_observation false tail).
Proof.
  induction l as [|v l IH]; cbn.
  - by destruct (Examples.script_observation false tail).
  - rewrite IH. done.
Qed.

End plain_bodies.

(** X11.  A fallible recursive generator whose body yields values only, and
    then returns or throws, is observed like the fallible generator with
    the same body: the same elements in order and the same ending. *)
Theorem recursive_generator_without_nesting_is_a_generator
  (T : Type) (moved_from : exception_ptr -> exception_ptr)
  (l : list T) (failure : option exn) (h0 : RecursiveGenerator.heap T) (n : nat) :
  let R := RecursiveGenerator.recursive_generator_range (T := T) moved_from false in
  let R' := Generator.generator_range (T := T) moved_from false Examples.script in
  let last := match failure with
              | Some e => RecursiveGenerator.throws e
              | None => RecursiveGenerator.co_return
              end in
  let last' := match failure with
               | Some e => [Examples.fails e]
               | None => []
               end in
  exists g,
    Generator.coroutine_call false Examples.script ((Examples.yields <$> l) ++ last')
    = ([], Ok g)
    /\ for_each (length l + n)
         (RecursiveGenerator.coroutine_call
            (foldr RecursiveGenerator.co_yield last l) h0)
       = for_each (length l + n) g
    /\ for_each (length l + n) g
       = {| values := l; effects := [];
            outcome := match failure with
                       | Some e => raised e
                       | None => finished
                       end |}.
Proof.
  intros R R' last last'. eexists. split; [reflexivity|].
  assert (Hobs : Examples.script_observation false ((Examples.yields <$> l) ++ last')
                 = {| values := l; effects := [];
                      outcome := match failure with
                                 | Some e => raised e
                                 | None => finished
                                 end |}).
  { rewrite script_observation_yields. subst last'.
    destruct failure; cbn; unfold and_then; cbn; by rewrite app_nil_r. }
  assert (Hgen : for_each (length l + n)
                   {| Generator.m_coroutine :=
                        Some {| Generator.promise :=
                                  {| Generator.base := ExceptionPromise.init;
                                     Generator.m_value := None |};
                                Generator.state :=
                                  Generator.suspended ((Examples.yields <$> l) ++ last') |} |}
                 = {| values := l; effects := [];
                      outcome := match failure with
                                 | Some e => raised e
                                 | None => finished
                                 end |}).
  { rewrite <- Hobs.
    pose proof (for_each_script moved_from false ((Examples.yields <$> l) ++ last')
                  {| Generator.promise :=
                       {| Generator.base := ExceptionPromise.init;
                          Generator.m_value := None |};
                     Generator.state := Generator.suspended [] |} n eq_refl) as H.
    rewrite Hobs in H at 1. cbn [values] in H. exact H. }
  split; [|exact Hgen].
  etrans; [|symmetry; exact Hgen].
  pose proof (RecursiveGeneratorFacts.for_each_spec moved_from false
                (foldr RecursiveGenerator.co_yield last l) h0 n
                (RecursiveGeneratorFacts.admissible_fallible false _ eq_refl)) as H.
  rewrite RecursiveGeneratorFacts.produce_yields_then in H.
  subst last. destruct failure; cbn in H; rewrite ?app_nil_r in H; exact H.
Qed.
